(** * json_viz: the record-to-presentation pipeline of [JsonVisualizer]

    A shallow embedding of [src/json_viz/core.py]: the cell normalisers
    ([image_to_base64], [image_to_html], [process_textual_content]), the
    column transformer ([process_dataframe]), the two passes of
    [visualize] with its default output file and title, and the in-page
    [resampleData] handler.

    Conventions.
    - A Python [str] is modelled as the list of its characters, for
      characters whose code point is below 256 ([ascii] holds the code
      point).  Whitespace and case mapping are Python's on that range.
    - A cell of a [DataFrame] is a Python object as [read_json] builds it
      from a JSON value; pandas' dtype promotions are not modelled.
    - The network and the file system are a snapshot [world]: a URL or a
      path answers the same way each time it is asked during one run.
      Effectful code runs in a small exception-and-log monad. *)

From Stdlib Require Import ZArith NArith Ascii String List Bool Lia.
From Stdlib Require Import Numbers.DecimalString.
From stdpp Require Import base list.

Open Scope list_scope.

(** ** Text *)

Definition text := list ascii.

(** A string literal as a text. *)
Definition str (s : string) : text := list_ascii_of_string s.

Definition ch_newline : ascii := ascii_of_nat 10.
Definition ch_backslash : ascii := ascii_of_nat 92.
Definition ch_dollar : ascii := ascii_of_nat 36.
Definition ch_lt : ascii := ascii_of_nat 60.
Definition ch_gt : ascii := ascii_of_nat 62.
Definition ch_quote : ascii := ascii_of_nat 34.

Definition ascii_eqb (a b : ascii) : bool := Ascii.eqb a b.

(** [str.isspace] on one character: U+0009..U+000D, U+001C..U+0020,
    U+0085 and U+00A0 are the whitespace code points below 256. *)
Definition isspace (c : ascii) : bool :=
  let n := N_of_ascii c in
  (((9 <=? n) && (n <=? 13)) || ((28 <=? n) && (n <=? 32))
   || (n =? 133) || (n =? 160))%N.

(** [str.lower] on one character: A-Z, and U+00C0..U+00DE but U+00D7. *)
Definition lower_char (c : ascii) : ascii :=
  let n := N_of_ascii c in
  if (((65 <=? n) && (n <=? 90))
      || ((192 <=? n) && (n <=? 222) && negb (n =? 215)))%N
  then ascii_of_N (n + 32) else c.

Definition lower (s : text) : text := map lower_char s.

(** [s.startswith(p)] *)
Fixpoint startswith (s p : text) {struct p} : bool :=
  match p, s with
  | [], _ => true
  | _ :: _, [] => false
  | y :: p', x :: s' => ascii_eqb x y && startswith s' p'
  end.

(** [sub in s] for strings *)
Fixpoint contains (sub s : text) : bool :=
  startswith s sub ||
  match s with
  | [] => false
  | _ :: s' => contains sub s'
  end.

Fixpoint lstrip (s : text) : text :=
  match s with
  | [] => []
  | c :: s' => if isspace c then lstrip s' else s
  end.

Definition rstrip (s : text) : text := rev (lstrip (rev s)).

(** [s.strip()] *)
Definition strip (s : text) : text := rstrip (lstrip s).

(** [s.split('\n', 1)[0]]: the characters before the first newline. *)
Fixpoint first_line (s : text) : text :=
  match s with
  | [] => []
  | c :: s' => if ascii_eqb c ch_newline then [] else c :: first_line s'
  end.

(** [sep.join(parts)] *)
Fixpoint join (sep : text) (parts : list text) : text :=
  match parts with
  | [] => []
  | [p] => p
  | p :: rest => p ++ sep ++ join sep rest
  end.

(** [s.replace(old, new)] for a non-empty [old]: left to right, the
    occurrences found do not overlap.  [skip] counts the characters of
    the occurrence just replaced that are still to be passed over. *)
Fixpoint replace_from (old new : text) (s : text) (skip : nat) : text :=
  match s with
  | [] => []
  | c :: s' =>
      match skip with
      | S k => replace_from old new s' k
      | O =>
          if startswith s old
          then new ++ replace_from old new s' (length old - 1)
          else c :: replace_from old new s' 0
      end
  end.

(** [s.replace(old, new)]; an empty [old] matches before every character
    and at the end. *)
Definition replace (old new : text) (s : text) : text :=
  match old with
  | [] => new ++ flat_map (fun c => c :: new) s
  | _ :: _ => replace_from old new s 0
  end.

(** ** Regular expressions

    The fragment of Python's [re] that the two patterns of the program
    use, with the backtracking order of the library: a greedy operator
    tries the longer match first, a lazy one the shorter. *)

Inductive cclass : Type :=
| CLit (c : ascii)        (* an escaped or plain character *)
| CDot (dotall : bool)    (* [.]; without re.DOTALL it refuses a newline *)
| CSpace.                 (* [\s] *)

Definition cclass_matches (k : cclass) (c : ascii) : bool :=
  match k with
  | CLit x => ascii_eqb c x
  | CDot dotall => dotall || negb (ascii_eqb c ch_newline)
  | CSpace => isspace c
  end.

Inductive regex : Type :=
| REps                         (* the empty pattern *)
| RChar (k : cclass)
| RSeq (r1 r2 : regex)
| ROpt (r : regex)             (* r?  *)
| RStar (k : cclass)           (* k*  *)
| RStarLazy (k : cclass)       (* k*? *)
| RGroup (n : nat) (r : regex) (* the n-th capturing group *).

(** The literal [s] as a pattern. *)
Fixpoint RLit (s : text) : regex :=
  match s with
  | [] => REps
  | c :: s' => RSeq (RChar (CLit c)) (RLit s')
  end.

(** Captured groups, latest first. *)
Definition captures := list (nat * text).

(** [m.group(n)] as [findall] and a template see it: a group that took
    no part in the match reads as the empty string. *)
Fixpoint group (n : nat) (caps : captures) : text :=
  match caps with
  | [] => []
  | (k, t) :: rest => if Nat.eqb k n then t else group n rest
  end.

Section Matcher.
(** The continuation receives what is left of the subject. *)
Variable K : captures -> text -> option (captures * text).

Fixpoint star_greedy (k : cclass) (caps : captures) (s : text)
  : option (captures * text) :=
  match s with
  | c :: s' =>
      if cclass_matches k c
      then match star_greedy k caps s' with
           | Some r => Some r
           | None => K caps s
           end
      else K caps s
  | [] => K caps s
  end.

Fixpoint star_lazy (k : cclass) (caps : captures) (s : text)
  : option (captures * text) :=
  match K caps s with
  | Some r => Some r
  | None =>
      match s with
      | c :: s' => if cclass_matches k c then star_lazy k caps s' else None
      | [] => None
      end
  end.
End Matcher.

(** [rmatch r K caps s]: match [r] at the start of [s], then continue
    with [K]; the first success in backtracking order. *)
Fixpoint rmatch (r : regex) (K : captures -> text -> option (captures * text))
  (caps : captures) (s : text) : option (captures * text) :=
  match r with
  | REps => K caps s
  | RChar k =>
      match s with
      | c :: s' => if cclass_matches k c then K caps s' else None
      | [] => None
      end
  | RSeq r1 r2 => rmatch r1 (rmatch r2 K) caps s
  | ROpt r1 =>
      match rmatch r1 K caps s with
      | Some res => Some res
      | None => K caps s
      end
  | RStar k => star_greedy K k caps s
  | RStarLazy k => star_lazy K k caps s
  | RGroup n r1 =>
      rmatch r1
        (fun caps' s' => K ((n, take (length s - length s') s) :: caps') s')
        caps s
  end.

(** [pattern.match(s)]: the groups and the number of characters taken. *)
Definition match_at (r : regex) (s : text) : option (captures * nat) :=
  match rmatch r (fun caps s' => Some (caps, s')) [] s with
  | Some (caps, rest) => Some (caps, length s - length rest)
  | None => None
  end.

(** A subject cut into the matches of a pattern and the characters
    between them. *)
Inductive piece : Type :=
| Gap (c : ascii)
| Hit (caps : captures).

(** The scan that [re.findall] and [re.sub] share, for a pattern that
    cannot match the empty string (both patterns of the program need at
    least two characters): try each position from the left, and resume
    after a match. *)
Fixpoint scan_from (r : regex) (s : text) (skip : nat) : list piece :=
  match s with
  | [] => []
  | c :: s' =>
      match skip with
      | S k => scan_from r s' k
      | O =>
          match match_at r s with
          | Some (caps, n) => Hit caps :: scan_from r s' (n - 1)
          | None => Gap c :: scan_from r s' 0
          end
      end
  end.

Definition scan (r : regex) (s : text) : list piece := scan_from r s 0.

(** [re.findall(r, s)], each match as its groups. *)
Definition findall (r : regex) (s : text) : list captures :=
  flat_map (fun p => match p with Gap _ => [] | Hit caps => [caps] end)
           (scan r s).

(** A replacement template: literal text and group references. *)
Inductive titem : Type :=
| TLit (t : text)
| TRef (n : nat).

Definition expand (tmpl : list titem) (caps : captures) : text :=
  flat_map (fun i => match i with TLit t => t | TRef n => group n caps end)
           tmpl.

(** [re.sub(r, tmpl, s)] *)
Definition sub (r : regex) (tmpl : list titem) (s : text) : text :=
  flat_map (fun p => match p with Gap c => [c] | Hit caps => expand tmpl caps end)
           (scan r s).

(** [r'\$(.*?)\$'] *)
Definition math_re : regex :=
  RSeq (RChar (CLit ch_dollar))
    (RSeq (RGroup 1 (RStarLazy (CDot false)))
       (RChar (CLit ch_dollar))).

(** [r'\( \1 \)'] *)
Definition math_tmpl : list titem :=
  [TLit (str "\( "); TRef 1; TLit (str " \)")].

(** [r'```(markdown)?\s*(.*?)\s*```'], compiled with re.DOTALL *)
Definition fence_re : regex :=
  RSeq (RLit (str "```"))
    (RSeq (ROpt (RGroup 1 (RLit (str "markdown"))))
       (RSeq (RStar CSpace)
          (RSeq (RGroup 2 (RStarLazy (CDot true)))
             (RSeq (RStar CSpace)
                (RLit (str "```")))))).


(** ** Python values *)

(** A cell as [read_json] builds it from a JSON value.  A finite float is
    carried with its [repr]; NaN, which pandas stores for a missing value,
    is apart because [str] and [json.dumps] spell it differently. *)
#[warnings="-register-all"]
Inductive value : Type :=
| VNone
| VNaN
| VBool (b : bool)
| VInt (z : Z)
| VFloat (repr : text)
| VStr (s : text)
| VDict (items : list (text * value))
| VList (items : list value).

(** [isinstance(x, (dict, list))] *)
Definition is_container (v : value) : bool :=
  match v with
  | VDict _ | VList _ => true
  | _ => false
  end.

(** [str(z)] for an int *)
Definition int_str (z : Z) : text := str (NilZero.string_of_int (Z.to_int z)).

Definition hex_digit (n : N) : ascii :=
  nth (N.to_nat n) (str "0123456789abcdef") "0"%char.

(** [repr] of a string: single quotes unless the string has a single and
    no double quote; control characters and the unprintable ones of
    U+007F..U+00A0 and U+00AD are written [\xNN]. *)
Definition repr_char (quote : ascii) (c : ascii) : text :=
  let n := N_of_ascii c in
  if ascii_eqb c quote || ascii_eqb c ch_backslash then [ch_backslash; c]
  else if (n =? 9)%N then str "\t"
  else if (n =? 10)%N then str "\n"
  else if (n =? 13)%N then str "\r"
  else if ((n <? 32) || ((127 <=? n) && (n <=? 160)) || (n =? 173))%N
       then ch_backslash :: "x"%char :: [hex_digit (n / 16); hex_digit (n mod 16)]
  else [c].

Definition repr_str (s : text) : text :=
  let quote :=
    if existsb (ascii_eqb "'"%char) s && negb (existsb (ascii_eqb ch_quote) s)
    then ch_quote else "'"%char in
  quote :: flat_map (repr_char quote) s ++ [quote].

(** [repr(v)] *)
Fixpoint py_repr (v : value) : text :=
  match v with
  | VNone => str "None"
  | VNaN => str "nan"
  | VBool b => if b then str "True" else str "False"
  | VInt z => int_str z
  | VFloat r => r
  | VStr s => repr_str s
  | VDict items =>
      str "{" ++
      join (str ", ")
        (map (fun kv => repr_str (fst kv) ++ str ": " ++ py_repr (snd kv)) items)
      ++ str "}"
  | VList items =>
      str "[" ++ join (str ", ") (map py_repr items) ++ str "]"
  end.

(** [str(v)] *)
Definition py_str (v : value) : text :=
  match v with
  | VStr s => s
  | _ => py_repr v
  end.

(** The string escapes of [json.dumps(..., ensure_ascii=False)]. *)
Definition json_char (c : ascii) : text :=
  let n := N_of_ascii c in
  if ascii_eqb c ch_quote || ascii_eqb c ch_backslash then [ch_backslash; c]
  else if (n =? 8)%N then str "\b"
  else if (n =? 9)%N then str "\t"
  else if (n =? 10)%N then str "\n"
  else if (n =? 12)%N then str "\f"
  else if (n =? 13)%N then str "\r"
  else if (n <? 32)%N
       then ch_backslash :: str "u00" ++ [hex_digit (n / 16); hex_digit (n mod 16)]
  else [c].

Definition json_string (s : text) : text :=
  ch_quote :: flat_map json_char s ++ [ch_quote].

(** A newline and the indentation of nesting depth [level], two spaces a
    level. *)
Definition newline_indent (level : nat) : text :=
  ch_newline :: concat (repeat (str "  ") level).

(** The encoder of [json.dumps(v, indent=2, ensure_ascii=False)] at
    nesting depth [level]: items on their own lines, keys in the order of
    the dict, ["," ] between items and [": "] after a key. *)
Fixpoint json_encode (level : nat) (v : value) : text :=
  match v with
  | VNone => str "null"
  | VNaN => str "NaN"
  | VBool b => if b then str "true" else str "false"
  | VInt z => int_str z
  | VFloat r => r
  | VStr s => json_string s
  | VDict [] => str "{}"
  | VDict items =>
      str "{" ++ newline_indent (S level) ++
      join (str "," ++ newline_indent (S level))
        (map (fun kv => json_string (fst kv) ++ str ": "
                          ++ json_encode (S level) (snd kv)) items)
      ++ newline_indent level ++ str "}"
  | VList [] => str "[]"
  | VList items =>
      str "[" ++ newline_indent (S level) ++
      join (str "," ++ newline_indent (S level))
        (map (json_encode (S level)) items)
      ++ newline_indent level ++ str "]"
  end.

Definition json_dumps (v : value) : text := json_encode 0 v.

(** ** Images *)

Definition bytes := list ascii.

Definition b64_char (n : N) : ascii :=
  nth (N.to_nat n)
    (str "ABCDEFGHIJKLMNOPQRSTUVWXYZabcdefghijklmnopqrstuvwxyz0123456789+/")
    "="%char.

(** [base64.b64encode(b).decode('utf-8')] *)
Fixpoint b64encode (b : bytes) : text :=
  match b with
  | [] => []
  | [x] =>
      let n := N_of_ascii x in
      [b64_char (n / 4); b64_char ((n mod 4) * 16); "="%char; "="%char]
  | [x; y] =>
      let n := (N_of_ascii x * 256 + N_of_ascii y)%N in
      [b64_char (n / 1024); b64_char ((n / 16) mod 64);
       b64_char ((n mod 16) * 4); "="%char]
  | x :: y :: z :: rest =>
      let n := (N_of_ascii x * 65536 + N_of_ascii y * 256 + N_of_ascii z)%N in
      [b64_char (n / 262144); b64_char ((n / 4096) mod 64);
       b64_char ((n / 64) mod 64); b64_char (n mod 64)] ++ b64encode rest
  end.

(** What an image function may be handed: a cell, or one of the objects
    the docstrings name. *)
Inductive pyobj : Type :=
| Cell (v : value)
| PathObj (p : text)       (* pathlib.Path *)
| BytesIO (data : bytes)   (* io.BytesIO *)
| PILImage (png : bytes).  (* a PIL image, with what save(format='PNG') writes *)

Inductive exn : Type :=
| RequestException (url : text)        (* requests.get: no connection, timeout, bad URL *)
| HTTPError (url : text) (status : Z)  (* raise_for_status *)
| OSError (path : text)                (* open: any failure but a missing file *)
| ValueError.                          (* DataFrame.sample: a negative number of rows *)

Inductive http_reply : Type :=
| GetRaises (e : exn)
| Response (status : Z) (content : bytes).

Inductive file_reply : Type :=
| FileNotFoundError
| OpenRaises (e : exn)
| FileContent (b : bytes).

Record world : Type := {
  http_get : text -> http_reply;
  open_rb : text -> file_reply
}.

Inductive io_event : Type :=
| EvGet (url : text)
| EvOpen (path : text).

Inductive outcome (A : Type) : Type :=
| Ok (a : A)
| Raise (e : exn).
Arguments Ok {A} a.
Arguments Raise {A} e.

(** A computation reads the world, and yields a value or an exception
    together with the I/O it performed, oldest first. *)
Definition io (A : Type) : Type := world -> outcome A * list io_event.

Definition ret {A} (a : A) : io A := fun _ => (Ok a, []).

Definition raise {A} (e : exn) : io A := fun _ => (Raise e, []).

Definition bind {A B} (m : io A) (f : A -> io B) : io B :=
  fun w =>
    match m w with
    | (Ok a, log) => let '(r, log') := f a w in (r, log ++ log')
    | (Raise e, log) => (Raise e, log)
    end.

Notation "x <- m ;; k" := (bind m (fun x => k))
  (at level 100, m at next level, right associativity).

Definition result {A} (m : io A) (w : world) : outcome A := fst (m w).
Definition trace {A} (m : io A) (w : world) : list io_event := snd (m w).

(** [for x in l: f(x)], collecting the results. *)
Fixpoint mapM {A B} (f : A -> io B) (l : list A) : io (list B) :=
  match l with
  | [] => ret []
  | x :: l' => y <- f x ;; ys <- mapM f l' ;; ret (y :: ys)
  end.

(** [requests.get(url)] then [raise_for_status()] then [.content] *)
Definition fetch (url : text) : io bytes :=
  fun w =>
    match http_get w url with
    | GetRaises e => (Raise e, [EvGet url])
    | Response status content =>
        if ((400 <=? status) && (status <? 600))%Z
        then (Raise (HTTPError url status), [EvGet url])
        else (Ok content, [EvGet url])
    end.

(** [open(path, "rb").read()] under [except FileNotFoundError: b''] *)
Definition read_or_empty (path : text) : io bytes :=
  fun w =>
    match open_rb w path with
    | FileNotFoundError => (Ok [], [EvOpen path])
    | OpenRaises e => (Raise e, [EvOpen path])
    | FileContent b => (Ok b, [EvOpen path])
    end.

(** What [image_to_base64] returns: the base64 text, or [byte_arr]. *)
Inductive encoded : Type :=
| EncStr (s : text)
| EncBytes (b : bytes).

(** Truth value of a [str] or [bytes]: non-empty. *)
Definition enc_truthy (e : encoded) : bool :=
  match e with
  | EncStr [] | EncBytes [] => false
  | _ => true
  end.

Definition is_url (s : text) : bool :=
  startswith s (str "http://") || startswith s (str "https://").

Definition image_to_base64 (x : pyobj) (to_base64 : bool) : io encoded :=
  byte_arr <-
    match x with
    | Cell (VStr s) => if is_url s then fetch s else read_or_empty s
    | PathObj p => read_or_empty p
    | BytesIO data => ret data
    | PILImage png => ret png
    | Cell _ => ret []
    end ;;
  match to_base64, byte_arr with
  | true, _ :: _ => ret (EncStr (b64encode byte_arr))
  | _, _ => ret (EncBytes byte_arr)
  end.

(** The two placeholder fragments; [dq] is the double quote of an HTML
    attribute. *)
Definition dq : text := [ch_quote].

Definition no_image : text :=
  str "<div class=" ++ dq ++ str "missing-image" ++ dq
  ++ str ">No image available</div>".

Definition not_found : text :=
  str "<div class=" ++ dq ++ str "missing-image" ++ dq
  ++ str ">Image not found</div>".

Definition img_tag (encoded_image : text) (width : Z) : text :=
  str "<img src=" ++ dq ++ str "data:image/png;base64," ++ encoded_image ++ dq
  ++ str " width=" ++ dq ++ int_str width ++ dq
  ++ str " alt=" ++ dq ++ str "Embedded Image" ++ dq ++ str ">".

(** [not isinstance(x, (str, Path, io.BytesIO, Image.Image)) or not x] *)
Definition no_image_source (x : pyobj) : bool :=
  match x with
  | Cell (VStr s) => match s with [] => true | _ :: _ => false end
  | Cell _ => true
  | PathObj _ | BytesIO _ | PILImage _ => false
  end.

Definition image_to_html (x : pyobj) (width : Z) : io text :=
  if no_image_source x then ret no_image
  else
    encoded_image <- image_to_base64 x true ;;
    match encoded_image with
    | EncStr ((_ :: _) as s) | EncBytes ((_ :: _) as s) => ret (img_tag s width)
    | EncStr [] | EncBytes [] => ret not_found
    end.

(** ** Textual cells *)

Definition special_tags : list text :=
  map str ["<image>"; "<img>"; "<think>"; "</think>"; "<answer>"; "</answer>";
           "<observe>"; "</observe>"; "<highlight>"; "</highlight>"]%string.

(** [tag.replace('<', '&lt;').replace('>', '&gt;')] *)
Definition escape_tag (tag : text) : text :=
  replace [ch_gt] (str "&gt;") (replace [ch_lt] (str "&lt;") tag).

Definition nonempty (t : text) : bool :=
  match t with [] => false | _ :: _ => true end.

(** Lines 110-118: the block under [# Handle markdown code blocks]. *)
Definition extract_fenced (is_markdown : bool) (t : text) : text :=
  if is_markdown || (nonempty t && contains (str "```") (first_line t))
  then
    let matches := findall fence_re t in
    match matches with
    | [] => t
    | _ :: _ =>
        let extracted := filter (fun m => nonempty m = true) (map (group 2) matches) in
        match extracted with
        | [] => t
        | e :: _ => e
        end
    end
  else t.

(** Lines 120-131: newlines, special tags, math notation. *)
Definition markup (t : text) : text :=
  let t := replace (str "\n") (str "<br>")
             (replace [ch_newline] (str "<br>") (strip t)) in
  let t := fold_left (fun t tag => replace tag (escape_tag tag) t) special_tags t in
  let t := replace (str "$$") (str "$") t in
  sub math_re math_tmpl t.

Definition process_textual_content (x : value) (is_markdown : bool) : text :=
  let t := match x with VStr s => s | _ => py_str x end in
  markup (extract_fenced is_markdown t).

(** ** Data frames *)

(** A frame: the row labels, and the columns in order, each with one cell
    a row. *)
Record DataFrame : Type := {
  index : list nat;
  columns : list (text * list value)
}.

Fixpoint text_eqb (a b : text) : bool :=
  match a, b with
  | [], [] => true
  | x :: a', y :: b' => ascii_eqb x y && text_eqb a' b'
  | _, _ => false
  end.

(** [x in l] for a list of strings *)
Definition mem (x : text) (l : list text) : bool := existsb (text_eqb x) l.

Definition column_names (df : DataFrame) : list text := map fst (columns df).

(** [len(df)] *)
Definition nrows (df : DataFrame) : nat := length (index df).

(** [df[col]] as a list of cells; a well-formed frame has one such column. *)
Definition get_column (df : DataFrame) (col : text) : list value :=
  match filter (fun c => text_eqb (fst c) col = true) (columns df) with
  | [] => []
  | c :: _ => snd c
  end.

(** [df[col] = cells]: in place when the column exists, else appended. *)
Definition set_column (df : DataFrame) (col : text) (cells : list value) : DataFrame :=
  {| index := index df;
     columns :=
       if mem col (column_names df)
       then map (fun c => if text_eqb (fst c) col then (fst c, cells) else c)
                (columns df)
       else columns df ++ [(col, cells)] |}.

(** [df.drop(columns=labels)], for labels that are present *)
Definition drop_columns (df : DataFrame) (labels : list text) : DataFrame :=
  {| index := index df;
     columns := filter (fun c => mem (fst c) labels = false) (columns df) |}.

(** [df[labels]] *)
Definition select_columns (df : DataFrame) (labels : list text) : DataFrame :=
  {| index := index df;
     columns :=
       flat_map (fun l => filter (fun c => text_eqb (fst c) l = true) (columns df))
                labels |}.

(** [cols.remove(x)]: the first occurrence goes. *)
Fixpoint list_remove (x : text) (l : list text) : list text :=
  match l with
  | [] => []
  | y :: l' => if text_eqb y x then l' else y :: list_remove x l'
  end.

(** The rows at the given positions, in that order ([df.iloc[positions]]);
    a position past the end selects nothing. *)
Definition take_rows (positions : list nat) (df : DataFrame) : DataFrame :=
  {| index := omap (fun i => index df !! i) positions;
     columns :=
       map (fun c => (fst c, omap (fun i => snd c !! i) positions)) (columns df) |}.

(** One [for col in df.columns: if test(col): df[col] = df[col].apply(f)]
    loop, with an effectful [f]. *)
Definition apply_where (test : text -> list value -> bool)
  (f : text -> value -> io value) (df : DataFrame) : io DataFrame :=
  cols <- mapM (fun c =>
                  if test (fst c) (snd c)
                  then cells <- mapM (f (fst c)) (snd c) ;; ret (fst c, cells)
                  else ret c)
               (columns df) ;;
  ret {| index := index df; columns := cols |}.

(** Line 162: the lambda applied to the cells of a column. *)
Definition format_structured (x : value) : value :=
  if is_container x
  then VStr (replace (str " ") (str "&nbsp;")
               (replace [ch_newline] (str "<br>") (json_dumps x)))
  else x.

(** Line 161 *)
Definition is_structured_column (cells : list value) : bool :=
  existsb is_container cells.

(** Line 166 *)
Definition is_image_column (col : text) : bool :=
  contains (str "image") (lower col) || contains (str "graph") (lower col).

Definition textual_patterns : list text :=
  map str ["result"; "prompt"; "question"; "answer"; "q & a"; "predict";
           "judge"; "caption"; "cot"; "claude"; "res"; "parse"; "truth";
           "desc"; "info"]%string.

(** Lines 172-176 *)
Definition is_textual (col : text) (textual_cols : list text) : bool :=
  mem col textual_cols || mem (lower col) textual_cols
  || existsb (fun pattern => contains pattern (lower col)) textual_patterns.

Definition default_textual_cols : list text :=
  map str ["q & a"; "result"; "question"; "answer"]%string.

Definition default_width : Z := 320.

(** Lines 160-162 *)
Definition structured_pass (df : DataFrame) : io DataFrame :=
  apply_where (fun _ cells => is_structured_column cells)
              (fun _ x => ret (format_structured x)) df.

(** Lines 165-167 *)
Definition image_pass (df : DataFrame) : io DataFrame :=
  apply_where (fun col _ => is_image_column col)
              (fun _ x => h <- image_to_html (Cell x) default_width ;; ret (VStr h)) df.

(** Lines 170-179 *)
Definition textual_pass (textual_cols : list text) (df : DataFrame) : io DataFrame :=
  apply_where (fun col _ => is_textual col textual_cols)
              (fun _ x => ret (VStr (process_textual_content x false))) df.

(** Line 184 *)
Definition valid_merge_cols (df : DataFrame) (merge_cols : list text) : list text :=
  filter (fun col => mem col (column_names df) = true) merge_cols.

(** Line 187: [df.apply(lambda x: '<br>'.join(...), axis=1)], one cell for
    each row.  The names in [valid] are columns of the frame, so the
    default of [nth] is not reached in a frame whose columns have a cell
    for every row.  The lambda reads a cell from the row, which pandas
    builds with one dtype for all its values: the cell is the one of the
    column as long as the frame has a column that is not of numbers, or
    holds ints only, or floats only.  In a frame of int and float columns
    only, the row is of floats and an int cell 1 is written [1.0]; that
    case is left to [promotes_ints], and the statements about merged
    values exclude it. *)
Definition merged_cells (df : DataFrame) (valid : list text) : list value :=
  map (fun i =>
         VStr (join (str "<br>")
                 (map (fun col => py_str (nth i (get_column df col) VNone)) valid)))
      (seq 0 (nrows df)).

(** Lines 182-195 *)
Definition merge_pass (merge_cols : option (list text)) (df : DataFrame) : DataFrame :=
  match merge_cols with
  | Some ((_ :: _ :: _) as merge_cols) =>
      let valid := valid_merge_cols df merge_cols in
      if 1 <? length valid
      then
        let new_col_name := join (str " & ") valid in
        let df := set_column df new_col_name (merged_cells df valid) in
        let df := drop_columns df valid in
        let cols := list_remove new_col_name (column_names df) in
        select_columns df (new_col_name :: cols)
      else df
  | _ => df
  end.

(** Lines 198-199 *)
Definition drop_pass (drop_cols : list text) (df : DataFrame) : DataFrame :=
  match drop_cols with
  | [] => df
  | _ :: _ =>
      drop_columns df (filter (fun col => mem col (column_names df) = true) drop_cols)
  end.

Definition process_dataframe (df : DataFrame)
  (textual_cols merge_cols drop_cols : option (list text)) : io DataFrame :=
  let textual_cols := default default_textual_cols textual_cols in
  let drop_cols := default [] drop_cols in
  df <- structured_pass df ;;
  df <- image_pass df ;;
  df <- textual_pass textual_cols df ;;
  ret (drop_pass drop_cols (merge_pass merge_cols df)).

(** Lines 531-533 of [visualize]: the copy that is sampled.
    [sample_size] is the integer of the caller, or [None]; 0 is falsy, as
    [None] is.  [sampler n len] stands for the positions that
    [df.sample(n, random_state=42)] draws from a frame of [len] rows;
    [DataFrame.sample] refuses a negative [n] with [ValueError]. *)
Definition display_frame (sampler : nat -> nat -> list nat)
  (original_df : DataFrame) (sample_size : option Z) : io DataFrame :=
  match sample_size with
  | Some n =>
      if (negb (n =? 0) && (n <? Z.of_nat (nrows original_df)))%Z
      then
        if (n <? 0)%Z then raise ValueError
        else ret (take_rows (sampler (Z.to_nat n) (nrows original_df)) original_df)
      else ret original_df
  | None => ret original_df
  end.

(** Lines 530-549 of [visualize]: the display set and the full set. *)
Definition visualize_frames (sampler : nat -> nat -> list nat)
  (original_df : DataFrame) (sample_size : option Z)
  (textual_cols merge_cols drop_cols : option (list text))
  : io (DataFrame * DataFrame) :=
  df <- display_frame sampler original_df sample_size ;;
  df <- process_dataframe df textual_cols merge_cols drop_cols ;;
  original_df <- process_dataframe original_df textual_cols merge_cols drop_cols ;;
  ret (df, original_df).

(** ** The page: [resampleData]

    The handler of the Resample button, lines 388-412 of the script that
    [generate_html] emits. *)

Section Resample.
Context {Row : Type}.

(** [Math.floor(Math.random() * (i + 1))] at loop index [i] *)
Variable draw : nat -> nat.

(** [[a[i], a[j]] = [a[j], a[i]]]; both positions exist when [j <= i]
    and [i] is below the length. *)
Definition swap (a : list nat) (i j : nat) : list nat :=
  match a !! j, a !! i with
  | Some aj, Some ai => <[j:=ai]> (<[i:=aj]> a)
  | _, _ => a
  end.

(** [for (let i = ...; i > 0; i--)], entered with the loop variable at [i] *)
Fixpoint shuffle_from (i : nat) (indices : list nat) : list nat :=
  match i with
  | O => indices
  | S i' => shuffle_from i' (swap indices i (draw i))
  end.

(** Lines 392-396 *)
Definition shuffled_indices (totalRows : nat) : list nat :=
  shuffle_from (totalRows - 1) (seq 0 totalRows).

(** The table body and the row-count badge; a row read past the end of
    the data is [undefined], here [None]. *)
Record page : Type := {
  table_rows : list (option Row);
  badge : text
}.

(** [size] is what [parseInt] made of the input field, [None] for NaN. *)
Definition resampleData (data : list Row) (size : option Z) (p : page) : page :=
  let totalRows := length data in
  match size with
  | Some size =>
      if ((0 <? size) && (size <=? Z.of_nat totalRows))%Z
      then
        let indices := shuffled_indices totalRows in
        let sampledIndices := take (Z.to_nat size) indices in
        let sampledData := map (fun i => data !! i) sampledIndices in
        {| table_rows := sampledData;
           badge := int_str size ++ str " rows" |}
      else p
  | None => p
  end.
End Resample.

(** ** Vocabulary of the statements *)

(** [t] occurs in [s] as a contiguous piece. *)
Definition occurs (t s : text) : Prop := exists a b, s = a ++ t ++ b.

(** A column name and a hint that differ by case only. *)
Definition same_up_to_case (a b : text) : Prop := lower a = lower b.

(** One of the two placeholder fragments. *)
Definition is_placeholder (frag : text) : Prop :=
  frag = no_image \/ frag = not_found.

(** The fetch of [url] fails in [w]: [requests.get] raises, or the status
    is one that [raise_for_status] refuses. *)
Definition fetch_fails (w : world) (url : text) : Prop :=
  match http_get w url with
  | GetRaises _ => True
  | Response status _ => (400 <= status < 600)%Z
  end.

(** A world without network: every request raises. *)
Definition offline : world :=
  {| http_get := fun url => GetRaises (RequestException url);
     open_rb := fun _ => FileNotFoundError |}.

(** A world whose server answers 404 to everything. *)
Definition all_404 : world :=
  {| http_get := fun _ => Response 404 (str "Not Found");
     open_rb := fun _ => FileNotFoundError |}.

(** A world that serves the same three bytes everywhere. *)
Definition serving : world :=
  {| http_get := fun _ => Response 200 (str "PNG");
     open_rb := fun _ => FileContent (str "PNG") |}.

(** The cell function of the textual pass. *)
Definition textual_cell (x : value) : value := VStr (process_textual_content x false).

(** The textual pass rewrites the column [col] of every frame with the
    textual normaliser. *)
Definition normalised_by_textual_pass (col : text) (hints : list text) : Prop :=
  forall (df : DataFrame) (cells : list value) (w : world),
    (col, cells) ∈ columns df ->
    exists df', result (textual_pass hints df) w = Ok df'
                /\ (col, map textual_cell cells) ∈ columns df'.

(** C3 as the specification words it: a hint that equals the column name
    up to case makes the column textual. *)
Definition hint_up_to_case_suffices (col : text) (hints : list text) : Prop :=
  (exists h, h ∈ hints /\ same_up_to_case col h) ->
  normalised_by_textual_pass col hints.

(** A frame with one column, [notes], of one cell with a line break. *)
Definition notes_frame : DataFrame :=
  {| index := [0];
     columns := [(str "notes", [VStr (str "a" ++ [ch_newline] ++ str "b")])] |}.

(** A frame as [read_json] builds it: distinct column names, and in every
    column one cell for each row. *)
Definition wf_frame (df : DataFrame) : Prop :=
  NoDup (column_names df)
  /\ Forall (fun c => length (snd c) = nrows df) (columns df).

(** [df[col] = df[col].apply(f)] for every column. *)
Definition apply_all (f : text -> value -> io value) (df : DataFrame) : io DataFrame :=
  apply_where (fun _ _ => true) f df.

(** [g] on every cell, with the name of its column. *)
Definition map_cells (g : text -> value -> value) (df : DataFrame) : DataFrame :=
  {| index := index df;
     columns := map (fun c => (fst c, map (g (fst c)) (snd c))) (columns df) |}.

(** What the three cell passes together do to one cell of the column
    [col]: it depends on the name of the column and on the hints, and on
    no other cell. *)
Definition cell_rule (textual_cols : list text) (col : text) (x : value) : io value :=
  y <- (if is_image_column col
        then h <- image_to_html (Cell (format_structured x)) default_width ;;
             ret (VStr h)
        else ret (format_structured x)) ;;
  ret (if is_textual col textual_cols then textual_cell y else y).

(** [df'] is [df] with every cell replaced by what the rule [r] of its
    column returns for it in [w]. *)
Definition rendered_by (r : text -> value -> io value) (w : world)
  (df df' : DataFrame) : Prop :=
  index df' = index df
  /\ Forall2 (fun c c' =>
               fst c' = fst c
               /\ Forall2 (fun x y => result (r (fst c) x) w = Ok y) (snd c) (snd c'))
             (columns df) (columns df').

(** Lines 160-179, the three loops over the columns. *)
Definition cell_passes (textual_cols : list text) (df : DataFrame) : io DataFrame :=
  df <- structured_pass df ;;
  df <- image_pass df ;;
  textual_pass textual_cols df.

(** A world in which no request and no [open] raises. *)
Definition reliable (w : world) : Prop :=
  (forall url, exists status content,
      http_get w url = Response status content
      /\ ((400 <=? status) && (status <? 600))%Z = false)
  /\ (forall path e, open_rb w path <> OpenRaises e).

(** A frame of three records with the keys [question], [meta],
    [image_path] and [score]. *)
Definition example_frame : DataFrame :=
  {| index := [0; 1; 2];
     columns :=
       [(str "question",
         [VStr (str "What is $2+2$?"); VStr (str "<think>hm</think> why"); VInt 3]);
        (str "meta", [VDict [(str "a", VInt 1)]; VNone; VInt 5]);
        (str "image_path", [VStr (str "a.png"); VStr []; VNone]);
        (str "score", [VInt 1; VInt 2; VInt 3])] |}.

(** A sampler that draws the last rows, last first. *)
Definition last_rows (n len : nat) : list nat := take n (rev (seq 0 len)).

(** The span that an opening dollar begins, read off the pattern
    [(.*?)\$]: the characters up to the next dollar, when no newline
    comes before it, and what follows that dollar. *)
Fixpoint math_span (s : text) : option (text * text) :=
  match s with
  | [] => None
  | c :: s' =>
      if ascii_eqb c ch_dollar then Some ([], s')
      else if ascii_eqb c ch_newline then None
      else match math_span s' with
           | Some (x, rest) => Some (c :: x, rest)
           | None => None
           end
  end.

(** How often the character [c] is in [s]. *)
Definition count_char (c : ascii) (s : text) : nat := count_occ ascii_dec s c.

(** The characters that the math substitution adds or removes. *)
Definition math_marks : text := str "\( )$".

(** One rule after another, as the loop over [special_tags] applies them. *)
Definition replace_all (rules : list (text * text)) (t : text) : text :=
  fold_left (fun t r => replace (fst r) (snd r) t) rules t.

(** The rules of the loop over [special_tags]. *)
Definition tag_rules : list (text * text) :=
  map (fun tag => (tag, escape_tag tag)) special_tags.

(** What stands between the angle brackets of the special tags. *)
Definition tag_bodies : list text :=
  map str ["image"; "img"; "think"; "/think"; "answer"; "/answer";
           "observe"; "/observe"; "highlight"; "/highlight"]%string.

Definition bracket (body : text) : text := ch_lt :: body ++ [ch_gt].

(** No occurrence of [old] can overlap the piece [t]: the first character
    of each is not in the tail of the other, and [old] does not begin
    where [t] begins. *)
Definition inert (t : text) (r : text * text) : Prop :=
  match t, fst r with
  | t0 :: tr, o :: old =>
      (t0 ∉ old) /\ (o ∉ tr)
      /\ forall k, startswith ((t0 :: tr) ++ k) (o :: old) = false
  | _, _ => False
  end.

(** [old] and [t] differ at a position that both have. *)
Fixpoint clashb (old t : text) : bool :=
  match old, t with
  | o :: old', x :: t' => negb (ascii_eqb o x) || clashb old' t'
  | _, _ => false
  end.

Definition has_char (c : ascii) (s : text) : bool := existsb (ascii_eqb c) s.

(** A test that implies [inert]. *)
Definition inertb (t : text) (r : text * text) : bool :=
  match t, fst r with
  | t0 :: tr, o :: old =>
      negb (has_char t0 old) && negb (has_char o tr) && clashb (o :: old) t
  | _, _ => false
  end.

(** The rule [r] cannot complete an occurrence of [t]: the first
    character of [t] is not in the replacement, and the first character
    of the replacement is not in the tail of [t]. *)
Definition reflectb (t : text) (r : text * text) : bool :=
  match t, fst r, snd r with
  | t0 :: tr, _ :: _, n :: new => negb (has_char t0 (n :: new)) && negb (has_char n tr)
  | _, _, _ => false
  end.

(** Each rule removes its [old] for good. *)
Fixpoint goneb (rules : list (text * text)) : bool :=
  match rules with
  | [] => true
  | r :: rest => reflectb (fst r) r && forallb (reflectb (fst r)) rest && goneb rest
  end.

(** The rules turn an occurrence of [t] into one of [e] that stays. *)
Fixpoint putsb (t e : text) (rules : list (text * text)) : bool :=
  match rules with
  | [] => false
  | r :: rest =>
      if text_eqb (fst r) t
      then text_eqb (snd r) e && nonempty t && forallb (inertb e) rest
      else inertb t r && putsb t e rest
  end.

(** No rule brings in the character [c]. *)
Definition bringsb (c : ascii) (r : text * text) : bool :=
  nonempty (fst r) && negb (has_char c (snd r)).

(** The replacements of lines 121-127 in their order: the two for line
    breaks, then the special tags. *)
Definition stage_rules : list (text * text) :=
  ([ch_newline], str "<br>") :: (str "\n", str "<br>") :: tag_rules.

(** What the replacements before the math notation make of a text. *)
Definition inline (x : text) : text := replace_all stage_rules x.

Definition inline_math (x : text) : text := str "\( " ++ x ++ str " \)".

(** The rule [r] looks for a text that begins with a character of [cs]. *)
Definition head_in (cs : text) (r : text * text) : bool :=
  match fst r with
  | o :: _ => has_char o cs
  | [] => false
  end.

(** Neither side of the rule [r] is empty. *)
Definition solidb (r : text * text) : bool := nonempty (fst r) && nonempty (snd r).

(** C4 as the specification words it: a text with [$x$] in it is
    processed to one with [\( x \)] in it and without [$x$]. *)
Definition math_round_trip (t x : text) : Prop :=
  occurs (ch_dollar :: x ++ [ch_dollar]) t ->
  occurs (inline_math x) (process_textual_content (VStr t) false)
  /\ ~ occurs (ch_dollar :: x ++ [ch_dollar]) (process_textual_content (VStr t) false).

(** A fenced block on the first line, and a formula after it. *)
Definition fenced_then_math : text :=
  str "```" ++ [ch_newline] ++ str "code" ++ [ch_newline] ++ str "``` $x$".

(** A text of characters that the math substitution neither adds nor
    removes. *)
Definition plainb (t : text) : bool :=
  nonempty t && forallb (fun c => negb (has_char c math_marks)) t.

(** The characters that the stages of [markup] look for. *)
Definition markup_chars : text :=
  [ch_lt; ch_gt; ch_newline; ch_backslash; ch_dollar].

(** C5 as the specification words it: a text with a special tag in it
    is processed to one with the escaped tag in it and without the tag. *)
Definition tag_escaped (t tag : text) : Prop :=
  occurs tag t ->
  occurs (escape_tag tag) (process_textual_content (VStr t) false)
  /\ ~ occurs tag (process_textual_content (VStr t) false).

(** A fenced block on the first line, and a special tag after it. *)
Definition fenced_then_tag : text :=
  str "```" ++ [ch_newline] ++ str "x" ++ [ch_newline] ++ str "``` <think>".

(** Lines 35-68 of [image_to_base64]: the bytes of the source. *)
Definition image_bytes (x : pyobj) : io bytes :=
  match x with
  | Cell (VStr s) => if is_url s then fetch s else read_or_empty s
  | PathObj p => read_or_empty p
  | BytesIO data => ret data
  | PILImage png => ret png
  | Cell _ => ret []
  end.

(** Lines 89-94 of [image_to_html]: the fragment for the bytes of a
    source. *)
Definition fragment_of (b : bytes) (width : Z) : text :=
  match b with
  | [] => not_found
  | _ :: _ => img_tag (b64encode b) width
  end.

(** A world with one file, and no network. *)
Definition one_file (path : text) (content : bytes) : world :=
  {| http_get := fun url => GetRaises (RequestException url);
     open_rb := fun p => if text_eqb p path then FileContent content
                         else FileNotFoundError |}.

Definition ch_backtick : ascii := ascii_of_nat 96.

(** The characters of base-64 text. *)
Definition b64_chars : text :=
  str "ABCDEFGHIJKLMNOPQRSTUVWXYZabcdefghijklmnopqrstuvwxyz0123456789+/=".

(** The [img] tag before and after the encoded image. *)
Definition img_prefix : text :=
  str "<img src=" ++ dq ++ str "data:image/png;base64,".

Definition img_suffix (width : Z) : text :=
  dq ++ str " width=" ++ dq ++ int_str width ++ dq
  ++ str " alt=" ++ dq ++ str "Embedded Image" ++ dq ++ str ">".

(** The number of cells in the image columns of a frame. *)
Definition image_cells (df : DataFrame) : nat :=
  list_sum (map (fun c => if is_image_column (fst c) then length (snd c) else 0)
              (columns df)).

(** ** Paths

    [os.path.splitext] and [os.path.basename] as [posixpath] has them:
    the separator is [/] and there is no alternative separator. *)

Definition ch_slash : ascii := ascii_of_nat 47.
Definition ch_dot : ascii := ascii_of_nat 46.

(** [s.rfind(c)] for a character, from position [i] of the subject on:
    the highest index, or -1. *)
Fixpoint rfind_from (c : ascii) (s : text) (i : Z) : Z :=
  match s with
  | [] => (-1)%Z
  | x :: s' =>
      let r := rfind_from c s' (i + 1) in
      if (r =? -1)%Z then (if ascii_eqb x c then i else (-1)%Z) else r
  end.

Definition rfind (c : ascii) (s : text) : Z := rfind_from c s 0.

(** [genericpath._splitext(p, '/', None, '.')]: the extension starts at
    the last dot of the last component, unless only dots come before it
    in that component. *)
Definition splitext (p : text) : text * text :=
  let sepIndex := rfind ch_slash p in
  let dotIndex := rfind ch_dot p in
  if (sepIndex <? dotIndex)%Z
  then
    let filenameIndex := (sepIndex + 1)%Z in
    let before_dot :=
      take (Z.to_nat (dotIndex - filenameIndex)) (drop (Z.to_nat filenameIndex) p) in
    if existsb (fun x => negb (ascii_eqb x ch_dot)) before_dot
    then (take (Z.to_nat dotIndex) p, drop (Z.to_nat dotIndex) p)
    else (p, [])
  else (p, []).

(** [os.path.basename(p)] *)
Definition basename (p : text) : text := drop (Z.to_nat (rfind ch_slash p + 1)) p.

(** Lines 520-522 of [visualize]: the file that is written. *)
Definition output_path (input_file : text) (output_file : option text) : text :=
  match output_file with
  | None => fst (splitext input_file) ++ str ".html"
  | Some o => o
  end.

(** Lines 524-526 of [visualize]: the title of the page. *)
Definition page_title (input_file : text) (title : option text) : text :=
  match title with
  | None => basename (fst (splitext input_file))
  | Some t => t
  end.

(** The three tests that decide what is done to a column: line 161 on
    its cells, line 166 and lines 172-176 on its name. *)
Record roles : Type := {
  structured : bool;
  image : bool;
  textual : bool
}.

Definition column_roles (textual_cols : list text) (col : text) (cells : list value)
  : roles :=
  {| structured := is_structured_column cells;
     image := is_image_column col;
     textual := is_textual col textual_cols |}.

(** A sampler that draws [n] different rows of the [len] there are. *)
Definition draws_rows (sampler : nat -> nat -> list nat) : Prop :=
  forall n len, n <= len ->
    length (sampler n len) = n /\ NoDup (sampler n len)
    /\ Forall (fun i => i < len) (sampler n len).

(** C1 as the specification words it, for the roles: a column of the
    display set passes the three tests that it passes in the full set. *)
Definition same_roles_in_both_sets (sampler : nat -> nat -> list nat) : Prop :=
  forall (original : DataFrame) (sample_size : option Z) (textual_cols : list text)
         (w : world) (display : DataFrame) (col : text) (cells cells' : list value),
    wf_frame original ->
    result (display_frame sampler original sample_size) w = Ok display ->
    (col, cells) ∈ columns display -> (col, cells') ∈ columns original ->
    column_roles textual_cols col cells = column_roles textual_cols col cells'.

(** Two records: each has a dict or a list under one key and a number
    under the other. *)
Definition crossed_frame : DataFrame :=
  {| index := [0; 1];
     columns := [(str "a", [VDict [(str "k", VInt 1)]; VInt 2]);
                 (str "b", [VInt 3; VList [VInt 4]])] |}.

#[global] Instance ascii_eq_dec : EqDecision ascii := Ascii.ascii_dec.





(** The dollars of a text and the stretches between them: [true] for a
    dollar, [false] for a longest stretch of other characters. *)
Definition plain_head (sh : list bool) : list bool :=
  match sh with
  | false :: _ => sh
  | _ => false :: sh
  end.

Fixpoint shape (s : text) : list bool :=
  match s with
  | [] => []
  | c :: s' => if ascii_eqb c ch_dollar then true :: shape s' else plain_head (shape s')
  end.

(** The number of dollars that are left of a shape when two dollars in a
    row have become one, from the left. *)
Fixpoint collapsed_dollars (sh : list bool) : nat :=
  match sh with
  | [] => 0
  | false :: sh' => collapsed_dollars sh'
  | true :: sh' =>
      match sh' with
      | true :: sh'' => S (collapsed_dollars sh'')
      | _ => S (collapsed_dollars sh')
      end
  end.

(** A rule without a dollar and without an empty side. *)
Definition dollar_free (r : text * text) : bool :=
  nonempty (fst r) && nonempty (snd r)
  && negb (has_char ch_dollar (fst r)) && negb (has_char ch_dollar (snd r)).

(** What the two replacements of line 162 make of one character of the
    JSON text. *)
Definition layout_char (c : ascii) : text :=
  if ascii_eqb c ch_newline then str "<br>"
  else if ascii_eqb c " "%char then str "&nbsp;"
  else [c].

(** * Properties *)

Arguments img_tag : simpl never.
Arguments int_str : simpl never.

(** ** Text equality and membership *)

Lemma ascii_eqb_eq a b : ascii_eqb a b = true <-> a = b.
Proof. apply Ascii.eqb_eq. Qed.

Lemma ascii_eqb_neq a b : ascii_eqb a b = false <-> a <> b.
Proof. apply Ascii.eqb_neq. Qed.

Lemma ascii_eqb_refl a : ascii_eqb a a = true.
Proof. apply Ascii.eqb_refl. Qed.

Lemma text_eqb_eq a b : text_eqb a b = true <-> a = b.
Proof.
  revert b; induction a as [|x a IH]; intros [|y b]; simpl; try easy.
  rewrite andb_true_iff, ascii_eqb_eq, IH. split.
  - intros [-> ->]; reflexivity.
  - intros [= -> ->]; auto.
Qed.

Lemma mem_elem_of x l : mem x l = true <-> x ∈ l.
Proof.
  unfold mem. rewrite existsb_exists. split.
  - intros (y & Hy & Heq). apply text_eqb_eq in Heq. subst.
    by apply list_elem_of_In.
  - intros Hin. exists x. split; [by apply list_elem_of_In | by apply text_eqb_eq].
Qed.

(** ** The monad *)

Lemma mapM_pure {A B} (g : A -> B) (l : list A) w :
  mapM (fun x => ret (g x)) l w = (Ok (map g l), []).
Proof.
  induction l as [|x l IH]; simpl; [reflexivity|].
  unfold bind at 1. simpl. unfold bind at 1. rewrite IH. reflexivity.
Qed.

Lemma apply_where_pure test (g : text -> value -> value) df w :
  apply_where test (fun col x => ret (g col x)) df w =
  (Ok {| index := index df;
         columns := map (fun c => if test (fst c) (snd c)
                                  then (fst c, map (g (fst c)) (snd c)) else c)
                        (columns df) |}, []).
Proof.
  unfold apply_where, bind.
  assert (H : forall cols,
    mapM (fun c => if test (fst c) (snd c)
                   then cells <- mapM (fun x => ret (g (fst c) x)) (snd c) ;;
                        ret (fst c, cells)
                   else ret c) cols w =
    (Ok (map (fun c => if test (fst c) (snd c)
                       then (fst c, map (g (fst c)) (snd c)) else c) cols), [])).
  { induction cols as [|c cols IH]; simpl; [reflexivity|].
    unfold bind at 1. destruct (test (fst c) (snd c)).
    - unfold bind at 1. rewrite mapM_pure. simpl.
      unfold bind at 1. rewrite IH. reflexivity.
    - simpl. unfold bind at 1. rewrite IH. reflexivity. }
  rewrite H. reflexivity.
Qed.

(** ** Image cells *)

Lemma is_url_nonempty s : is_url s = true -> s <> [].
Proof. intros H ->. discriminate H. Qed.

(** C10: a [None], a NaN or an empty string in an image column renders as
    the "No image available" fragment, which is not the "Image not found"
    one; nothing is fetched or opened, and nothing is raised. *)
Theorem image_to_html_no_source (w : world) (width : Z) :
  image_to_html (Cell VNone) width w = (Ok no_image, [])
  /\ image_to_html (Cell VNaN) width w = (Ok no_image, [])
  /\ image_to_html (Cell (VStr [])) width w = (Ok no_image, [])
  /\ no_image <> not_found.
Proof. repeat split; discriminate. Qed.

(** C2 as the specification words it: a failed fetch of an http(s) cell
    ends in a placeholder. *)
Definition fetch_failure_swallowed (w : world) (url : text) (width : Z) : Prop :=
  is_url url = true -> fetch_fails w url ->
  exists frag, result (image_to_html (Cell (VStr url)) width) w = Ok frag
               /\ is_placeholder frag.

(** C2, refuted: without network the cell of a URL raises. *)
Lemma fetch_failure_not_swallowed :
  ~ fetch_failure_swallowed offline (str "http://host/a.png") 320.
Proof.
  intros H. destruct H as (frag & Hres & _); [reflexivity | exact I |].
  discriminate Hres.
Qed.

(** C2, amended: for a cell holding an http(s) URL, an exception of the
    request or a refused status leaves [image_to_html] as that exception;
    an answer with an empty body gives the "Image not found" fragment, and
    any other answer the [img] tag of its bytes. *)
Theorem image_to_html_url (w : world) (url : text) (width : Z) :
  is_url url = true ->
  result (image_to_html (Cell (VStr url)) width) w =
  match http_get w url with
  | GetRaises e => Raise e
  | Response status content =>
      if ((400 <=? status) && (status <? 600))%Z
      then Raise (HTTPError url status)
      else match content with
           | [] => Ok not_found
           | _ :: _ => Ok (img_tag (b64encode content) width)
           end
  end.
Proof.
  intros Hurl. unfold result, image_to_html.
  destruct url as [|c url]; [discriminate Hurl|].
  cbn [no_image_source]. unfold image_to_base64, bind. rewrite Hurl.
  unfold fetch. destruct (http_get w (c :: url)) as [e|status content]; [reflexivity|].
  destruct ((400 <=? status) && (status <? 600))%Z; [reflexivity|].
  destruct content as [|b content]; [reflexivity|].
  destruct content as [|b2 [|b3 content]]; reflexivity.
Qed.

Lemma image_to_html_url_witness :
  result (image_to_html (Cell (VStr (str "https://host/a.png"))) 320) all_404
  = Raise (HTTPError (str "https://host/a.png") 404).
Proof. apply (image_to_html_url all_404 (str "https://host/a.png") 320). reflexivity. Defined.

(** ** Textual columns *)

Lemma textual_pass_columns hints df w :
  textual_pass hints df w =
  (Ok {| index := index df;
         columns := map (fun c => if is_textual (fst c) hints
                                  then (fst c, map textual_cell (snd c)) else c)
                        (columns df) |}, []).
Proof.
  unfold textual_pass.
  apply (apply_where_pure (fun col _ => is_textual col hints)
           (fun _ x => textual_cell x)).
Qed.

(** C3, refuted: the hint [Notes] does not make the column [notes]
    textual, and its cell keeps the line break. *)
Lemma hint_up_to_case_insufficient :
  ~ hint_up_to_case_suffices (str "notes") [str "Notes"].
Proof.
  intros H.
  assert (Hn : normalised_by_textual_pass (str "notes") [str "Notes"]).
  { apply H. exists (str "Notes"). split; [apply list_elem_of_here | reflexivity]. }
  destruct (Hn notes_frame _ offline (list_elem_of_here _ _)) as (df' & Hres & Hin).
  unfold result in Hres. rewrite textual_pass_columns in Hres.
  injection Hres as <-. vm_compute in Hin.
  apply list_elem_of_In in Hin. destruct Hin as [Hin|[]]. discriminate Hin.
Qed.

(** C3, amended: a column whose name is in the hint list, or whose
    lower-cased name is in the hint list as given, is textual, and the
    textual pass rewrites each of its cells with the textual normaliser. *)
Theorem hinted_column_is_textual (col : text) (hints : list text) :
  col ∈ hints \/ lower col ∈ hints ->
  is_textual col hints = true /\ normalised_by_textual_pass col hints.
Proof.
  intros Hhint.
  assert (Htext : is_textual col hints = true).
  { unfold is_textual. destruct Hhint as [H|H]; apply mem_elem_of in H; rewrite H.
    - reflexivity.
    - rewrite orb_true_r. reflexivity. }
  split; [exact Htext|].
  intros df cells w Hin. eexists. split.
  - unfold result. rewrite textual_pass_columns. reflexivity.
  - simpl. apply list_elem_of_In, in_map_iff.
    exists (col, cells). simpl. rewrite Htext.
    split; [reflexivity | by apply list_elem_of_In].
Qed.

Lemma hinted_column_is_textual_witness :
  is_textual (str "Notes") [str "notes"] = true
  /\ normalised_by_textual_pass (str "Notes") [str "notes"].
Proof.
  apply (hinted_column_is_textual (str "Notes") [str "notes"]).
  right. vm_compute. apply list_elem_of_here.
Defined.

(** ** Fenced blocks *)

Lemma contains_first_line_nonempty t :
  contains (str "```") (first_line t) = true -> nonempty t = true.
Proof. destruct t; [discriminate | reflexivity]. Qed.

Lemma filter_nonempty_all_empty (l : list text) :
  Forall (eq []) l -> filter (fun m => nonempty m = true) l = [].
Proof.
  induction 1 as [|x l <- _ IH]; [reflexivity|].
  rewrite filter_cons_False; [exact IH | discriminate].
Qed.

(** C9: when the first line of the text has a fence, the text becomes
    the inner content (group 2) of the first match of the fenced-block
    pattern whose inner content is not empty, and stays as it is when no
    match has one; the rest of the normaliser works on that text. *)
Theorem extract_fenced_first_nonempty (t : text) :
  contains (str "```") (first_line t) = true ->
  let inner := map (group 2) (findall fence_re t) in
  (forall l1 e l2, inner = l1 ++ e :: l2 -> Forall (eq []) l1 -> e <> [] ->
                   extract_fenced false t = e)
  /\ (Forall (eq []) inner -> extract_fenced false t = t)
  /\ process_textual_content (VStr t) false = markup (extract_fenced false t).
Proof.
  intros Hfence inner.
  assert (Hx : extract_fenced false t =
               match filter (fun m => nonempty m = true) inner with
               | [] => t | e :: _ => e end).
  { unfold extract_fenced. rewrite Hfence, (contains_first_line_nonempty t Hfence).
    simpl. subst inner. destruct (findall fence_re t); reflexivity. }
  split; [|split].
  - intros l1 e l2 Hinner Hl1 He. rewrite Hx, Hinner, filter_app.
    rewrite (filter_nonempty_all_empty l1 Hl1). simpl.
    rewrite filter_cons_True; [reflexivity|]. destruct e; [done | reflexivity].
  - intros Hall. rewrite Hx, (filter_nonempty_all_empty inner Hall). reflexivity.
  - reflexivity.
Qed.

Lemma extract_fenced_first_nonempty_witness :
  extract_fenced false
    (str "`````` ```markdown" ++ [ch_newline] ++ str "# Title" ++ [ch_newline] ++ str "```")
  = str "# Title".
Proof.
  apply (proj1 (extract_fenced_first_nonempty
    (str "`````` ```markdown" ++ [ch_newline] ++ str "# Title" ++ [ch_newline] ++ str "```")
    eq_refl) [[]] (str "# Title") []).
  - vm_compute. reflexivity.
  - repeat constructor.
  - discriminate.
Defined.

(** ** Resampling in the page *)

Lemma insert_swap_one (l : list nat) j x y :
  l !! j = Some y -> y :: <[j:=x]> l ≡ₚ x :: l.
Proof.
  revert j; induction l as [|z l IH]; intros [|j] H; simpl in *; try discriminate.
  - injection H as ->. constructor.
  - rewrite (Permutation_swap z y), (Permutation_swap z x).
    constructor. by apply IH.
Qed.

Lemma swap_perm (a : list nat) i j : swap a i j ≡ₚ a.
Proof.
  unfold swap. destruct (a !! j) as [aj|] eqn:Hj; [|reflexivity].
  destruct (a !! i) as [ai|] eqn:Hi; [|reflexivity].
  revert i j Hi Hj; induction a as [|z a IH]; intros [|i] [|j] Hi Hj;
    simpl in *; try discriminate.
  - injection Hi as ->. injection Hj as ->. reflexivity.
  - injection Hi as ->. by apply insert_swap_one.
  - injection Hj as ->. symmetry. rewrite <- (insert_swap_one a i aj ai Hi) at 1.
    reflexivity.
  - constructor. by apply IH.
Qed.

Lemma shuffle_from_perm draw i (a : list nat) : shuffle_from draw i a ≡ₚ a.
Proof.
  revert a; induction i as [|i IH]; intros a; simpl; [reflexivity|].
  rewrite IH. apply swap_perm.
Qed.

Lemma shuffled_indices_perm draw n : shuffled_indices draw n ≡ₚ seq 0 n.
Proof. apply shuffle_from_perm. Qed.

(** With [j <= i] below the length, the swap reads two positions that
    exist: the fallback of [swap] is not taken. *)
Lemma swap_in_range (a : list nat) i j :
  j <= i -> i < length a ->
  exists ai aj, a !! i = Some ai /\ a !! j = Some aj
                /\ swap a i j = <[j:=ai]> (<[i:=aj]> a).
Proof.
  intros Hji Hi.
  destruct (lookup_lt_is_Some_2 a i Hi) as [ai Hai].
  destruct (lookup_lt_is_Some_2 a j ltac:(lia)) as [aj Haj].
  exists ai, aj. unfold swap. rewrite Hai, Haj. auto.
Qed.

Lemma lookup_all_positions {A} (data : list A) :
  map (fun i => data !! i) (seq 0 (length data)) = map Some data.
Proof.
  induction data as [|x data IH]; [reflexivity|].
  simpl. f_equal. rewrite <- seq_shift, map_map. exact IH.
Qed.

(** C8: a resample of size [k] equal to the number of rows of the full
    data fills the table with the rows at a permutation of all positions,
    so with every row once, and sets the badge to [k rows]. *)
Theorem resample_all_rows {Row : Type} (draw : nat -> nat)
  (data : list Row) (p : page) :
  (forall i, draw i <= i) ->
  0 < length data ->
  let k := Z.of_nat (length data) in
  let p' := resampleData draw data (Some k) p in
  exists perm,
    perm ≡ₚ seq 0 (length data)
    /\ table_rows p' = map (fun i => data !! i) perm
    /\ table_rows p' ≡ₚ map Some data
    /\ badge p' = int_str k ++ str " rows".
Proof.
  intros _ Hpos k p'. exists (shuffled_indices draw (length data)).
  assert (Hp := shuffled_indices_perm draw (length data)).
  assert (Hrows : table_rows p' =
                  map (fun i => data !! i) (shuffled_indices draw (length data))).
  { subst p' k. unfold resampleData.
    replace ((0 <? Z.of_nat (length data)) && (Z.of_nat (length data) <=? Z.of_nat (length data)))%Z
      with true by (symmetry; apply andb_true_iff; split; [apply Z.ltb_lt | apply Z.leb_le]; lia).
    simpl. rewrite Nat2Z.id, firstn_all2; [reflexivity|].
    rewrite (Permutation_length Hp), length_seq. lia. }
  split; [exact Hp|]. split; [exact Hrows|]. split.
  - rewrite Hrows, <- lookup_all_positions. by apply Permutation_map.
  - subst p' k. unfold resampleData.
    replace ((0 <? Z.of_nat (length data)) && (Z.of_nat (length data) <=? Z.of_nat (length data)))%Z
      with true by (symmetry; apply andb_true_iff; split; [apply Z.ltb_lt | apply Z.leb_le]; lia).
    reflexivity.
Qed.

Lemma resample_all_rows_witness :
  let p' := resampleData (fun i => i / 2) [10; 20; 30; 40] (Some 4%Z)
              {| table_rows := [Some 20]; badge := str "1 rows" |} in
  exists perm,
    perm ≡ₚ seq 0 4
    /\ table_rows p' = map (fun i => [10; 20; 30; 40] !! i) perm
    /\ table_rows p' ≡ₚ map Some [10; 20; 30; 40]
    /\ badge p' = int_str 4 ++ str " rows".
Proof.
  apply (resample_all_rows (fun i => i / 2) [10; 20; 30; 40]
           {| table_rows := [Some 20]; badge := str "1 rows" |}).
  - intros i. apply Nat.Div0.div_le_upper_bound. lia.
  - simpl. lia.
Defined.

(** ** The cell passes, cell by cell *)

Lemma bind_ret_l {A B} (a : A) (f : A -> io B) w : bind (ret a) f w = f a w.
Proof. unfold bind, ret. destruct (f a w). reflexivity. Qed.

Lemma bind_ret_r {A} (m : io A) w : bind m ret w = m w.
Proof.
  unfold bind, ret. destruct (m w) as [[a|e] log]; [|reflexivity].
  by rewrite app_nil_r.
Qed.

Lemma bind_assoc {A B C} (m : io A) (f : A -> io B) (g : B -> io C) w :
  bind (bind m f) g w = bind m (fun a => bind (f a) g) w.
Proof.
  unfold bind. destruct (m w) as [[a|e] log]; [|reflexivity].
  destruct (f a w) as [[b|e] log']; [|reflexivity].
  destruct (g b w) as [r log'']. by rewrite app_assoc.
Qed.

Lemma bind_ext {A B} (m m' : io A) (f f' : A -> io B) w :
  m w = m' w -> (forall a, f a w = f' a w) -> bind m f w = bind m' f' w.
Proof.
  intros Hm Hf. unfold bind. rewrite Hm.
  destruct (m' w) as [[a|e] log]; [|reflexivity]. by rewrite Hf.
Qed.

Lemma bind_pure {A B} (m : io A) (a : A) (f : A -> io B) w :
  m w = (Ok a, []) -> bind m f w = f a w.
Proof. intros H. unfold bind. rewrite H. destruct (f a w). reflexivity. Qed.

Lemma mapM_ext {A B} (f g : A -> io B) l w :
  (forall x, f x w = g x w) -> mapM f l w = mapM g l w.
Proof.
  intros H. induction l as [|x l IH]; simpl; [reflexivity|].
  apply bind_ext; [apply H|]. intros y. apply bind_ext; [exact IH | reflexivity].
Qed.

Lemma mapM_map {A B C} (f : B -> io C) (g : A -> B) l w :
  mapM f (map g l) w = mapM (fun x => f (g x)) l w.
Proof.
  induction l as [|x l IH]; simpl; [reflexivity|].
  apply bind_ext; [reflexivity|]. intros y. apply bind_ext; [exact IH | reflexivity].
Qed.

Lemma mapM_then_pure {A B C} (f : A -> io B) (g : B -> C) l w :
  mapM (fun x => y <- f x ;; ret (g y)) l w =
  bind (mapM f l) (fun ys => ret (map g ys)) w.
Proof.
  induction l as [|x l IH]; simpl.
  - by rewrite bind_ret_l.
  - rewrite !bind_assoc. apply bind_ext; [reflexivity|]. intros y.
    rewrite bind_ret_l, bind_assoc.
    erewrite bind_ext; [|exact IH | reflexivity].
    rewrite bind_assoc. apply bind_ext; [reflexivity|]. intros ys.
    by rewrite !bind_ret_l.
Qed.

Lemma apply_where_ext test test' f g df w :
  (forall col cells, test col cells = test' col cells) ->
  (forall col x, f col x w = g col x w) ->
  apply_where test f df w = apply_where test' g df w.
Proof.
  intros Ht Hf. unfold apply_where.
  apply bind_ext; [|reflexivity]. apply mapM_ext. intros c.
  rewrite Ht. destruct (test' (fst c) (snd c)); [|reflexivity].
  apply bind_ext; [|reflexivity]. apply mapM_ext. intros x. apply Hf.
Qed.

Lemma format_structured_idle cells :
  existsb is_container cells = false -> map format_structured cells = cells.
Proof.
  induction cells as [|x cells IH]; simpl; [reflexivity|].
  intros H. apply orb_false_iff in H as [Hx H].
  unfold format_structured at 1. rewrite Hx, IH; auto.
Qed.

(** A pass over the columns that pass a test on the name is the pass
    over all columns of the rule that tests the name. *)
Lemma apply_where_name test f df w :
  apply_where (fun col _ => test col) f df w =
  apply_all (fun col x => if test col then f col x else ret x) df w.
Proof.
  unfold apply_all, apply_where.
  apply bind_ext; [|reflexivity]. apply mapM_ext. intros [col cells]. simpl.
  destruct (test col); [reflexivity|].
  rewrite (bind_pure _ _ _ _ (mapM_pure id cells w)), map_id. reflexivity.
Qed.

Lemma structured_pass_all df w :
  structured_pass df w = apply_all (fun _ x => ret (format_structured x)) df w.
Proof.
  unfold structured_pass, apply_all. rewrite !apply_where_pure. do 3 f_equal.
  apply map_ext. intros [col cells]. simpl.
  unfold is_structured_column.
  destruct (existsb is_container cells) eqn:E; [reflexivity|].
  by rewrite format_structured_idle.
Qed.

Lemma apply_all_pure (g : text -> value -> value) df w :
  apply_all (fun col x => ret (g col x)) df w = ret (map_cells g df) w.
Proof. unfold apply_all. by rewrite apply_where_pure. Qed.

(** A pure pass followed by a pass is one pass. *)
Lemma apply_all_pure_then (g : text -> value -> value) f df w :
  bind (apply_all (fun col x => ret (g col x)) df) (apply_all f) w =
  apply_all (fun col x => f col (g col x)) df w.
Proof.
  unfold apply_all at 1.
  rewrite (bind_pure _ _ _ _ (apply_where_pure _ g df w)).
  unfold apply_all, apply_where. simpl.
  apply bind_ext; [|reflexivity]. rewrite mapM_map. apply mapM_ext.
  intros c. simpl. apply bind_ext; [|reflexivity]. apply mapM_map.
Qed.

(** A pass followed by a pure pass is one pass. *)
Lemma apply_all_then_pure f (g : text -> value -> value) df w :
  bind (apply_all f df) (apply_all (fun col x => ret (g col x))) w =
  apply_all (fun col x => y <- f col x ;; ret (g col y)) df w.
Proof.
  transitivity (bind (apply_all f df) (fun df1 => ret (map_cells g df1)) w).
  { apply bind_ext; [reflexivity|]. intros df1. apply apply_all_pure. }
  unfold apply_all, apply_where. simpl. rewrite bind_assoc. symmetry.
  transitivity
    (bind (bind (mapM (fun c => cells <- mapM (f (fst c)) (snd c) ;; ret (fst c, cells))
                      (columns df))
                (fun cs => ret (map (fun c => (fst c, map (g (fst c)) (snd c))) cs)))
          (fun cols => ret {| index := index df; columns := cols |}) w).
  { apply bind_ext; [|reflexivity]. rewrite <- mapM_then_pure. apply mapM_ext.
    intros c.
    transitivity
      (bind (bind (mapM (f (fst c)) (snd c)) (fun ys => ret (map (g (fst c)) ys)))
            (fun cells => ret (fst c, cells)) w).
    { apply bind_ext; [apply mapM_then_pure | reflexivity]. }
    rewrite !bind_assoc. apply bind_ext; [reflexivity|]. intros ys.
    by rewrite !bind_ret_l. }
  rewrite bind_assoc. apply bind_ext; [reflexivity|]. intros cs.
  by rewrite !bind_ret_l.
Qed.

(** The three passes are one pass of [cell_rule]. *)
Lemma cell_passes_by_rule textual_cols df w :
  cell_passes textual_cols df w = apply_all (cell_rule textual_cols) df w.
Proof.
  unfold cell_passes.
  transitivity (bind (apply_all (fun _ x => ret (format_structured x)) df)
    (apply_all (fun col x =>
       y <- (if is_image_column col
             then h <- image_to_html (Cell x) default_width ;; ret (VStr h)
             else ret x) ;;
       ret (if is_textual col textual_cols then textual_cell y else y))) w).
  { apply bind_ext; [apply structured_pass_all|]. intros df1.
    rewrite <- (apply_all_then_pure
      (fun col x => if is_image_column col
                    then h <- image_to_html (Cell x) default_width ;; ret (VStr h)
                    else ret x)
      (fun col y => if is_textual col textual_cols then textual_cell y else y)).
    apply bind_ext.
    - unfold image_pass. apply apply_where_name.
    - intros df2. unfold textual_pass. rewrite apply_where_name.
      apply apply_where_ext; [reflexivity|].
      intros col x. destruct (is_textual col textual_cols); reflexivity. }
  rewrite (apply_all_pure_then (fun _ x => format_structured x)).
  apply apply_where_ext; [reflexivity|].
  intros col x. unfold cell_rule. destruct (is_image_column col); reflexivity.
Qed.

(** ** Results of a pass *)

Lemma result_bind {A B} (m : io A) (f : A -> io B) w :
  result (bind m f) w =
  match result m w with
  | Ok a => result (f a) w
  | Raise e => Raise e
  end.
Proof.
  unfold result, bind. destruct (m w) as [[a|e] log]; [|reflexivity].
  simpl. destruct (f a w). reflexivity.
Qed.

Lemma mapM_result {A B} (f : A -> io B) l w l' :
  result (mapM f l) w = Ok l' <->
  Forall2 (fun x y => result (f x) w = Ok y) l l'.
Proof.
  revert l'; induction l as [|x l IH]; intros l'; simpl.
  - split; [intros [= <-]; constructor | by inversion 1].
  - rewrite result_bind. split.
    + destruct (result (f x) w) as [y|e] eqn:Hx; [|discriminate].
      rewrite result_bind.
      destruct (result (mapM f l) w) as [ys|e] eqn:Hl; [|discriminate].
      intros [= <-]. constructor; [exact Hx | by apply IH].
    + inversion 1 as [|? y ? ys Hx Hl]; subst. rewrite Hx, result_bind.
      apply IH in Hl. rewrite Hl. reflexivity.
Qed.

Lemma apply_all_result r df w df' :
  result (apply_all r df) w = Ok df' <-> rendered_by r w df df'.
Proof.
  unfold apply_all, apply_where, rendered_by. rewrite result_bind. simpl.
  split.
  - destruct (result (mapM _ (columns df)) w) as [cols|e] eqn:Hc; [|discriminate].
    intros [= <-]. simpl. split; [reflexivity|].
    apply mapM_result in Hc. eapply Forall2_impl; [exact Hc|].
    intros c c' H. simpl in H. rewrite result_bind in H.
    destruct (result (mapM (r (fst c)) (snd c)) w) as [cells|e] eqn:Hcells; [|discriminate].
    injection H as <-. simpl. split; [reflexivity | by apply mapM_result].
  - intros [Hi Hc].
    assert (H : result (mapM (fun c => cells <- mapM (r (fst c)) (snd c) ;; ret (fst c, cells))
                         (columns df)) w = Ok (columns df')).
    { apply mapM_result. eapply Forall2_impl; [exact Hc|].
      intros c [n cells] [Hn Hcells]. simpl in *. subst n.
      rewrite result_bind. apply mapM_result in Hcells. rewrite Hcells. reflexivity. }
    rewrite H. destruct df'. simpl in *. by subst.
Qed.

Lemma rendered_by_names r w df df' :
  rendered_by r w df df' -> column_names df' = column_names df.
Proof.
  intros [_ H]. unfold column_names.
  induction H as [|c c' cols cols' [Hn _] _ IH]; simpl; [reflexivity|].
  by rewrite Hn, IH.
Qed.

Lemma rendered_by_wf r w df df' :
  rendered_by r w df df' -> wf_frame df -> wf_frame df'.
Proof.
  intros Hr [Hnd Hlen]. split.
  - by rewrite (rendered_by_names _ _ _ _ Hr).
  - destruct Hr as [Hi Hc]. unfold nrows in *. rewrite Hi.
    induction Hc as [|c c' cols cols' [_ Hcells] _ IH]; [constructor|].
    inversion Hlen; subst. constructor; [|by apply IH].
    by rewrite <- (Forall2_length _ _ _ Hcells).
Qed.

(** ** Selecting rows *)

Lemma Forall2_omap_lookup {A B} (R : A -> B -> Prop) l l' (positions : list nat) :
  Forall2 R l l' ->
  Forall2 R (omap (fun i => l !! i) positions) (omap (fun i => l' !! i) positions).
Proof.
  intros H. induction positions as [|i positions IH]; simpl; [constructor|].
  destruct (proj1 (Forall2_lookup R l l') H i) as [x y Hxy|]; [by constructor | exact IH].
Qed.

Lemma take_rows_names positions df :
  column_names (take_rows positions df) = column_names df.
Proof. unfold column_names, take_rows. simpl. rewrite map_map. reflexivity. Qed.

Lemma rendered_by_take_rows r w df df' positions :
  rendered_by r w df df' ->
  rendered_by r w (take_rows positions df) (take_rows positions df').
Proof.
  intros [Hi Hc]. split; simpl; [by rewrite Hi|].
  induction Hc as [|c c' cols cols' [Hn Hcells] _ IH]; simpl; [constructor|].
  constructor; [|exact IH]. simpl. split; [exact Hn|].
  by apply Forall2_omap_lookup.
Qed.

(** ** Column operations and row selection *)

Lemma filter_map_fst (P : text -> Prop) `{!forall n, Decision (P n)}
  (h : text * list value -> text * list value) (l : list (text * list value)) :
  (forall c, fst (h c) = fst c) ->
  filter (fun c => P (fst c)) (map h l) = map h (filter (fun c => P (fst c)) l).
Proof.
  intros Hh. induction l as [|c l IH]; simpl; [reflexivity|].
  rewrite !filter_cons, Hh, IH. destruct (decide (P (fst c))); reflexivity.
Qed.

Ltac filter_past_map P :=
  match goal with
  | |- context [filter _ (map ?h ?l)] =>
      let H := fresh in
      pose proof (filter_map_fst P h l (fun _ => eq_refl)) as H;
      cbv beta in H; rewrite H; clear H
  end.

Lemma omap_lookup_nil {A} (positions : list nat) :
  omap (fun i => @nil A !! i) positions = [].
Proof. induction positions as [|i positions IH]; simpl; [reflexivity | exact IH]. Qed.

Lemma omap_lookup_nth {A} (d : A) (l : list A) (positions : list nat) :
  omap (fun i => l !! i) positions =
  map (fun i => nth i l d) (filter (fun i => i < length l) positions).
Proof.
  induction positions as [|i positions IH]; simpl; [reflexivity|].
  rewrite filter_cons. destruct (decide (i < length l)) as [Hi|Hi].
  - destruct (lookup_lt_is_Some_2 l i Hi) as [x Hx]. rewrite Hx. simpl.
    f_equal; [|exact IH]. symmetry. by apply nth_lookup_Some.
  - rewrite lookup_ge_None_2 by lia. exact IH.
Qed.

Lemma get_column_take_rows positions df col :
  get_column (take_rows positions df) col =
  omap (fun i => get_column df col !! i) positions.
Proof.
  unfold get_column, take_rows. simpl.
  filter_past_map (fun n => text_eqb n col = true).
  destruct (filter _ (columns df)) as [|c cs]; simpl; [|reflexivity].
  by rewrite omap_lookup_nil.
Qed.

Lemma get_column_length df col :
  wf_frame df -> mem col (column_names df) = true ->
  length (get_column df col) = nrows df.
Proof.
  intros [_ Hlen] Hmem. unfold get_column, column_names in *.
  induction (columns df) as [|c cols IH]; [discriminate|].
  inversion Hlen; subst. rewrite filter_cons.
  destruct (decide (text_eqb (fst c) col = true)) as [E|E]; [assumption|].
  apply IH; [assumption|]. simpl in Hmem. apply orb_true_iff in Hmem as [H|H]; [|exact H].
  apply text_eqb_eq in H. subst col. exfalso. apply E. by apply text_eqb_eq.
Qed.

Lemma map_nth_seq {A B} (G : A -> B) (l : list A) d :
  map (fun k => G (nth k l d)) (seq 0 (length l)) = map G l.
Proof.
  induction l as [|x l IH]; simpl; [reflexivity|].
  f_equal. rewrite <- seq_shift, map_map. exact IH.
Qed.

Lemma nrows_take_rows positions df :
  nrows (take_rows positions df) =
  length (filter (fun i => i < nrows df) positions).
Proof.
  unfold nrows, take_rows. simpl.
  by rewrite (omap_lookup_nth 0 (index df)), length_map.
Qed.

Lemma merged_cells_length df valid : length (merged_cells df valid) = nrows df.
Proof. unfold merged_cells. by rewrite length_map, length_seq. Qed.

Lemma merged_cells_nth df valid i :
  i < nrows df ->
  nth i (merged_cells df valid) VNone =
  VStr (join (str "<br>")
          (map (fun col => py_str (nth i (get_column df col) VNone)) valid)).
Proof.
  intros Hi. unfold merged_cells.
  set (F := fun i => VStr _).
  rewrite (nth_indep _ VNone (F 0)) by (by rewrite length_map, length_seq).
  rewrite (map_nth F), seq_nth by exact Hi. reflexivity.
Qed.

Lemma merged_cells_take_rows positions df valid :
  wf_frame df ->
  Forall (fun col => mem col (column_names df) = true) valid ->
  merged_cells (take_rows positions df) valid =
  omap (fun i => merged_cells df valid !! i) positions.
Proof.
  intros Hwf Hvalid.
  rewrite (omap_lookup_nth VNone), merged_cells_length.
  set (kept := filter (fun i => i < nrows df) positions).
  assert (Hkept : forall i, In i kept -> i < nrows df).
  { intros i Hi. apply list_elem_of_In in Hi.
    by apply list_elem_of_filter in Hi as [Hi _]. }
  transitivity (map (fun i => VStr (join (str "<br>")
     (map (fun col => py_str (nth i (get_column df col) VNone)) valid))) kept).
  2:{ apply map_ext_in. intros i Hi. symmetry. apply merged_cells_nth. auto. }
  unfold merged_cells. rewrite nrows_take_rows. fold kept.
  rewrite <- (map_nth_seq _ kept 0).
  apply map_ext_in. intros k Hk. apply in_seq in Hk. do 2 f_equal.
  apply map_ext_in. intros col Hcol. f_equal.
  rewrite get_column_take_rows, (omap_lookup_nth VNone).
  rewrite get_column_length; [|exact Hwf|].
  2:{ rewrite Forall_forall in Hvalid. apply Hvalid. by apply list_elem_of_In. }
  fold kept.
  rewrite (nth_indep _ VNone (nth 0 (get_column df col) VNone))
    by (rewrite length_map; lia).
  by rewrite (map_nth (fun i => nth i (get_column df col) VNone)).
Qed.

Lemma set_column_take_rows positions df col cells :
  take_rows positions (set_column df col cells) =
  set_column (take_rows positions df) col (omap (fun i => cells !! i) positions).
Proof.
  unfold set_column. rewrite take_rows_names.
  unfold take_rows at 1 2. simpl. f_equal.
  destruct (mem col (column_names df)).
  - rewrite !map_map. apply map_ext. intros c. simpl.
    destruct (text_eqb (fst c) col); reflexivity.
  - by rewrite map_app.
Qed.

Lemma drop_columns_take_rows positions df labels :
  take_rows positions (drop_columns df labels) =
  drop_columns (take_rows positions df) labels.
Proof.
  unfold drop_columns, take_rows. simpl. f_equal.
  by filter_past_map (fun n => mem n labels = false).
Qed.

Lemma select_columns_take_rows positions df labels :
  take_rows positions (select_columns df labels) =
  select_columns (take_rows positions df) labels.
Proof.
  unfold select_columns, take_rows. simpl. f_equal.
  induction labels as [|l labels IH]; simpl; [reflexivity|].
  rewrite map_app, IH. f_equal.
  by filter_past_map (fun n => text_eqb n l = true).
Qed.

Lemma valid_merge_cols_mem df merge_cols :
  Forall (fun col => mem col (column_names df) = true)
         (valid_merge_cols df merge_cols).
Proof.
  apply Forall_forall. intros col H.
  by apply list_elem_of_filter in H as [H _].
Qed.

Lemma merge_pass_take_rows positions df merge_cols :
  wf_frame df ->
  merge_pass merge_cols (take_rows positions df) =
  take_rows positions (merge_pass merge_cols df).
Proof.
  intros Hwf. unfold merge_pass.
  destruct merge_cols as [[|a [|b l]]|]; try reflexivity.
  unfold valid_merge_cols. rewrite take_rows_names.
  fold (valid_merge_cols df (a :: b :: l)).
  destruct (1 <? length (valid_merge_cols df (a :: b :: l))); [|reflexivity].
  rewrite select_columns_take_rows. f_equal.
  - rewrite drop_columns_take_rows, set_column_take_rows.
    by rewrite merged_cells_take_rows by (auto using valid_merge_cols_mem).
  - f_equal. f_equal.
    rewrite merged_cells_take_rows by (auto using valid_merge_cols_mem).
    by rewrite <- set_column_take_rows, <- drop_columns_take_rows, take_rows_names.
Qed.

Lemma drop_pass_take_rows positions df drop_cols :
  drop_pass drop_cols (take_rows positions df) =
  take_rows positions (drop_pass drop_cols df).
Proof.
  unfold drop_pass. destruct drop_cols as [|a l]; [reflexivity|].
  by rewrite take_rows_names, drop_columns_take_rows.
Qed.

(** ** The column transformer *)

Lemma process_dataframe_eq df textual_cols merge_cols drop_cols w :
  process_dataframe df textual_cols merge_cols drop_cols w =
  bind (cell_passes (default default_textual_cols textual_cols) df)
       (fun df3 => ret (drop_pass (default [] drop_cols) (merge_pass merge_cols df3))) w.
Proof.
  unfold process_dataframe, cell_passes. rewrite bind_assoc.
  apply bind_ext; [reflexivity|]. intros df1. by rewrite bind_assoc.
Qed.

Lemma process_dataframe_result df textual_cols merge_cols drop_cols w out :
  result (process_dataframe df textual_cols merge_cols drop_cols) w = Ok out <->
  exists df3,
    rendered_by (cell_rule (default default_textual_cols textual_cols)) w df df3
    /\ out = drop_pass (default [] drop_cols) (merge_pass merge_cols df3).
Proof.
  set (tc := default default_textual_cols textual_cols).
  set (K := fun df3 => ret (drop_pass (default [] drop_cols) (merge_pass merge_cols df3))).
  assert (E : result (process_dataframe df textual_cols merge_cols drop_cols) w =
              result (bind (apply_all (cell_rule tc) df) K) w).
  { unfold result. rewrite process_dataframe_eq. f_equal.
    apply bind_ext; [apply cell_passes_by_rule | reflexivity]. }
  rewrite E, result_bind.
  destruct (result (apply_all (cell_rule tc) df) w) as [df3|e] eqn:H.
  - split.
    + intros [= <-]. exists df3. split; [by apply apply_all_result | reflexivity].
    + intros (d & Hd & ->). apply apply_all_result in Hd.
      rewrite H in Hd. by injection Hd as ->.
  - split; [discriminate|]. intros (d & Hd & _).
    apply apply_all_result in Hd. rewrite H in Hd. discriminate.
Qed.

Lemma merge_pass_index merge_cols df : index (merge_pass merge_cols df) = index df.
Proof.
  unfold merge_pass. destruct merge_cols as [[|a [|b l]]|]; try reflexivity.
  destruct (1 <? _); reflexivity.
Qed.

Lemma drop_pass_index drop_cols df : index (drop_pass drop_cols df) = index df.
Proof. unfold drop_pass. destruct drop_cols; reflexivity. Qed.

(** The transformer commutes with the selection of rows. *)
Lemma process_dataframe_take_rows df textual_cols merge_cols drop_cols w df' positions :
  wf_frame df ->
  result (process_dataframe df textual_cols merge_cols drop_cols) w = Ok df' ->
  result (process_dataframe (take_rows positions df) textual_cols merge_cols drop_cols) w
  = Ok (take_rows positions df').
Proof.
  intros Hwf H. apply process_dataframe_result in H as (df3 & Hr & ->).
  apply process_dataframe_result. exists (take_rows positions df3). split.
  - by apply rendered_by_take_rows.
  - rewrite merge_pass_take_rows by eauto using rendered_by_wf.
    by rewrite drop_pass_take_rows.
Qed.

Lemma Forall2_total {A B} (R : A -> B -> Prop) :
  (forall x, exists y, R x y) -> forall l, exists l', Forall2 R l l'.
Proof.
  intros H. induction l as [|x l [l' IH]]; [by exists []|].
  destruct (H x) as [y Hy]. exists (y :: l'). by constructor.
Qed.

Lemma image_to_html_reliable w x width :
  reliable w -> exists h, result (image_to_html (Cell x) width) w = Ok h.
Proof.
  intros [Hget Hopen]. destruct x as [| |b|z|r|s|items|items];
    try (by eexists; reflexivity).
  destruct s as [|c s]; [by eexists; reflexivity|].
  unfold image_to_html, image_to_base64. cbn [no_image_source].
  rewrite !result_bind.
  destruct (is_url (c :: s)).
  - destruct (Hget (c :: s)) as (status & content & Hg & Hs).
    unfold result, fetch. simpl. rewrite Hg, Hs. simpl.
    destruct content as [|b [|b2 [|b3 content]]]; simpl; eauto.
  - unfold result, read_or_empty. simpl.
    destruct (open_rb w (c :: s)) as [|e|content] eqn:E.
    + simpl. eauto.
    + by destruct (Hopen (c :: s) e).
    + simpl. destruct content as [|b [|b2 [|b3 content]]]; simpl; eauto.
Qed.

Lemma cell_rule_reliable w textual_cols col x :
  reliable w -> exists y, result (cell_rule textual_cols col x) w = Ok y.
Proof.
  intros Hw. unfold cell_rule. rewrite result_bind.
  destruct (is_image_column col).
  - rewrite result_bind.
    destruct (image_to_html_reliable w (format_structured x) default_width Hw) as [h ->].
    simpl. eauto.
  - simpl. eauto.
Qed.

Lemma process_dataframe_returns df textual_cols merge_cols drop_cols w :
  reliable w ->
  exists df', result (process_dataframe df textual_cols merge_cols drop_cols) w = Ok df'.
Proof.
  intros Hw.
  set (tc := default default_textual_cols textual_cols).
  destruct (Forall2_total
    (fun (c c' : text * list value) =>
       fst c' = fst c
       /\ Forall2 (fun x y => result (cell_rule tc (fst c) x) w = Ok y) (snd c) (snd c'))
    ) with (l := columns df) as [cols Hcols].
  { intros [col cells].
    destruct (Forall2_total (fun x y => result (cell_rule tc col x) w = Ok y)
                (fun x => cell_rule_reliable w tc col x Hw) cells) as [cells' H].
    by exists (col, cells'). }
  eexists. apply process_dataframe_result.
  exists {| index := index df; columns := cols |}. split; [|reflexivity].
  by split.
Qed.

(** ** Merging columns *)


















Lemma example_frame_wf : wf_frame example_frame.
Proof.
  split.
  - unfold column_names. simpl.
    repeat (apply NoDup_cons; split;
            [intros H; repeat (apply elem_of_cons in H as [H|H]; [discriminate H|]);
             by apply elem_of_nil in H|]).
    apply NoDup_nil_2.
  - repeat constructor.
Qed.

Lemma mem_false x l : mem x l = false <-> x ∉ l.
Proof.
  rewrite <- mem_elem_of. destruct (mem x l); split; try done.
Qed.





(** ** Rows through the transformer *)

Lemma serving_reliable : reliable serving.
Proof.
  split.
  - intros url. exists 200%Z, (str "PNG"). split; reflexivity.
  - intros path e. discriminate.
Qed.

(** C7: the transformer keeps the row labels, so the number of rows and
    their order, whatever the hints, the merge list and the drop list; the
    rows of the output at any positions are what the transformer makes of
    the rows of the input at these positions, so row [i] of the output
    comes from row [i] of the input alone.  It returns a frame whenever
    no request and no [open] raises. *)
Theorem process_dataframe_keeps_rows (df : DataFrame)
  (textual_cols merge_cols drop_cols : option (list text)) (w : world) :
  wf_frame df ->
  (forall df',
     result (process_dataframe df textual_cols merge_cols drop_cols) w = Ok df' ->
     index df' = index df
     /\ nrows df' = nrows df
     /\ forall positions,
          result (process_dataframe (take_rows positions df)
                    textual_cols merge_cols drop_cols) w
          = Ok (take_rows positions df'))
  /\ (reliable w ->
      exists df', result (process_dataframe df textual_cols merge_cols drop_cols) w
                  = Ok df').
Proof.
  intros Hwf. split; [|apply process_dataframe_returns].
  intros df' H.
  assert (Hi : index df' = index df).
  { apply process_dataframe_result in H as (df3 & [Hi _] & ->).
    by rewrite drop_pass_index, merge_pass_index. }
  split; [exact Hi|]. split; [unfold nrows; by rewrite Hi|].
  intros positions. by apply process_dataframe_take_rows.
Qed.

Lemma process_dataframe_keeps_rows_witness :
  exists df',
    result (process_dataframe example_frame None
              (Some [str "score"; str "question"]) (Some [str "meta"])) serving = Ok df'
    /\ index df' = [0; 1; 2]
    /\ result (process_dataframe (take_rows [2; 0] example_frame) None
                 (Some [str "score"; str "question"]) (Some [str "meta"])) serving
       = Ok (take_rows [2; 0] df').
Proof.
  destruct (process_dataframe_keeps_rows example_frame None
              (Some [str "score"; str "question"]) (Some [str "meta"]) serving
              example_frame_wf) as [Hrows Hreturns].
  destruct (Hreturns serving_reliable) as [df' Hdf'].
  exists df'. destruct (Hrows df' Hdf') as (Hi & _ & Hsel).
  split; [exact Hdf'|]. split; [exact Hi | apply Hsel].
Defined.

(** ** The display set and the full set *)

Lemma display_frame_result sampler original sample_size w display :
  result (display_frame sampler original sample_size) w = Ok display ->
  display = original
  \/ exists n, display = take_rows (sampler n (nrows original)) original.
Proof.
  unfold display_frame. destruct sample_size as [n|]; [|intros [= <-]; by left].
  destruct (_ && _)%Z; [|intros [= <-]; by left].
  destruct (n <? 0)%Z; [discriminate|]. intros [= <-]. right. eauto.
Qed.

Lemma take_rows_cells positions df col cells :
  (col, cells) ∈ columns (take_rows positions df) ->
  exists cells', (col, cells') ∈ columns df /\ forall x, x ∈ cells -> x ∈ cells'.
Proof.
  unfold take_rows. cbn [columns]. intros H.
  apply list_elem_of_In, in_map_iff in H as ([col' cells'] & [= -> <-] & Hin).
  exists cells'. split; [by apply list_elem_of_In|].
  intros x Hx. apply list_elem_of_omap in Hx as (i & _ & Hi).
  by apply list_elem_of_lookup_2 in Hi.
Qed.

Lemma is_structured_column_mono cells cells' :
  (forall x, x ∈ cells -> x ∈ cells') ->
  is_structured_column cells = true -> is_structured_column cells' = true.
Proof.
  unfold is_structured_column. intros Hsub H.
  apply existsb_exists in H as (x & Hx & Hc). apply existsb_exists. exists x.
  split; [|exact Hc]. apply list_elem_of_In, Hsub. by apply list_elem_of_In.
Qed.

Lemma crossed_frame_wf : wf_frame crossed_frame.
Proof.
  split.
  - unfold column_names. simpl.
    repeat (apply NoDup_cons; split;
            [intros H; repeat (apply elem_of_cons in H as [H|H]; [discriminate H|]);
             by apply elem_of_nil in H|]).
    apply NoDup_nil_2.
  - repeat constructor.
Qed.

(** C1, refuted for the roles: whichever row of [crossed_frame] a sample
    of one row draws, one column is structured in the full set and not
    in the display set, since the test of line 161 looks at the rows at
    hand. *)
Lemma roles_differ_in_a_sample :
  ~ exists sampler, draws_rows sampler /\ same_roles_in_both_sets sampler.
Proof.
  intros (sampler & Hs & H).
  destruct (Hs 1 2 ltac:(lia)) as (Hl & _ & Hf).
  destruct (sampler 1 2) as [|i [|j l]] eqn:E; try discriminate Hl.
  apply Forall_cons in Hf as [Hi _].
  assert (Hd : result (display_frame sampler crossed_frame (Some 1%Z)) offline
               = Ok (take_rows [i] crossed_frame)).
  { change (display_frame sampler crossed_frame (Some 1%Z))
      with (@ret DataFrame (take_rows (sampler 1 2) crossed_frame)).
    by rewrite E. }
  destruct i as [|[|i]]; [| |lia].
  - specialize (H crossed_frame (Some 1%Z) [] offline _ (str "b")
                  [VInt 3] [VInt 3; VList [VInt 4]] crossed_frame_wf Hd).
    discriminate H; [right; left | right; left].
  - specialize (H crossed_frame (Some 1%Z) [] offline _ (str "a")
                  [VInt 2] [VDict [(str "k", VInt 1)]; VInt 2] crossed_frame_wf Hd).
    discriminate H; left.
Qed.

(** C1, amended: the display set is the full set or its rows at the
    sampled positions, with the same column names.  The image and the
    textual test read the name of a column only, so they come out alike
    in both sets; the structured test reads the cells at hand: a column
    that is structured in the display set is structured in the full set,
    not always the other way round.  All the same, in both sets each cell
    is what [cell_rule] makes of it for the name of its column and the
    hints, followed by the same merge and drop, because the formatting
    that the structured test guards changes dict and list cells only; so
    the two sets have the same columns and the display set is the full
    set or its rows at the sampled positions.  Both are produced whenever
    no request and no [open] raises and the sample size is not negative. *)
Theorem display_and_full_rendered_alike (sampler : nat -> nat -> list nat)
  (original : DataFrame) (sample_size : option Z)
  (textual_cols merge_cols drop_cols : option (list text)) (w : world) :
  wf_frame original ->
  (forall df' full',
     result (visualize_frames sampler original sample_size
               textual_cols merge_cols drop_cols) w = Ok (df', full') ->
     exists display d3 f3,
       result (display_frame sampler original sample_size) w = Ok display
       /\ (display = original
           \/ exists n, display = take_rows (sampler n (nrows original)) original)
       /\ column_names display = column_names original
       /\ (forall col cells,
             (col, cells) ∈ columns display ->
             exists cells',
               (col, cells') ∈ columns original
               /\ image (column_roles (default default_textual_cols textual_cols) col cells)
                  = image (column_roles (default default_textual_cols textual_cols)
                             col cells')
               /\ textual (column_roles (default default_textual_cols textual_cols)
                             col cells)
                  = textual (column_roles (default default_textual_cols textual_cols)
                               col cells')
               /\ (structured (column_roles (default default_textual_cols textual_cols)
                                 col cells) = true ->
                   structured (column_roles (default default_textual_cols textual_cols)
                                 col cells') = true))
       /\ rendered_by (cell_rule (default default_textual_cols textual_cols)) w display d3
       /\ rendered_by (cell_rule (default default_textual_cols textual_cols)) w original f3
       /\ df' = drop_pass (default [] drop_cols) (merge_pass merge_cols d3)
       /\ full' = drop_pass (default [] drop_cols) (merge_pass merge_cols f3)
       /\ column_names df' = column_names full'
       /\ (df' = full'
           \/ exists n, df' = take_rows (sampler n (nrows original)) full'))
  /\ (reliable w ->
      match sample_size with Some n => (0 <= n)%Z | None => True end ->
      exists r, result (visualize_frames sampler original sample_size
                          textual_cols merge_cols drop_cols) w = Ok r).
Proof.
  intros Hwf. unfold visualize_frames. split.
  - intros df' full'. rewrite result_bind.
    destruct (result (display_frame sampler original sample_size) w)
      as [display|e] eqn:Hdis; [|discriminate].
    pose proof (display_frame_result _ _ _ _ _ Hdis) as Hdisplay.
    rewrite result_bind.
    destruct (result (process_dataframe display _ _ _) w) as [d|e] eqn:Hd; [|discriminate].
    rewrite result_bind.
    destruct (result (process_dataframe original _ _ _) w) as [f|e] eqn:Hf; [|discriminate].
    intros [= <- <-].
    pose proof Hd as Hd'. pose proof Hf as Hf'.
    apply process_dataframe_result in Hd' as (d3 & Hd3 & Ed).
    apply process_dataframe_result in Hf' as (f3 & Hf3 & Ef).
    exists display, d3, f3.
    split; [reflexivity|]. split; [exact Hdisplay|].
    split; [destruct Hdisplay as [->|[n ->]]; [reflexivity | apply take_rows_names]|].
    split.
    { intros col cells Hin. destruct Hdisplay as [->|[n ->]].
      - exists cells. by repeat split.
      - apply take_rows_cells in Hin as (cells' & Hin' & Hsub).
        exists cells'. split; [exact Hin'|]. split; [reflexivity|].
        split; [reflexivity|]. by apply is_structured_column_mono. }
    repeat (split; [assumption|]).
    destruct Hdisplay as [E|[n E]].
    + rewrite E in Hd. rewrite Hd in Hf. injection Hf as ->. auto.
    + pose proof (process_dataframe_take_rows original textual_cols merge_cols drop_cols
                    w f (sampler n (nrows original)) Hwf Hf) as Hsel.
      rewrite <- E, Hd in Hsel. injection Hsel as ->.
      split; [apply take_rows_names | eauto].
  - intros Hw Hsize. rewrite result_bind.
    assert (Hdis : exists display,
               result (display_frame sampler original sample_size) w = Ok display).
    { unfold display_frame. destruct sample_size as [n|]; [|by eexists].
      destruct (_ && _)%Z; [|by eexists].
      destruct (n <? 0)%Z eqn:En; [apply Z.ltb_lt in En; lia | by eexists]. }
    destruct Hdis as [display ->].
    rewrite result_bind.
    destruct (process_dataframe_returns display textual_cols merge_cols drop_cols w Hw)
      as [d ->].
    rewrite result_bind.
    destruct (process_dataframe_returns original textual_cols merge_cols drop_cols w Hw)
      as [f ->].
    eauto.
Qed.

Lemma display_and_full_rendered_alike_witness :
  exists df' full',
    result (visualize_frames last_rows example_frame (Some 2%Z) None
              (Some [str "score"; str "question"]) None) serving = Ok (df', full')
    /\ column_names df' = column_names full'
    /\ (df' = full' \/ exists n, df' = take_rows (last_rows n 3) full').
Proof.
  destruct (display_and_full_rendered_alike last_rows example_frame (Some 2%Z) None
              (Some [str "score"; str "question"]) None serving example_frame_wf)
    as [Halike Hreturns].
  destruct (Hreturns serving_reliable ltac:(simpl; lia)) as [[df' full'] Hr].
  exists df', full'.
  destruct (Halike df' full' Hr)
    as (_ & _ & _ & _ & _ & _ & _ & _ & _ & _ & _ & Hnames & Hrows).
  split; [exact Hr|]. split; [exact Hnames | exact Hrows].
Defined.

(** The test of line 161 looks at the rows at hand: the column [meta] of
    [example_frame] passes it, the same column of the rows 1 and 2 alone
    does not.  By [format_structured_idle] the cells of those rows come
    out the same either way. *)
Example structured_test_depends_on_rows :
  existsb (fun c => text_eqb (fst c) (str "meta") && is_structured_column (snd c))
    (columns example_frame) = true
  /\ existsb (fun c => text_eqb (fst c) (str "meta") && is_structured_column (snd c))
       (columns (take_rows [1; 2] example_frame)) = false.
Proof. split; vm_compute; reflexivity. Qed.


(** ** Pieces of a text *)

Lemma startswith_prefix s p : startswith s p = true <-> p `prefix_of` s.
Proof.
  revert s; induction p as [|y p IH]; intros s; simpl.
  - split; [intros _; apply prefix_nil | reflexivity].
  - destruct s as [|x s].
    + split; [discriminate | intros H; by apply prefix_nil_not in H].
    + rewrite andb_true_iff, ascii_eqb_eq, IH. split.
      * intros [-> H]. by apply prefix_cons.
      * intros H. split; [symmetry; eapply prefix_cons_inv_1 | eapply prefix_cons_inv_2];
          exact H.
Qed.

Lemma startswith_app p rest : startswith (p ++ rest) p = true.
Proof. apply startswith_prefix. by apply prefix_app_r. Qed.

Lemma occurs_nil s : occurs [] s.
Proof. by exists [], s. Qed.

Lemma occurs_prefix t s : t `prefix_of` s -> occurs t s.
Proof. intros [k ->]. by exists [], k. Qed.

Lemma occurs_cons t c s : occurs t (c :: s) <-> t `prefix_of` (c :: s) \/ occurs t s.
Proof.
  split.
  - intros (a & b & E). destruct a as [|x a].
    + left. exists b. exact E.
    + right. injection E as -> ->. by exists a, b.
  - intros [H|(a & b & ->)]; [by apply occurs_prefix|]. by exists (c :: a), b.
Qed.

Lemma occurs_app_l t a s : occurs t s -> occurs t (a ++ s).
Proof. intros (x & y & ->). exists (a ++ x), y. by rewrite <- app_assoc. Qed.

Lemma occurs_app_r t s b : occurs t s -> occurs t (s ++ b).
Proof. intros (x & y & ->). exists x, (y ++ b). by rewrite <- !app_assoc. Qed.

Lemma occurs_middle t a b : occurs t (a ++ t ++ b).
Proof. by exists a, b. Qed.

Lemma occurs_in_nil t : occurs t [] -> t = [].
Proof.
  intros (a & b & E). symmetry in E.
  apply app_eq_nil in E as [_ E]. by apply app_eq_nil in E as [E _].
Qed.

Lemma contains_occurs t s : contains t s = true <-> occurs t s.
Proof.
  induction s as [|c s IH].
  - simpl. rewrite orb_false_r, startswith_prefix. split.
    + apply occurs_prefix.
    + intros H. apply occurs_in_nil in H as ->. apply prefix_nil.
  - simpl. rewrite orb_true_iff, IH, occurs_cons, startswith_prefix. reflexivity.
Qed.

(** A prefix that lacks [x] stops before the first [x]. *)
Lemma prefix_stops (u a : text) x k :
  u `prefix_of` (a ++ x :: k) -> x ∉ u -> u `prefix_of` a.
Proof.
  revert u; induction a as [|c a IH]; intros u Hu Hx.
  - destruct u as [|y u]; [apply prefix_nil|].
    apply prefix_cons_inv_1 in Hu as ->. exfalso. apply Hx, list_elem_of_here.
  - destruct u as [|y u]; [apply prefix_nil|].
    simpl in Hu. pose proof (prefix_cons_inv_1 _ _ _ _ Hu) as ->.
    apply prefix_cons, IH; [by eapply prefix_cons_inv_2|].
    intros H. apply Hx. by apply elem_of_cons; right.
Qed.

(** An occurrence does not begin in a stretch that lacks its first
    character. *)
Lemma occurs_past (t0 : ascii) tr n r :
  t0 ∉ n -> occurs (t0 :: tr) (n ++ r) -> occurs (t0 :: tr) r.
Proof.
  induction n as [|c n IH]; intros Hn H; [exact H|].
  simpl in H. apply occurs_cons in H as [H|H].
  - apply prefix_cons_inv_1 in H as ->. exfalso. apply Hn, list_elem_of_here.
  - apply IH; [|exact H]. intros Hin. apply Hn. by apply elem_of_cons; right.
Qed.

(** An occurrence does not straddle a character it lacks. *)
Lemma occurs_no_straddle (t x : text) y k :
  y ∉ t -> occurs t (x ++ y :: k) -> occurs t x \/ occurs t k.
Proof.
  intros Hy. induction x as [|c x IH]; intros H.
  - simpl in H. apply occurs_cons in H as [H|H]; [|by right].
    left. destruct t as [|t0 t]; [apply occurs_nil|].
    apply prefix_cons_inv_1 in H as ->. exfalso. apply Hy, list_elem_of_here.
  - simpl in H. apply occurs_cons in H as [H|H].
    + left. apply occurs_prefix.
      by apply (prefix_stops t (c :: x) y k).
    + destruct (IH H) as [H'|H']; [left | by right].
      apply occurs_cons. by right.
Qed.

(** ** [str.replace] *)

Lemma replace_from_skip old new s k :
  replace_from old new s k = replace_from old new (drop k s) 0.
Proof.
  revert k; induction s as [|c s IH]; intros [|k]; try reflexivity.
  simpl. apply IH.
Qed.

Lemma replace_miss o old new c s :
  startswith (c :: s) (o :: old) = false ->
  replace (o :: old) new (c :: s) = c :: replace (o :: old) new s.
Proof. intros H. unfold replace. cbn [replace_from]. by rewrite H. Qed.

Lemma replace_hit o old new rest :
  replace (o :: old) new ((o :: old) ++ rest) = new ++ replace (o :: old) new rest.
Proof.
  unfold replace. change ((o :: old) ++ rest) with (o :: (old ++ rest)).
  cbn [replace_from].
  change (o :: (old ++ rest)) with ((o :: old) ++ rest).
  rewrite startswith_app, replace_from_skip. simpl.
  by rewrite Nat.sub_0_r, drop_app_length.
Qed.

(** Induction along the scan of [replace]. *)
Lemma replace_ind o old new (P : text -> text -> Prop) :
  P [] [] ->
  (forall c s, startswith (c :: s) (o :: old) = false ->
               P s (replace (o :: old) new s) ->
               P (c :: s) (c :: replace (o :: old) new s)) ->
  (forall rest, P rest (replace (o :: old) new rest) ->
                P ((o :: old) ++ rest) (new ++ replace (o :: old) new rest)) ->
  forall s, P s (replace (o :: old) new s).
Proof.
  intros Hnil Hmiss Hhit s.
  remember (length s) as n eqn:Hn. revert s Hn.
  induction n as [n IH] using lt_wf_ind. intros s ->.
  destruct s as [|c s]; [exact Hnil|].
  destruct (startswith (c :: s) (o :: old)) eqn:E.
  - apply startswith_prefix in E as [rest E]. rewrite E, replace_hit.
    apply Hhit. eapply IH; [|reflexivity]. rewrite E, length_app. simpl. lia.
  - rewrite replace_miss by exact E. apply Hmiss; [exact E|].
    eapply IH; [|reflexivity]. simpl. lia.
Qed.

Arguments replace : simpl never.

Lemma startswith_miss_head o old c s :
  c <> o -> startswith (c :: s) (o :: old) = false.
Proof. intros H. simpl. apply ascii_eqb_neq in H. by rewrite H. Qed.

(** A character that the replacement lacks does not appear. *)
Lemma replace_keeps_absent o old new c s :
  c ∉ new -> c ∉ s -> c ∉ replace (o :: old) new s.
Proof.
  intros Hnew. apply (replace_ind o old new (fun s r => c ∉ s -> c ∉ r)).
  - done.
  - intros x s' _ IH Hs. apply not_elem_of_cons in Hs as [Hx Hs].
    apply not_elem_of_cons. auto.
  - intros rest IH Hs. apply not_elem_of_app in Hs as [_ Hs].
    apply not_elem_of_app. auto.
Qed.

(** Replacing a character removes it. *)
Lemma replace_char_gone c new s : c ∉ new -> c ∉ replace [c] new s.
Proof.
  intros Hnew. apply (replace_ind c [] new (fun _ r => c ∉ r)).
  - apply not_elem_of_nil.
  - intros x s' Hmiss IH. apply not_elem_of_cons. split; [|exact IH].
    intros ->. simpl in Hmiss. by rewrite ascii_eqb_refl in Hmiss.
  - intros rest IH. by apply not_elem_of_app.
Qed.

(** A text without the first character of [old] is left as it is. *)
Lemma replace_idle o old new s : o ∉ s -> replace (o :: old) new s = s.
Proof.
  apply (replace_ind o old new (fun s r => o ∉ s -> r = s)).
  - done.
  - intros c s' _ IH Hs. apply not_elem_of_cons in Hs as [_ Hs]. by rewrite IH.
  - intros rest _ Hs. exfalso. apply Hs. apply list_elem_of_here.
Qed.

Lemma replace_nonempty o old new s : new <> [] -> s <> [] -> replace (o :: old) new s <> [].
Proof.
  intros Hnew. apply (replace_ind o old new (fun s r => s <> [] -> r <> [])).
  - done.
  - done.
  - intros rest _ _. destruct new; [done | discriminate].
Qed.

(** What [replace] yields begins like the text, as far as the first
    character of the replacement is not met. *)
Lemma replace_prefix o old n new s u :
  u `prefix_of` replace (o :: old) (n :: new) s -> n ∉ u -> u `prefix_of` s.
Proof.
  revert u. apply (replace_ind o old (n :: new)
    (fun s r => forall u, u `prefix_of` r -> n ∉ u -> u `prefix_of` s)).
  - auto.
  - intros c s' _ IH [|y u] Hu Hn; [apply prefix_nil|].
    pose proof (prefix_cons_inv_1 _ _ _ _ Hu) as ->.
    apply prefix_cons, IH; [by eapply prefix_cons_inv_2|].
    intros H. apply Hn. by apply elem_of_cons; right.
  - intros rest _ [|y u] Hu Hn; [apply prefix_nil|].
    simpl in Hu. apply prefix_cons_inv_1 in Hu as ->.
    exfalso. apply Hn, list_elem_of_here.
Qed.

(** An occurrence of [t] after the scan was one before it, when its
    first character is not in the replacement and the first character of
    the replacement is not in its tail. *)
Lemma replace_reflects o old n new t0 tr s :
  t0 ∉ n :: new -> n ∉ tr ->
  occurs (t0 :: tr) (replace (o :: old) (n :: new) s) -> occurs (t0 :: tr) s.
Proof.
  intros Ht0 Hn. apply (replace_ind o old (n :: new)
    (fun s r => occurs (t0 :: tr) r -> occurs (t0 :: tr) s)).
  - auto.
  - intros c s' _ IH H. apply occurs_cons in H as [H|H].
    + apply occurs_prefix. pose proof (prefix_cons_inv_1 _ _ _ _ H) as ->.
      apply prefix_cons. apply (replace_prefix o old n new); [|exact Hn].
      by eapply prefix_cons_inv_2.
    + apply occurs_cons. right. auto.
  - intros rest IH H. apply occurs_app_l, IH.
    by apply (occurs_past t0 tr (n :: new)).
Qed.

(** No occurrence of [old] is left, under the same conditions on [old]. *)
Lemma replace_gone o old n new s :
  o ∉ n :: new -> n ∉ old ->
  ~ occurs (o :: old) (replace (o :: old) (n :: new) s).
Proof.
  intros Ho Hn. apply (replace_ind o old (n :: new)
    (fun _ r => ~ occurs (o :: old) r)).
  - intros H. by apply occurs_in_nil in H.
  - intros c s' Hmiss IH H. apply occurs_cons in H as [H|H]; [|done].
    pose proof (prefix_cons_inv_1 _ _ _ _ H) as <-.
    apply prefix_cons_inv_2 in H.
    apply (replace_prefix o old n new) in H; [|exact Hn].
    assert (Hp : o :: old `prefix_of` o :: s') by by apply prefix_cons.
    apply startswith_prefix in Hp. congruence.
  - intros rest IH H. apply IH. by apply (occurs_past o old (n :: new)).
Qed.

(** An occurrence of [old] gives an occurrence of [new]. *)
Lemma replace_puts o old new s :
  occurs (o :: old) s -> occurs new (replace (o :: old) new s).
Proof.
  apply (replace_ind o old new (fun s r => occurs (o :: old) s -> occurs new r)).
  - intros H. by apply occurs_in_nil in H.
  - intros c s' Hmiss IH H. apply occurs_cons in H as [H|H].
    + apply startswith_prefix in H. congruence.
    + apply occurs_cons. right. auto.
  - intros rest _ _. apply occurs_prefix. by apply prefix_app_r.
Qed.

(** The scan passes over a stretch without the first character of [old]. *)
Lemma replace_skip o old new a b :
  o ∉ a -> replace (o :: old) new (a ++ b) = a ++ replace (o :: old) new b.
Proof.
  induction a as [|c a IH]; intros Ha; [reflexivity|].
  apply not_elem_of_cons in Ha as [Hc Ha]. simpl.
  rewrite replace_miss by (apply startswith_miss_head; congruence).
  by rewrite IH.
Qed.

(** A piece [t] that no occurrence of [old] can overlap splits the scan:
    the first character of each is not in the tail of the other, and [old]
    does not begin where [t] begins. *)
Lemma replace_around o old new t0 tr a b :
  t0 ∉ old -> o ∉ tr ->
  (forall k, startswith ((t0 :: tr) ++ k) (o :: old) = false) ->
  replace (o :: old) new (a ++ (t0 :: tr) ++ b) =
  replace (o :: old) new a ++ (t0 :: tr) ++ replace (o :: old) new b.
Proof.
  intros Ht0 Ho Hhead.
  apply (replace_ind o old new (fun a r =>
    replace (o :: old) new (a ++ (t0 :: tr) ++ b) =
    r ++ (t0 :: tr) ++ replace (o :: old) new b)).
  - simpl. rewrite replace_miss by apply (Hhead b).
    by rewrite replace_skip.
  - intros c s Hmiss IH.
    change ((c :: s) ++ (t0 :: tr) ++ b) with (c :: (s ++ (t0 :: tr) ++ b)).
    rewrite replace_miss; [by rewrite IH|].
    destruct (startswith (c :: s ++ (t0 :: tr) ++ b) (o :: old)) eqn:E; [|reflexivity].
    apply startswith_prefix in E.
    pose proof (prefix_cons_inv_1 _ _ _ _ E) as <-.
    apply prefix_cons_inv_2 in E.
    apply (prefix_stops old s t0 (tr ++ b)) in E; [|exact Ht0].
    assert (Hp : o :: old `prefix_of` o :: s) by by apply prefix_cons.
    apply startswith_prefix in Hp. congruence.
  - intros rest IH.
    rewrite <- (app_assoc (o :: old) rest), replace_hit, IH.
    by rewrite <- app_assoc.
Qed.

(** Such a piece is still there after the scan. *)
Lemma replace_keeps_piece o old new t0 tr s :
  t0 ∉ old -> o ∉ tr ->
  (forall k, startswith ((t0 :: tr) ++ k) (o :: old) = false) ->
  occurs (t0 :: tr) s -> occurs (t0 :: tr) (replace (o :: old) new s).
Proof.
  intros Ht0 Ho Hhead (a & b & ->).
  rewrite replace_around by assumption. apply occurs_middle.
Qed.

(** ** The math pattern *)

Lemma math_span_Some s x rest :
  math_span s = Some (x, rest) ->
  s = x ++ ch_dollar :: rest /\ (ch_dollar ∉ x) /\ (ch_newline ∉ x).
Proof.
  revert x; induction s as [|c s IH]; intros x; simpl; [discriminate|].
  destruct (ascii_eqb c ch_dollar) eqn:Ed.
  - intros [= <- <-]. apply ascii_eqb_eq in Ed as ->.
    split; [reflexivity|]. split; apply not_elem_of_nil.
  - destruct (ascii_eqb c ch_newline) eqn:En; [discriminate|].
    destruct (math_span s) as [[x' rest']|]; [|discriminate].
    intros [= <- <-]. destruct (IH x' eq_refl) as (-> & Hd & Hn).
    apply ascii_eqb_neq in Ed, En.
    split; [reflexivity|]. split; apply not_elem_of_cons; split; congruence || auto.
Qed.

Lemma math_span_complete x rest :
  ch_dollar ∉ x -> ch_newline ∉ x ->
  math_span (x ++ ch_dollar :: rest) = Some (x, rest).
Proof.
  induction x as [|c x IH]; intros Hd Hn; simpl.
  - reflexivity.
  - apply not_elem_of_cons in Hd as [Hc Hd]. apply not_elem_of_cons in Hn as [Hc' Hn].
    assert (E : ascii_eqb c ch_dollar = false) by (apply ascii_eqb_neq; congruence).
    assert (E' : ascii_eqb c ch_newline = false) by (apply ascii_eqb_neq; congruence).
    rewrite E, E', IH by assumption. reflexivity.
Qed.

Lemma math_span_None s :
  math_span s = None -> ch_newline ∉ s -> ch_dollar ∉ s.
Proof.
  induction s as [|c s IH]; simpl; intros H Hn; [apply not_elem_of_nil|].
  destruct (ascii_eqb c ch_dollar) eqn:Ed; [discriminate|].
  apply not_elem_of_cons in Hn as [Hc Hn].
  assert (E : ascii_eqb c ch_newline = false) by (apply ascii_eqb_neq; congruence).
  rewrite E in H. destruct (math_span s) as [[x rest]|]; [discriminate|].
  apply ascii_eqb_neq in Ed. apply not_elem_of_cons. split; [congruence | auto].
Qed.

(** The lazy group of the pattern finds the span that [math_span] reads
    off; [p] is what the group has taken so far. *)
Lemma star_lazy_math (p s : text) caps :
  star_lazy
    (fun caps' s' =>
       rmatch (RChar (CLit ch_dollar)) (fun caps'' s'' => Some (caps'', s''))
         ((1, take (length (p ++ s) - length s') (p ++ s)) :: caps') s')
    (CDot false) caps s =
  match math_span s with
  | Some (x, rest) => Some ((1, p ++ x) :: caps, rest)
  | None => None
  end.
Proof.
  revert p; induction s as [|c s IH]; intros p; [reflexivity|].
  cbn [star_lazy rmatch math_span cclass_matches].
  destruct (ascii_eqb c ch_dollar) eqn:Ed.
  - do 3 f_equal. rewrite app_nil_r, length_app.
    replace (length p + length (c :: s) - length (c :: s)) with (length p) by lia.
    by rewrite take_app_length.
  - simpl. destruct (ascii_eqb c ch_newline); [reflexivity|]. simpl.
    specialize (IH (p ++ [c])). rewrite <- !app_assoc in IH. simpl in IH.
    rewrite IH. destruct (math_span s) as [[x rest]|]; [|reflexivity].
    by rewrite <- app_assoc.
Qed.

Lemma match_at_math_other c s :
  c <> ch_dollar -> match_at math_re (c :: s) = None.
Proof.
  intros H. apply ascii_eqb_neq in H. unfold match_at, math_re.
  cbn [rmatch cclass_matches]. by rewrite H.
Qed.

Lemma match_at_math_dollar s :
  match_at math_re (ch_dollar :: s) =
  match math_span s with
  | Some (x, rest) => Some ([(1, x)], length (ch_dollar :: s) - length rest)
  | None => None
  end.
Proof.
  unfold match_at, math_re. cbn [rmatch cclass_matches].
  rewrite ascii_eqb_refl.
  pose proof (star_lazy_math [] s []) as H. simpl in H. rewrite H.
  destruct (math_span s) as [[x rest]|]; reflexivity.
Qed.

Lemma scan_from_skip r s k : scan_from r s k = scan_from r (drop k s) 0.
Proof.
  revert k; induction s as [|c s IH]; intros [|k]; try reflexivity.
  simpl. apply IH.
Qed.

Lemma sub_math_other c s :
  c <> ch_dollar ->
  sub math_re math_tmpl (c :: s) = c :: sub math_re math_tmpl s.
Proof.
  intros H. unfold sub, scan. cbn [scan_from].
  by rewrite match_at_math_other.
Qed.

Lemma sub_math_alone s :
  math_span s = None ->
  sub math_re math_tmpl (ch_dollar :: s) = ch_dollar :: sub math_re math_tmpl s.
Proof.
  intros H. unfold sub, scan. cbn [scan_from].
  by rewrite match_at_math_dollar, H.
Qed.

Lemma sub_math_span x rest :
  ch_dollar ∉ x -> ch_newline ∉ x ->
  sub math_re math_tmpl (ch_dollar :: x ++ ch_dollar :: rest) =
  str "\( " ++ x ++ str " \)" ++ sub math_re math_tmpl rest.
Proof.
  intros Hd Hn. unfold sub, scan. cbn [scan_from].
  rewrite match_at_math_dollar, math_span_complete by assumption.
  rewrite scan_from_skip.
  replace (length (ch_dollar :: x ++ ch_dollar :: rest) - length rest - 1)
    with (length (x ++ [ch_dollar])) by (simpl; rewrite !length_app; simpl; lia).
  replace (x ++ ch_dollar :: rest) with ((x ++ [ch_dollar]) ++ rest)
    by (by rewrite <- app_assoc).
  rewrite drop_app_length. cbn [flat_map]. unfold math_tmpl, expand. simpl.
  by rewrite <- !app_assoc.
Qed.

(** Induction along the scan of the math substitution. *)
Lemma sub_math_ind (P : text -> text -> Prop) :
  P [] [] ->
  (forall c s, c <> ch_dollar -> P s (sub math_re math_tmpl s) ->
               P (c :: s) (c :: sub math_re math_tmpl s)) ->
  (forall s, math_span s = None -> P s (sub math_re math_tmpl s) ->
             P (ch_dollar :: s) (ch_dollar :: sub math_re math_tmpl s)) ->
  (forall x rest, ch_dollar ∉ x -> ch_newline ∉ x ->
                  P rest (sub math_re math_tmpl rest) ->
                  P (ch_dollar :: x ++ ch_dollar :: rest)
                    (str "\( " ++ x ++ str " \)" ++ sub math_re math_tmpl rest)) ->
  forall s, P s (sub math_re math_tmpl s).
Proof.
  intros Hnil Hother Halone Hspan s.
  remember (length s) as n eqn:Hn. revert s Hn.
  induction n as [n IH] using lt_wf_ind. intros s ->.
  destruct s as [|c s]; [exact Hnil|].
  destruct (ascii_eqb c ch_dollar) eqn:Ed.
  - apply ascii_eqb_eq in Ed as ->.
    destruct (math_span s) as [[x rest]|] eqn:E.
    + apply math_span_Some in E as (-> & Hd & Hnl).
      rewrite sub_math_span by assumption. apply Hspan; [assumption..|].
      eapply IH; [|reflexivity]. simpl. rewrite length_app. simpl. lia.
    + rewrite sub_math_alone by exact E. apply Halone; [exact E|].
      eapply IH; [|reflexivity]. simpl. lia.
  - apply ascii_eqb_neq in Ed. rewrite sub_math_other by exact Ed.
    apply Hother; [exact Ed|]. eapply IH; [|reflexivity]. simpl. lia.
Qed.

Arguments sub : simpl never.

(** Membership of a given character in a given text. *)
Ltac char_in :=
  apply list_elem_of_In; cbv; repeat (first [left; reflexivity | right]).

(** Every character of a given text is in another given text. *)
Ltac chars_in :=
  let c := fresh "c" in
  let Hc := fresh "Hc" in
  intros c Hc; apply list_elem_of_In in Hc; simpl in Hc;
  repeat (destruct Hc as [<-|Hc]; [char_in|]); destruct Hc.

(** The substitution passes over a stretch without a dollar. *)
Lemma sub_math_skip a b :
  ch_dollar ∉ a -> sub math_re math_tmpl (a ++ b) = a ++ sub math_re math_tmpl b.
Proof.
  induction a as [|c a IH]; intros Ha; [reflexivity|].
  apply not_elem_of_cons in Ha as [Hc Ha]. simpl.
  rewrite sub_math_other by congruence. by rewrite IH.
Qed.

Lemma sub_math_idle s : ch_dollar ∉ s -> sub math_re math_tmpl s = s.
Proof.
  intros H. rewrite <- (app_nil_r s) at 1. rewrite sub_math_skip by exact H.
  by rewrite app_nil_r.
Qed.

(** What the substitution yields begins like the text, up to the first
    dollar or backslash. *)
Lemma sub_math_prefix s u :
  u `prefix_of` sub math_re math_tmpl s ->
  ch_backslash ∉ u -> ch_dollar ∉ u -> u `prefix_of` s.
Proof.
  revert u. apply (sub_math_ind (fun s r =>
    forall u, u `prefix_of` r -> ch_backslash ∉ u -> ch_dollar ∉ u -> u `prefix_of` s)).
  - auto.
  - intros c s' _ IH [|y u] Hu Hb Hd; [apply prefix_nil|].
    pose proof (prefix_cons_inv_1 _ _ _ _ Hu) as ->.
    apply not_elem_of_cons in Hb as [_ Hb]. apply not_elem_of_cons in Hd as [_ Hd].
    apply prefix_cons, IH; [by eapply prefix_cons_inv_2 | done | done].
  - intros s' _ _ [|y u] Hu _ Hd; [apply prefix_nil|].
    apply prefix_cons_inv_1 in Hu as ->. exfalso. apply Hd, list_elem_of_here.
  - intros x rest _ _ _ [|y u] Hu Hb _; [apply prefix_nil|].
    apply prefix_cons_inv_1 in Hu as ->. exfalso. apply Hb, list_elem_of_here.
Qed.

(** An occurrence of a piece without math marks after the substitution
    was one before it. *)
Lemma sub_math_reflects t0 tr s :
  (forall c, c ∈ t0 :: tr -> c ∉ math_marks) ->
  occurs (t0 :: tr) (sub math_re math_tmpl s) -> occurs (t0 :: tr) s.
Proof.
  intros Hplain.
  assert (Hno : forall c, c ∈ math_marks -> c ∉ t0 :: tr).
  { intros c Hc Hin. by apply (Hplain c). }
  assert (Hb : ch_backslash ∉ tr).
  { intros H. apply (Hno ch_backslash); [char_in | by apply elem_of_cons; right]. }
  assert (Hd : ch_dollar ∉ tr).
  { intros H. apply (Hno ch_dollar); [char_in | by apply elem_of_cons; right]. }
  assert (Ht0 : forall n : text, (forall c : ascii, c ∈ n -> c ∈ math_marks) -> t0 ∉ n).
  { intros n Hn Hin. apply (Hplain t0); [apply list_elem_of_here | by apply Hn]. }
  apply (sub_math_ind (fun s r => occurs (t0 :: tr) r -> occurs (t0 :: tr) s)).
  - auto.
  - intros c s' _ IH H. apply occurs_cons in H as [H|H].
    + apply occurs_prefix. pose proof (prefix_cons_inv_1 _ _ _ _ H) as ->.
      apply prefix_cons, sub_math_prefix; [by eapply prefix_cons_inv_2 | done | done].
    + apply occurs_cons. right. auto.
  - intros s' _ IH H. apply occurs_cons in H as [H|H].
    + apply prefix_cons_inv_1 in H. exfalso.
      apply (Hplain t0); [apply list_elem_of_here|]. rewrite H. char_in.
    + apply occurs_cons. right. auto.
  - intros x rest _ _ IH H.
    apply (occurs_past t0 tr (str "\( ")) in H.
    2:{ apply Ht0. chars_in. }
    apply (occurs_no_straddle (t0 :: tr) x " "%char) in H.
    2:{ apply Hno. char_in. }
    apply occurs_cons. right. destruct H as [H|H].
    + by apply occurs_app_r.
    + apply (occurs_app_l _ (x ++ [ch_dollar])) in IH.
      * by rewrite <- app_assoc in IH.
      * apply (occurs_past t0 tr (str "\)")); [|exact H].
        apply Ht0. chars_in.
Qed.

(** A piece without a dollar is still there after the substitution. *)
Lemma sub_math_keeps_piece u s :
  ch_dollar ∉ u -> occurs u s -> occurs u (sub math_re math_tmpl s).
Proof.
  intros Hu. apply (sub_math_ind (fun s r => occurs u s -> occurs u r)).
  - auto.
  - intros c s' Hc IH H. apply occurs_cons in H as [[k E]|H].
    + destruct u as [|y u]; [apply occurs_nil|]. injection E as <- ->.
      apply not_elem_of_cons in Hu as [_ Hu]. rewrite sub_math_skip by exact Hu.
      apply occurs_prefix. by exists (sub math_re math_tmpl k).
    + apply occurs_cons. right. auto.
  - intros s' _ IH H. apply occurs_cons in H as [H|H].
    + destruct u as [|y u]; [apply occurs_nil|].
      apply prefix_cons_inv_1 in H as ->. exfalso. apply Hu, list_elem_of_here.
    + apply occurs_cons. right. auto.
  - intros x rest _ _ IH H. apply occurs_cons in H as [H|H].
    + destruct u as [|y u]; [apply occurs_nil|].
      apply prefix_cons_inv_1 in H as ->. exfalso. apply Hu, list_elem_of_here.
    + apply occurs_no_straddle in H as [H|H]; [| |exact Hu].
      * apply occurs_app_l, occurs_app_r. exact H.
      * apply occurs_app_l, occurs_app_l, occurs_app_l. auto.
Qed.

Lemma count_char_absent c s : c ∉ s -> count_char c s = 0.
Proof. intros H. apply count_occ_not_In. by rewrite <- list_elem_of_In. Qed.

(** On a text without a newline the substitution leaves one dollar at
    most. *)
Lemma sub_math_dollars s :
  ch_newline ∉ s -> count_char ch_dollar (sub math_re math_tmpl s) <= 1.
Proof.
  apply (sub_math_ind (fun s r => ch_newline ∉ s -> count_char ch_dollar r <= 1)).
  - intros _. simpl. lia.
  - intros c s' Hc IH Hn. apply not_elem_of_cons in Hn as [_ Hn].
    unfold count_char in *. rewrite count_occ_cons_neq by exact Hc. auto.
  - intros s' Hspan _ Hn. apply not_elem_of_cons in Hn as [_ Hn].
    pose proof (math_span_None s' Hspan Hn) as Hd.
    rewrite sub_math_idle by exact Hd.
    unfold count_char. rewrite count_occ_cons_eq by reflexivity.
    fold (count_char ch_dollar s'). by rewrite count_char_absent.
  - intros x rest Hd _ IH Hn.
    apply not_elem_of_cons in Hn as [_ Hn]. apply not_elem_of_app in Hn as [_ Hn].
    apply not_elem_of_cons in Hn as [_ Hn]. specialize (IH Hn).
    unfold count_char in *. rewrite !count_occ_app.
    fold (count_char ch_dollar x). rewrite (count_char_absent _ x Hd).
    simpl. lia.
Qed.

Lemma occurs_two_dollars x r :
  occurs (ch_dollar :: x ++ [ch_dollar]) r -> 2 <= count_char ch_dollar r.
Proof.
  intros (a & b & ->). unfold count_char.
  rewrite !count_occ_app. simpl. rewrite count_occ_app. simpl. lia.
Qed.

(** ** Stripping *)

Lemma lstrip_suffix s : exists a, s = a ++ lstrip s.
Proof.
  induction s as [|c s [a IH]]; [by exists []|]. simpl.
  destruct (isspace c); [|by exists []].
  exists (c :: a). simpl. by rewrite <- IH.
Qed.

Lemma lstrip_app a c b :
  isspace c = false -> lstrip (a ++ c :: b) = lstrip a ++ c :: b.
Proof.
  intros Hc. induction a as [|x a IH]; simpl; [by rewrite Hc|].
  destruct (isspace x); [exact IH | reflexivity].
Qed.

Lemma rstrip_app a c b :
  isspace c = false -> rstrip (a ++ c :: b) = a ++ c :: rstrip b.
Proof.
  intros Hc. unfold rstrip. rewrite rev_app_distr. simpl.
  rewrite <- app_assoc. simpl. rewrite lstrip_app by exact Hc.
  rewrite rev_app_distr. simpl. rewrite rev_involutive, <- app_assoc. reflexivity.
Qed.

Lemma lstrip_keeps t0 tr s :
  isspace t0 = false -> occurs (t0 :: tr) s -> occurs (t0 :: tr) (lstrip s).
Proof.
  intros Ht (a & b & ->). induction a as [|c a IH]; simpl.
  - rewrite Ht. by exists [], b.
  - destruct (isspace c); [exact IH|]. by exists (c :: a), b.
Qed.

Lemma occurs_rev t s : occurs t s -> occurs (rev t) (rev s).
Proof.
  intros (a & b & ->). exists (rev b), (rev a).
  by rewrite !rev_app_distr, app_assoc.
Qed.

Lemma rstrip_keeps ti tl s :
  isspace tl = false -> occurs (ti ++ [tl]) s -> occurs (ti ++ [tl]) (rstrip s).
Proof.
  intros Ht H. apply occurs_rev in H. rewrite rev_app_distr in H. simpl in H.
  apply lstrip_keeps in H; [|exact Ht]. apply occurs_rev in H.
  simpl in H. by rewrite rev_involutive in H.
Qed.

Lemma strip_reflects t s : occurs t (strip s) -> occurs t s.
Proof.
  unfold strip, rstrip. intros H.
  destruct (lstrip_suffix s) as [a Ea]. rewrite Ea. apply occurs_app_l.
  destruct (lstrip_suffix (rev (lstrip s))) as [b Eb].
  apply (f_equal (@rev ascii)) in Eb. rewrite rev_involutive, rev_app_distr in Eb.
  rewrite Eb. by apply occurs_app_r.
Qed.

Lemma strip_keeps_bracket body s :
  occurs (bracket body) s -> occurs (bracket body) (strip s).
Proof.
  unfold bracket, strip. intros H.
  apply (lstrip_keeps ch_lt) in H; [|reflexivity].
  apply (rstrip_keeps (ch_lt :: body) ch_gt) in H; [exact H | reflexivity].
Qed.

(** ** A list of rules *)

Lemma has_char_false c s : has_char c s = false <-> c ∉ s.
Proof.
  unfold has_char. induction s as [|x s IH]; simpl.
  - split; [intros _; apply not_elem_of_nil | reflexivity].
  - rewrite orb_false_iff, IH, not_elem_of_cons, ascii_eqb_neq. reflexivity.
Qed.

Lemma clashb_startswith old t k : clashb old t = true -> startswith (t ++ k) old = false.
Proof.
  revert t; induction old as [|o old IH]; intros [|x t]; simpl; try discriminate.
  intros H. destruct (ascii_eqb x o) eqn:E.
  - apply ascii_eqb_eq in E as ->. rewrite ascii_eqb_refl in H. simpl in *. auto.
  - reflexivity.
Qed.

Lemma inertb_inert t r : inertb t r = true -> inert t r.
Proof.
  unfold inertb, inert. destruct t as [|t0 tr]; [discriminate|].
  destruct (fst r) as [|o old]; [discriminate|].
  rewrite !andb_true_iff, !negb_true_iff, !has_char_false.
  intros [[H1 H2] H3]. split; [exact H1|]. split; [exact H2|].
  intros k. by apply clashb_startswith.
Qed.

Lemma inert_around t old new a b :
  inert t (old, new) ->
  replace old new (a ++ t ++ b) = replace old new a ++ t ++ replace old new b.
Proof.
  unfold inert. simpl. destruct t as [|t0 tr]; [done|]. destruct old as [|o old]; [done|].
  intros (H1 & H2 & H3). by apply replace_around.
Qed.

Lemma inert_keeps t old new s :
  inert t (old, new) -> occurs t s -> occurs t (replace old new s).
Proof. intros Hi (a & b & ->). rewrite inert_around by exact Hi. apply occurs_middle. Qed.

Lemma replace_all_cons r rules s :
  replace_all (r :: rules) s = replace_all rules (replace (fst r) (snd r) s).
Proof. reflexivity. Qed.

Lemma replace_all_around t rules a b :
  Forall (inert t) rules ->
  replace_all rules (a ++ t ++ b) = replace_all rules a ++ t ++ replace_all rules b.
Proof.
  intros H. revert a b. induction H as [|[old new] rules Hr _ IH]; intros a b.
  - reflexivity.
  - rewrite !replace_all_cons. simpl. by rewrite inert_around, IH.
Qed.

Lemma replace_all_keeps t rules s :
  Forall (inert t) rules -> occurs t s -> occurs t (replace_all rules s).
Proof.
  intros Hi (a & b & ->). rewrite replace_all_around by exact Hi. apply occurs_middle.
Qed.

Lemma forallb_inert t rules :
  forallb (inertb t) rules = true -> Forall (inert t) rules.
Proof.
  rewrite forallb_forall, Forall_forall. intros H r Hr.
  apply inertb_inert, H. by apply list_elem_of_In.
Qed.

Lemma reflectb_reflects t r s :
  reflectb t r = true ->
  occurs t (replace (fst r) (snd r) s) -> occurs t s.
Proof.
  unfold reflectb. destruct t as [|t0 tr]; [discriminate|].
  destruct (fst r) as [|o old]; [discriminate|].
  destruct (snd r) as [|n new]; [discriminate|].
  rewrite andb_true_iff, !negb_true_iff, !has_char_false. intros [H1 H2].
  by apply replace_reflects.
Qed.

Lemma replace_all_reflects t rules s :
  forallb (reflectb t) rules = true ->
  occurs t (replace_all rules s) -> occurs t s.
Proof.
  revert s; induction rules as [|r rules IH]; intros s; [auto|].
  cbn [forallb]. rewrite andb_true_iff. intros [Hr Hrules] H.
  rewrite replace_all_cons in H. apply IH in H; [|exact Hrules].
  by apply (reflectb_reflects t r).
Qed.

Lemma reflectb_gone r s :
  reflectb (fst r) r = true -> ~ occurs (fst r) (replace (fst r) (snd r) s).
Proof.
  unfold reflectb. destruct (fst r) as [|o old]; [discriminate|].
  destruct (snd r) as [|n new]; [discriminate|].
  rewrite andb_true_iff, !negb_true_iff, !has_char_false. intros [H1 H2].
  by apply replace_gone.
Qed.

(** No [old] of the rules is left when all of them have run. *)
Lemma replace_all_gone rules s r :
  goneb rules = true -> r ∈ rules -> ~ occurs (fst r) (replace_all rules s).
Proof.
  revert s; induction rules as [|r0 rules IH]; intros s Hg Hr.
  - by apply elem_of_nil in Hr.
  - simpl in Hg. apply andb_true_iff in Hg as [Hg Hrest].
    apply andb_true_iff in Hg as [Hself Hlater].
    rewrite replace_all_cons. apply elem_of_cons in Hr as [->|Hr].
    + intros H. apply replace_all_reflects in H; [|exact Hlater].
      by apply (reflectb_gone r0 s).
    + by apply IH.
Qed.

(** An occurrence of [t] is one of [e] when all rules have run. *)
Lemma replace_all_puts t e rules s :
  putsb t e rules = true -> occurs t s -> occurs e (replace_all rules s).
Proof.
  revert s; induction rules as [|r rules IH]; intros s; [discriminate|].
  cbn [putsb]. rewrite replace_all_cons. destruct (text_eqb (fst r) t) eqn:E.
  - apply text_eqb_eq in E. rewrite !andb_true_iff. intros [[He Ht] Hrest] H.
    apply text_eqb_eq in He. apply replace_all_keeps; [by apply forallb_inert|].
    rewrite E, He. destruct t as [|t0 tr]; [discriminate|]. by apply replace_puts.
  - rewrite andb_true_iff. intros [Hi Hrest] H. apply IH; [exact Hrest|].
    destruct r as [old new]. apply inert_keeps; [by apply inertb_inert | exact H].
Qed.

(** A character that no rule brings in does not appear. *)
Lemma replace_all_keeps_absent c rules s :
  forallb (bringsb c) rules = true -> c ∉ s -> c ∉ replace_all rules s.
Proof.
  revert s; induction rules as [|[old new] rules IH]; intros s; [auto|].
  cbn [forallb]. rewrite andb_true_iff. unfold bringsb at 1. cbn [fst snd].
  rewrite andb_true_iff, negb_true_iff, has_char_false.
  intros [[Hold Hnew] Hrules] Hs. rewrite replace_all_cons. apply IH; [exact Hrules|].
  simpl. destruct old as [|o old]; [discriminate|].
  by apply replace_keeps_absent.
Qed.

Lemma escape_loop t :
  fold_left (fun t tag => replace tag (escape_tag tag) t) special_tags t
  = replace_all tag_rules t.
Proof. reflexivity. Qed.

Lemma special_tags_brackets : special_tags = map bracket tag_bodies.
Proof. reflexivity. Qed.

(** ** The stages of [markup] *)

Lemma markup_eq t :
  markup t
  = sub math_re math_tmpl
      (replace (str "$$") (str "$") (replace_all stage_rules (strip t))).
Proof. reflexivity. Qed.

Lemma stage_no_newline s : ch_newline ∉ replace_all stage_rules s.
Proof.
  unfold stage_rules. rewrite replace_all_cons. cbn [fst snd].
  apply replace_all_keeps_absent; [vm_compute; reflexivity|].
  apply replace_char_gone. apply has_char_false. reflexivity.
Qed.

Lemma stage_keeps_dollar_absent s : ch_dollar ∉ s -> ch_dollar ∉ replace_all stage_rules s.
Proof. apply replace_all_keeps_absent. vm_compute. reflexivity. Qed.

Lemma collapse_no_newline s :
  ch_newline ∉ s -> ch_newline ∉ replace (str "$$") (str "$") s.
Proof.
  apply (replace_keeps_absent ch_dollar [ch_dollar] (str "$")).
  apply has_char_false. reflexivity.
Qed.

(** No pair of dollars is left. *)
Lemma markup_no_span s y : ~ occurs (ch_dollar :: y ++ [ch_dollar]) (markup s).
Proof.
  intros H. apply occurs_two_dollars in H. rewrite markup_eq in H.
  pose proof (sub_math_dollars _ (collapse_no_newline _ (stage_no_newline (strip s)))).
  lia.
Qed.

Lemma replace_all_nonempty rules s :
  forallb solidb rules = true -> s <> [] -> replace_all rules s <> [].
Proof.
  revert s; induction rules as [|[old new] rules IH]; intros s; [auto|].
  cbn [forallb]. rewrite andb_true_iff. unfold solidb at 1. cbn [fst snd].
  rewrite andb_true_iff. intros [[Hold Hnew] Hrules] Hs.
  rewrite replace_all_cons. apply IH; [exact Hrules|]. cbn [fst snd].
  destruct old as [|o old]; [discriminate|]. destruct new as [|n new]; [discriminate|].
  by apply replace_nonempty.
Qed.

Lemma replace_all_idle cs rules s :
  forallb (head_in cs) rules = true -> (forall c, c ∈ cs -> c ∉ s) ->
  replace_all rules s = s.
Proof.
  intros Hrules Hs. induction rules as [|[old new] rules IH]; [reflexivity|].
  cbn [forallb] in Hrules. apply andb_true_iff in Hrules as [Hr Hrules].
  rewrite replace_all_cons. cbn [fst snd]. unfold head_in in Hr. cbn [fst] in Hr.
  destruct old as [|o old]; [discriminate|].
  rewrite replace_idle; [by apply IH|].
  apply Hs. apply list_elem_of_In. apply existsb_exists in Hr as (c & Hc & E).
  apply ascii_eqb_eq in E. by subst.
Qed.

Lemma inline_idle x :
  ch_newline ∉ x -> ch_backslash ∉ x -> ch_lt ∉ x -> inline x = x.
Proof.
  intros H1 H2 H3. apply (replace_all_idle [ch_newline; ch_backslash; ch_lt]).
  - vm_compute. reflexivity.
  - intros c Hc. apply elem_of_cons in Hc as [->|Hc]; [exact H1|].
    apply elem_of_cons in Hc as [->|Hc]; [exact H2|].
    apply elem_of_cons in Hc as [->|Hc]; [exact H3|].
    by apply elem_of_nil in Hc.
Qed.

Lemma collapse_head Q :
  exists Q', replace (str "$$") (str "$") (ch_dollar :: Q) = ch_dollar :: Q'.
Proof.
  destruct Q as [|c Q]; [by exists []|].
  destruct (ascii_eqb c ch_dollar) eqn:E.
  - apply ascii_eqb_eq in E as ->. exists (replace (str "$$") (str "$") Q).
    apply (replace_hit ch_dollar [ch_dollar] (str "$") Q).
  - exists (replace (str "$$") (str "$") (c :: Q)).
    apply (replace_miss ch_dollar [ch_dollar] (str "$") ch_dollar (c :: Q)).
    cbn [startswith]. by rewrite E, andb_false_r.
Qed.

(** The collapse of doubled dollars around a span. *)
Lemma collapse_span P d X Q :
  d = str "$" \/ d = str "$$" -> ch_dollar ∉ P -> ch_dollar ∉ X -> X <> [] ->
  exists Q', replace (str "$$") (str "$") (P ++ d ++ X ++ d ++ Q)
             = P ++ ch_dollar :: X ++ ch_dollar :: Q'.
Proof.
  intros Hd HP HX Hne. destruct X as [|c X]; [done|].
  assert (E : ascii_eqb c ch_dollar = false).
  { apply ascii_eqb_neq. apply not_elem_of_cons in HX as [HX _]. congruence. }
  rewrite (replace_skip ch_dollar [ch_dollar] (str "$") P) by exact HP.
  destruct Hd as [-> | ->].
  - destruct (collapse_head Q) as [Q' EQ]. exists Q'. f_equal.
    change (str "$" ++ (c :: X) ++ str "$" ++ Q)
      with (ch_dollar :: (c :: X) ++ ch_dollar :: Q).
    rewrite (replace_miss ch_dollar [ch_dollar] (str "$"))
      by (cbn [startswith app]; by rewrite E, andb_false_r).
    rewrite (replace_skip ch_dollar [ch_dollar] (str "$") (c :: X)) by exact HX.
    change [ch_dollar; ch_dollar] with (str "$$"). by rewrite EQ.
  - exists (replace (str "$$") (str "$") Q). f_equal.
    change (str "$$" ++ (c :: X) ++ str "$$" ++ Q)
      with ((ch_dollar :: [ch_dollar]) ++ (c :: X) ++ (ch_dollar :: [ch_dollar]) ++ Q).
    rewrite (replace_hit ch_dollar [ch_dollar] (str "$")).
    rewrite (replace_skip ch_dollar [ch_dollar] (str "$") (c :: X)) by exact HX.
    rewrite (replace_hit ch_dollar [ch_dollar] (str "$")). reflexivity.
Qed.

Lemma strip_span a d m b :
  d = str "$" \/ d = str "$$" ->
  strip (a ++ d ++ m ++ d ++ b) = lstrip a ++ d ++ m ++ d ++ rstrip b.
Proof.
  unfold strip. intros [-> | ->].
  - change (a ++ str "$" ++ m ++ str "$" ++ b) with (a ++ ch_dollar :: m ++ ch_dollar :: b).
    rewrite lstrip_app by reflexivity.
    change (lstrip a ++ ch_dollar :: m ++ ch_dollar :: b)
      with (lstrip a ++ (ch_dollar :: m) ++ ch_dollar :: b).
    rewrite app_assoc, rstrip_app by reflexivity. rewrite <- app_assoc. reflexivity.
  - change (a ++ str "$$" ++ m ++ str "$$" ++ b)
      with (a ++ ch_dollar :: (ch_dollar :: m) ++ [ch_dollar] ++ ch_dollar :: b).
    rewrite lstrip_app by reflexivity.
    change (lstrip a ++ ch_dollar :: (ch_dollar :: m) ++ [ch_dollar] ++ ch_dollar :: b)
      with (lstrip a ++ (ch_dollar :: ch_dollar :: m) ++ [ch_dollar] ++ ch_dollar :: b).
    rewrite 2 app_assoc, rstrip_app by reflexivity. rewrite <- 2 app_assoc. reflexivity.
Qed.

(** ** Dollars that pair up *)

Lemma collapsed_plain_head sh : collapsed_dollars (plain_head sh) = collapsed_dollars sh.
Proof. by destruct sh as [|[] sh]. Qed.

Lemma plain_head_idem sh : plain_head (plain_head sh) = plain_head sh.
Proof. by destruct sh as [|[] sh]. Qed.

Lemma last_plain_head sh : sh <> [] -> last (plain_head sh) = last sh.
Proof. by destruct sh as [|[] sh]. Qed.

Lemma shape_nonempty c s : shape (c :: s) <> [].
Proof.
  cbn [shape]. destruct (ascii_eqb c ch_dollar); [discriminate|].
  by destruct (shape s) as [|[] sh].
Qed.

Lemma shape_app_plain u t :
  u <> [] -> ch_dollar ∉ u -> shape (u ++ t) = plain_head (shape t).
Proof.
  induction u as [|c u IH]; [done|]. intros _ Hu.
  apply not_elem_of_cons in Hu as [Hc Hu]. cbn [app shape].
  assert (E : ascii_eqb c ch_dollar = false) by (apply ascii_eqb_neq; congruence).
  rewrite E. destruct u as [|c' u']; [reflexivity|].
  rewrite IH by done. apply plain_head_idem.
Qed.

Lemma shape_replace o old new s :
  ch_dollar ∉ o :: old -> new <> [] -> ch_dollar ∉ new ->
  shape (replace (o :: old) new s) = shape s.
Proof.
  intros Hold Hne Hnew.
  apply (replace_ind o old new (fun s r => shape r = shape s)).
  - reflexivity.
  - intros c s' _ IH. cbn [shape]. by rewrite IH.
  - intros rest IH. rewrite !shape_app_plain by done. by rewrite IH.
Qed.

Lemma shape_replace_all rules s :
  forallb dollar_free rules = true -> shape (replace_all rules s) = shape s.
Proof.
  revert s; induction rules as [|[old new] rules IH]; intros s; [reflexivity|].
  cbn [forallb]. rewrite andb_true_iff. unfold dollar_free at 1. cbn [fst snd].
  rewrite !andb_true_iff, !negb_true_iff, !has_char_false.
  intros [[[[Ho Hn] Hod] Hnd] Hrules]. rewrite replace_all_cons, IH by exact Hrules.
  cbn [fst snd]. destruct old as [|o old]; [discriminate|].
  destruct new as [|n new]; [discriminate|]. by apply shape_replace.
Qed.

Lemma last_shape s : last s = Some ch_dollar <-> last (shape s) = Some true.
Proof.
  induction s as [|c s IH]; [done|]. destruct s as [|c' s'].
  - cbn. destruct (ascii_eqb c ch_dollar) eqn:E; cbn.
    + apply ascii_eqb_eq in E as ->. done.
    + apply ascii_eqb_neq in E. split; [congruence | discriminate].
  - rewrite last_cons_cons, IH.
    pose proof (shape_nonempty c' s') as Hne.
    change (shape (c :: c' :: s'))
      with (if ascii_eqb c ch_dollar then true :: shape (c' :: s')
            else plain_head (shape (c' :: s'))).
    destruct (ascii_eqb c ch_dollar).
    + destruct (shape (c' :: s')) as [|b sh]; [done|]. by rewrite last_cons_cons.
    + by rewrite last_plain_head.
Qed.

Lemma lstrip_shape s :
  collapsed_dollars (shape (lstrip s)) = collapsed_dollars (shape s).
Proof.
  induction s as [|c s IH]; [reflexivity|]. cbn [lstrip].
  destruct (isspace c) eqn:Ec; [|reflexivity].
  rewrite IH. cbn [shape]. destruct (ascii_eqb c ch_dollar) eqn:E.
  - apply ascii_eqb_eq in E as ->. discriminate Ec.
  - by rewrite collapsed_plain_head.
Qed.

Lemma count_char_cons c x s :
  count_char c (x :: s) = (if ascii_eqb x c then S (count_char c s) else count_char c s).
Proof.
  unfold count_char. destruct (ascii_eqb x c) eqn:E.
  - apply ascii_eqb_eq in E as ->. by rewrite count_occ_cons_eq.
  - apply ascii_eqb_neq in E. by rewrite count_occ_cons_neq.
Qed.

(** The dollars that the collapse leaves, read off the shape. *)
Lemma count_collapse s :
  count_char ch_dollar (replace (str "$$") (str "$") s) = collapsed_dollars (shape s).
Proof.
  apply (replace_ind ch_dollar [ch_dollar] (str "$")
           (fun s r => count_char ch_dollar r = collapsed_dollars (shape s))).
  - reflexivity.
  - intros c s' Hmiss IH. rewrite count_char_cons, IH. cbn [shape].
    destruct (ascii_eqb c ch_dollar) eqn:E.
    + cbn [collapsed_dollars]. destruct s' as [|x s'']; [reflexivity|].
      cbn [startswith] in Hmiss. rewrite E in Hmiss. cbn in Hmiss.
      rewrite andb_true_r in Hmiss. cbn [shape]. rewrite Hmiss.
      by destruct (shape s'') as [|[] sh].
    + by rewrite collapsed_plain_head.
  - intros rest IH. change (str "$" ++ ?r) with (ch_dollar :: r).
    rewrite count_char_cons, ascii_eqb_refl, IH. reflexivity.
Qed.

(** The collapse does not reach over a place that no dollar precedes. *)
Lemma collapse_app a b :
  last a <> Some ch_dollar ->
  replace (str "$$") (str "$") (a ++ b)
  = replace (str "$$") (str "$") a ++ replace (str "$$") (str "$") b.
Proof.
  revert b. apply (replace_ind ch_dollar [ch_dollar] (str "$")
    (fun a r => forall b, last a <> Some ch_dollar ->
                          replace (str "$$") (str "$") (a ++ b)
                          = r ++ replace (str "$$") (str "$") b)).
  - reflexivity.
  - intros c s Hmiss IH b Hlast. cbn [app].
    rewrite (replace_miss ch_dollar [ch_dollar] (str "$")).
    + f_equal. apply IH. intros Hs. apply Hlast.
      destruct s as [|x s']; [discriminate Hs|]. by rewrite last_cons_cons.
    + cbn [startswith] in *. destruct (ascii_eqb c ch_dollar) eqn:E; [|reflexivity].
      destruct s as [|x s'].
      * exfalso. apply Hlast. apply ascii_eqb_eq in E as ->. reflexivity.
      * cbn [app]. cbn in Hmiss. rewrite andb_true_r in Hmiss.
        cbn. by rewrite Hmiss.
  - intros rest IH b Hlast. rewrite <- app_assoc.
    rewrite (replace_hit ch_dollar [ch_dollar] (str "$")).
    rewrite IH; [by rewrite app_assoc|].
    intros Hs. apply Hlast. destruct rest as [|x rest']; [discriminate Hs|].
    cbn [app]. by rewrite !last_cons_cons.
Qed.

(** The substitution works on what follows an even number of dollars as
    it does from the start. *)
Lemma sub_math_app a rest :
  Nat.even (count_char ch_dollar a) = true -> ch_newline ∉ a ->
  sub math_re math_tmpl (a ++ rest)
  = sub math_re math_tmpl a ++ sub math_re math_tmpl rest.
Proof.
  revert rest. apply (sub_math_ind
    (fun a r => forall rest, Nat.even (count_char ch_dollar a) = true -> ch_newline ∉ a ->
                             sub math_re math_tmpl (a ++ rest)
                             = r ++ sub math_re math_tmpl rest)).
  - reflexivity.
  - intros c s Hc IH rest He Hnl. cbn [app]. rewrite sub_math_other by exact Hc.
    f_equal. apply IH.
    + rewrite count_char_cons in He.
      assert (E : ascii_eqb c ch_dollar = false) by by apply ascii_eqb_neq.
      by rewrite E in He.
    + by apply not_elem_of_cons in Hnl as [_ ?].
  - intros s Hnone _ rest He Hnl. exfalso.
    apply not_elem_of_cons in Hnl as [_ Hnl].
    pose proof (math_span_None s Hnone Hnl) as Hd.
    rewrite count_char_cons, ascii_eqb_refl, (count_char_absent _ _ Hd) in He.
    discriminate He.
  - intros x r Hx Hxn IH rest He Hnl.
    replace ((ch_dollar :: x ++ ch_dollar :: r) ++ rest)
      with (ch_dollar :: x ++ ch_dollar :: (r ++ rest))
      by (cbn [app]; by rewrite <- app_assoc).
    rewrite sub_math_span by assumption. rewrite <- !app_assoc. do 3 f_equal.
    apply IH.
    + rewrite count_char_cons, ascii_eqb_refl in He. unfold count_char in *.
      rewrite count_occ_app in He. fold (count_char ch_dollar x) in He.
      rewrite (count_char_absent _ _ Hx) in He.
      rewrite count_occ_cons_eq in He by reflexivity. exact He.
    + apply not_elem_of_cons in Hnl as [_ Hnl].
      apply not_elem_of_app in Hnl as [_ Hnl].
      by apply not_elem_of_cons in Hnl as [_ ?].
Qed.

(** A span between dollars becomes one between [\(] and [\)], when the
    dollars before it pair up and none of them is right before it. *)
Lemma markup_math_span pre d x post :
  d = str "$" \/ d = str "$$" ->
  last pre <> Some ch_dollar ->
  Nat.even (count_char ch_dollar (replace (str "$$") (str "$") pre)) = true ->
  ch_dollar ∉ x -> x <> [] ->
  exists before rest,
    markup (pre ++ d ++ x ++ d ++ post) = before ++ inline_math (inline x) ++ rest.
Proof.
  intros Hd Hlast Heven Hx Hne. rewrite markup_eq, strip_span by exact Hd.
  assert (Hi : Forall (inert d) stage_rules).
  { apply forallb_inert. destruct Hd as [-> | ->]; vm_compute; reflexivity. }
  rewrite !(replace_all_around d) by exact Hi.
  fold (inline (lstrip pre)) (inline x) (inline (rstrip post)).
  assert (Hfree : forallb dollar_free stage_rules = true) by (vm_compute; reflexivity).
  assert (HlastP : last (inline (lstrip pre)) <> Some ch_dollar).
  { intros H. apply last_shape in H. unfold inline in H.
    rewrite shape_replace_all in H by exact Hfree. apply last_shape in H.
    apply Hlast. destruct (lstrip_suffix pre) as [a Ea]. rewrite Ea.
    by rewrite last_app, H. }
  assert (HevenP : Nat.even (count_char ch_dollar
                     (replace (str "$$") (str "$") (inline (lstrip pre)))) = true).
  { rewrite count_collapse in *. unfold inline.
    by rewrite shape_replace_all, lstrip_shape by exact Hfree. }
  assert (HX : ch_dollar ∉ inline x) by by apply stage_keeps_dollar_absent.
  assert (HN : inline x <> []).
  { apply replace_all_nonempty; [vm_compute; reflexivity | exact Hne]. }
  rewrite (collapse_app _ _ HlastP).
  destruct (collapse_span [] d (inline x) (inline (rstrip post))
              Hd (not_elem_of_nil _) HX HN) as [Q' EQ].
  cbn [app] in EQ. rewrite EQ.
  rewrite sub_math_app
    by (exact HevenP || apply collapse_no_newline, stage_no_newline).
  rewrite sub_math_span by (exact HX || apply stage_no_newline).
  exists (sub math_re math_tmpl (replace (str "$$") (str "$") (inline (lstrip pre)))),
    (sub math_re math_tmpl Q').
  unfold inline_math. by rewrite <- !app_assoc.
Qed.

(** C4, refuted: of a text that opens with a fenced block only the block
    is kept, and the formula after it is not in the output. *)
Lemma math_span_lost_after_fence : ~ math_round_trip fenced_then_math (str "x").
Proof.
  intros H. destruct H as [H _].
  - apply contains_occurs. vm_compute. reflexivity.
  - apply contains_occurs in H. vm_compute in H. discriminate H.
Qed.

(** A dollar before the formula pairs with the opening dollar of the
    formula, and [\( x \)] is not in the output. *)
Lemma math_span_after_stray_dollar : ~ math_round_trip (str "$a $x$") (str "x").
Proof.
  intros H. destruct H as [H _].
  - apply contains_occurs. vm_compute. reflexivity.
  - apply contains_occurs in H. vm_compute in H. discriminate H.
Qed.

(** A span right after another one: the closing dollar of the first and
    the opening dollar of the second collapse to one, and [\( b \)] is
    not in the output. *)
Lemma math_span_after_adjacent_span : ~ math_round_trip (str "$a$$b$") (str "b").
Proof.
  intros H. destruct H as [H _].
  - apply contains_occurs. vm_compute. reflexivity.
  - apply contains_occurs in H. vm_compute in H. discriminate H.
Qed.

(** C4, amended: let the text that is left after the extraction of a
    fenced block be [pre ++ d ++ x ++ d ++ post], with [d] one dollar or
    two, [x] not empty and without a dollar.  Let the dollars of [pre]
    pair up, that is, be even in number once two dollars in a row count
    as one, and let [pre] not end with a dollar.  Then the output
    contains [\( x' \)], where [x'] is [x] after the replacements for line
    breaks and special tags, so [\( x \)] itself when [x] has no newline,
    backslash or [<]; a span with a newline in it is rewritten as well.
    This holds for every span of the text, not for the first only.  And
    whatever the input, no [$y$] is left in the output. *)
Theorem math_span_rewritten (t : text) (md : bool) (pre d x post : text) :
  extract_fenced md t = pre ++ d ++ x ++ d ++ post ->
  d = str "$" \/ d = str "$$" ->
  last pre <> Some ch_dollar ->
  Nat.even (count_char ch_dollar (replace (str "$$") (str "$") pre)) = true ->
  ch_dollar ∉ x -> x <> [] ->
  occurs (inline_math (inline x)) (process_textual_content (VStr t) md)
  /\ (ch_newline ∉ x -> ch_backslash ∉ x -> ch_lt ∉ x ->
      occurs (inline_math x) (process_textual_content (VStr t) md))
  /\ forall (v : value) (y : text),
       ~ occurs (ch_dollar :: y ++ [ch_dollar]) (process_textual_content v md).
Proof.
  intros E Hd Hlast Heven Hx Hne.
  assert (H : occurs (inline_math (inline x)) (process_textual_content (VStr t) md)).
  { unfold process_textual_content. rewrite E.
    destruct (markup_math_span pre d x post Hd Hlast Heven Hx Hne)
      as (before & rest & ->).
    apply occurs_middle. }
  split; [exact H|]. split.
  - intros H1 H2 H3. by rewrite (inline_idle x H1 H2 H3) in H.
  - intros v y. apply markup_no_span.
Qed.

Lemma math_span_rewritten_witness :
  occurs (str "\( a<br>b \)")
    (process_textual_content (VStr (str "so $$a" ++ [ch_newline] ++ str "b$$ holds")) false)
  /\ occurs (str "\( a \)") (process_textual_content (VStr (str "$a$ and $b$")) false)
  /\ occurs (str "\( b \)") (process_textual_content (VStr (str "$a$ and $b$")) false).
Proof.
  split; [|split].
  - apply (math_span_rewritten (str "so $$a" ++ [ch_newline] ++ str "b$$ holds") false
             (str "so ") (str "$$") (str "a" ++ [ch_newline] ++ str "b") (str " holds"));
      [ reflexivity | right; reflexivity | discriminate | reflexivity
      | apply has_char_false; reflexivity | discriminate ].
  - apply (math_span_rewritten (str "$a$ and $b$") false
             [] (str "$") (str "a") (str " and $b$"));
      [ reflexivity | left; reflexivity | discriminate | reflexivity
      | apply has_char_false; reflexivity | discriminate
      | apply has_char_false; reflexivity | apply has_char_false; reflexivity
      | apply has_char_false; reflexivity ].
  - apply (math_span_rewritten (str "$a$ and $b$") false
             (str "$a$ and ") (str "$") (str "b") []);
      [ reflexivity | left; reflexivity | discriminate | reflexivity
      | apply has_char_false; reflexivity | discriminate
      | apply has_char_false; reflexivity | apply has_char_false; reflexivity
      | apply has_char_false; reflexivity ].
Defined.

(** ** Special tags *)

Lemma sub_math_reflects_plain t s :
  plainb t = true -> occurs t (sub math_re math_tmpl s) -> occurs t s.
Proof.
  unfold plainb. destruct t as [|t0 tr]; [discriminate|].
  rewrite andb_true_l, forallb_forall. intros H.
  apply sub_math_reflects. intros c Hc. apply has_char_false.
  apply negb_true_iff. apply H. by apply list_elem_of_In.
Qed.

Lemma special_tags_checked :
  forallb (fun tag =>
             plainb tag && reflectb tag (str "$$", str "$")
             && putsb tag (escape_tag tag) stage_rules
             && inertb (escape_tag tag) (str "$$", str "$")
             && negb (has_char ch_dollar (escape_tag tag)))
    special_tags = true.
Proof. vm_compute. reflexivity. Qed.

Lemma tag_bodies_checked :
  forallb (fun tb => negb (has_char ch_lt (tb ++ [ch_gt])) && negb (has_char ch_gt tb))
    tag_bodies = true.
Proof. vm_compute. reflexivity. Qed.

(** No special tag is left. *)
Lemma markup_no_tag s tag : tag ∈ special_tags -> ~ occurs tag (markup s).
Proof.
  intros Hin H. rewrite markup_eq in H.
  pose proof (proj1 (forallb_forall _ _) special_tags_checked tag
                (proj1 (list_elem_of_In _ _) Hin)) as Hc.
  cbv beta in Hc. rewrite !andb_true_iff in Hc.
  destruct Hc as [[[[Hplain Hrefl] _] _] _].
  apply sub_math_reflects_plain in H; [|exact Hplain].
  apply (reflectb_reflects tag (str "$$", str "$")) in H; [|exact Hrefl].
  unfold stage_rules in H. rewrite 2 replace_all_cons in H.
  apply (replace_all_gone tag_rules _ (tag, escape_tag tag)) in H; [exact H| |].
  - vm_compute. reflexivity.
  - unfold tag_rules. apply list_elem_of_In.
    apply (in_map (fun tag => (tag, escape_tag tag))). by apply list_elem_of_In.
Qed.

(** A special tag becomes its escaped form. *)
Lemma markup_escapes s tag :
  tag ∈ special_tags -> occurs tag s -> occurs (escape_tag tag) (markup s).
Proof.
  intros Hin H. rewrite markup_eq.
  pose proof (proj1 (forallb_forall _ _) special_tags_checked tag
                (proj1 (list_elem_of_In _ _) Hin)) as Hc.
  cbv beta in Hc. rewrite !andb_true_iff in Hc.
  destruct Hc as [[[[_ _] Hputs] Hinert] Hd].
  apply sub_math_keeps_piece.
  { apply has_char_false. by apply negb_true_iff. }
  apply inert_keeps; [by apply inertb_inert|].
  apply (replace_all_puts tag); [exact Hputs|].
  rewrite special_tags_brackets in Hin. apply list_elem_of_In in Hin.
  apply in_map_iff in Hin as (body & <- & _). by apply strip_keeps_bracket.
Qed.

Lemma startswith_bracket tb body k :
  ch_gt ∉ tb -> ch_gt ∉ body -> tb <> body ->
  startswith ((body ++ [ch_gt]) ++ k) (tb ++ [ch_gt]) = false.
Proof.
  revert body; induction tb as [|x tb IH]; intros [|c body] Htb Hbody Hne; try done.
  - apply not_elem_of_cons in Hbody as [Hc _]. cbn [app startswith].
    assert (E : ascii_eqb c ch_gt = false) by (apply ascii_eqb_neq; congruence).
    by rewrite E.
  - apply not_elem_of_cons in Htb as [Hx _]. cbn [app startswith].
    assert (E : ascii_eqb ch_gt x = false) by by apply ascii_eqb_neq.
    by rewrite E.
  - apply not_elem_of_cons in Htb as [_ Htb].
    apply not_elem_of_cons in Hbody as [_ Hbody]. cbn [app startswith].
    destruct (ascii_eqb c x) eqn:E; [|reflexivity].
    apply ascii_eqb_eq in E as ->. rewrite andb_true_l. apply IH; [done|done|congruence].
Qed.

Lemma bracket_inert_tags body :
  ch_lt ∉ body -> ch_gt ∉ body -> bracket body ∉ special_tags ->
  Forall (inert (bracket body)) tag_rules.
Proof.
  intros Hlt Hgt Hout. apply Forall_forall. intros r Hr.
  unfold tag_rules in Hr. apply list_elem_of_In in Hr. rewrite special_tags_brackets in Hr.
  rewrite map_map in Hr. apply in_map_iff in Hr as (tb & <- & Htb).
  pose proof (proj1 (forallb_forall _ _) tag_bodies_checked tb Htb) as Hc.
  cbv beta in Hc. rewrite andb_true_iff, !negb_true_iff, !has_char_false in Hc.
  destruct Hc as [Hc1 Hc2].
  unfold inert, bracket. cbn [fst]. split; [exact Hc1|]. split.
  - apply not_elem_of_app. split; [exact Hlt|].
    apply has_char_false. reflexivity.
  - intros k. cbn [app startswith]. rewrite ascii_eqb_refl, andb_true_l.
    apply startswith_bracket; [exact Hc2 | exact Hgt |].
    intros ->. apply Hout. rewrite special_tags_brackets.
    apply list_elem_of_In. apply in_map. exact Htb.
Qed.

(** A bracket tag that is not a special tag stays as it is. *)
Lemma markup_keeps_other s body :
  (forall c, c ∈ markup_chars -> c ∉ body) -> bracket body ∉ special_tags ->
  occurs (bracket body) s -> occurs (bracket body) (markup s).
Proof.
  intros Hfree Hout H. rewrite markup_eq.
  assert (Hlt : ch_lt ∉ body) by (apply Hfree; char_in).
  assert (Hgt : ch_gt ∉ body) by (apply Hfree; char_in).
  assert (Hnl : ch_newline ∉ body) by (apply Hfree; char_in).
  assert (Hbs : ch_backslash ∉ body) by (apply Hfree; char_in).
  assert (Hd : ch_dollar ∉ body) by (apply Hfree; char_in).
  assert (Hend : forall c, c ∉ body -> has_char c [ch_gt] = false -> c ∉ body ++ [ch_gt]).
  { intros c Hc E. apply not_elem_of_app. split; [exact Hc | by apply has_char_false]. }
  apply sub_math_keeps_piece.
  { unfold bracket. apply not_elem_of_cons. split; [discriminate|]. by apply Hend. }
  apply inert_keeps.
  { unfold inert, bracket. cbn [fst]. split; [apply has_char_false; reflexivity|].
    split; [by apply Hend | reflexivity]. }
  apply replace_all_keeps; [|by apply strip_keeps_bracket].
  unfold stage_rules. constructor; [|constructor; [|by apply bracket_inert_tags]].
  - unfold inert, bracket. cbn [fst]. split; [apply not_elem_of_nil|].
    split; [by apply Hend | reflexivity].
  - unfold inert, bracket. cbn [fst]. split; [apply has_char_false; reflexivity|].
    split; [by apply Hend | reflexivity].
Qed.

(** C5, refuted: of a text that opens with a fenced block only the block
    is kept, and the tag after it is not in the output, escaped or not. *)
Lemma special_tag_lost_after_fence : ~ tag_escaped fenced_then_tag (str "<think>").
Proof.
  intros H. destruct H as [H _].
  - apply contains_occurs. vm_compute. reflexivity.
  - apply contains_occurs in H. vm_compute in H. discriminate H.
Qed.

(** C5, amended: a special tag that occurs in the text left after the
    extraction of a fenced block has its escaped form in the output;
    whatever the input, no special tag is left in the output; and a tag
    [<body>] that is not a special tag, with none of [<], [>], newline,
    backslash and dollar in its body, is in the output as it is in the
    text left after the extraction. *)
Theorem special_tags_escaped (t : text) (md : bool) (tag : text) :
  tag ∈ special_tags -> occurs tag (extract_fenced md t) ->
  occurs (escape_tag tag) (process_textual_content (VStr t) md)
  /\ (forall (v : value) (tag' : text),
        tag' ∈ special_tags -> ~ occurs tag' (process_textual_content v md))
  /\ (forall body : text,
        (forall c, c ∈ markup_chars -> c ∉ body) ->
        bracket body ∉ special_tags ->
        occurs (bracket body) (extract_fenced md t) ->
        occurs (bracket body) (process_textual_content (VStr t) md)).
Proof.
  intros Hin H. split; [by apply markup_escapes|]. split.
  - intros v tag' Hin'. by apply markup_no_tag.
  - intros body Hfree Hout Hb. by apply markup_keeps_other.
Qed.

Lemma special_tags_escaped_witness :
  occurs (str "&lt;think&gt;")
    (process_textual_content (VStr (str "<think>go</think> <b>bold</b>")) false)
  /\ occurs (str "<b>")
       (process_textual_content (VStr (str "<think>go</think> <b>bold</b>")) false).
Proof.
  assert (Hin : str "<think>" ∈ special_tags) by char_in.
  assert (Hoc : occurs (str "<think>")
                  (extract_fenced false (str "<think>go</think> <b>bold</b>"))).
  { apply contains_occurs. vm_compute. reflexivity. }
  destruct (special_tags_escaped (str "<think>go</think> <b>bold</b>") false
              (str "<think>") Hin Hoc) as (A & _ & C).
  split; [exact A|]. apply (C (str "b")).
  - intros c Hc. apply has_char_false. apply list_elem_of_In in Hc. simpl in Hc.
    repeat (destruct Hc as [<-|Hc]; [reflexivity|]). destruct Hc.
  - intros Hb. apply list_elem_of_In in Hb. simpl in Hb.
    repeat (destruct Hb as [Hb|Hb]; [discriminate Hb|]). destruct Hb.
  - apply contains_occurs. vm_compute. reflexivity.
Defined.

(** * Further properties *)

(** ** Image sources *)

Lemma image_to_html_bytes x width w :
  no_image_source x = false ->
  image_to_html x width w
  = bind (image_bytes x) (fun b => ret (fragment_of b width)) w.
Proof.
  intros H.
  assert (Hb : forall (m : io bytes),
             bind (bind m (fun b => match b with
                                    | [] => ret (EncBytes b)
                                    | _ :: _ => ret (EncStr (b64encode b))
                                    end))
                  (fun e => match e with
                            | EncStr ((_ :: _) as s) | EncBytes ((_ :: _) as s) =>
                                ret (img_tag s width)
                            | EncStr [] | EncBytes [] => ret not_found
                            end) w
             = bind m (fun b => ret (fragment_of b width)) w).
  { intros m. unfold bind. destruct (m w) as [[b|e] log]; [|reflexivity].
    destruct b as [|c [|c2 [|c3 b]]]; unfold ret, fragment_of; cbn [b64encode app];
      cbv beta iota; rewrite ?app_nil_r; reflexivity. }
  unfold image_to_html. rewrite H.
  destruct x as [[| | | | |s| |]|p|data|png]; try discriminate H; apply Hb.
Qed.

Lemma read_or_empty_fragment path width w :
  bind (read_or_empty path) (fun b => ret (fragment_of b width)) w
  = (match open_rb w path with
     | FileNotFoundError => Ok not_found
     | OpenRaises e => Raise e
     | FileContent b => Ok (fragment_of b width)
     end, [EvOpen path]).
Proof.
  unfold bind, read_or_empty. destruct (open_rb w path); reflexivity.
Qed.

(** X1: a non-empty string that is no http(s) URL, and a [Path], are
    opened as a local file, with one [open] and no request.  A missing
    file and an empty file give the "Image not found" fragment, other
    content the [img] tag of its bytes; any other failure of [open] is
    raised. *)
Theorem image_to_html_local_file (w : world) (path : text) (width : Z) :
  path <> [] -> is_url path = false ->
  image_to_html (Cell (VStr path)) width w
  = (match open_rb w path with
     | FileNotFoundError => Ok not_found
     | OpenRaises e => Raise e
     | FileContent b => Ok (fragment_of b width)
     end, [EvOpen path])
  /\ image_to_html (PathObj path) width w
     = image_to_html (Cell (VStr path)) width w.
Proof.
  intros Hne Hurl.
  assert (E : image_to_html (Cell (VStr path)) width w
              = bind (read_or_empty path) (fun b => ret (fragment_of b width)) w).
  { rewrite image_to_html_bytes by (by destruct path).
    unfold image_bytes. by rewrite Hurl. }
  split.
  - rewrite E. apply read_or_empty_fragment.
  - rewrite E. by rewrite image_to_html_bytes.
Qed.

Lemma image_to_html_local_file_witness :
  image_to_html (Cell (VStr (str "a.png"))) 320 offline
  = (Ok not_found, [EvOpen (str "a.png")])
  /\ image_to_html (Cell (VStr (str "a.png"))) 320 (one_file (str "a.png") (str "PNG"))
     = (Ok (img_tag (str "UE5H") 320), [EvOpen (str "a.png")]).
Proof.
  split.
  - apply (image_to_html_local_file offline (str "a.png") 320); [discriminate | reflexivity].
  - apply (image_to_html_local_file (one_file (str "a.png") (str "PNG")) (str "a.png") 320);
      [discriminate | reflexivity].
Defined.

Lemma b64encode_nonempty b : b <> [] -> b64encode b <> [].
Proof. destruct b as [|c [|c2 [|c3 b]]]; [done | discriminate ..]. Qed.

Lemma image_to_html_forms w x width frag :
  result (image_to_html x width) w = Ok frag ->
  frag = no_image \/ frag = not_found
  \/ exists b, b <> [] /\ frag = img_tag (b64encode b) width.
Proof.
  destruct (no_image_source x) eqn:Hs.
  - unfold result, image_to_html. rewrite Hs. intros [= <-]. by left.
  - unfold result. rewrite image_to_html_bytes by exact Hs. unfold bind.
    destruct (image_bytes x w) as [[b|e] log]; [|discriminate].
    intros [= <-]. destruct b as [|c b]; [by right; left|].
    right; right. by exists (c :: b).
Qed.

Lemma image_bytes_trace w x : length (trace (image_bytes x) w) <= 1.
Proof.
  unfold trace.
  destruct x as [[| | | | |s| |]|p|data|png]; simpl; try lia.
  - destruct (is_url s).
    + unfold fetch. destruct (http_get w s) as [e|status content]; [simpl; lia|].
      destruct ((400 <=? status) && (status <? 600))%Z; simpl; lia.
    + unfold read_or_empty. destruct (open_rb w s); simpl; lia.
  - unfold read_or_empty. destruct (open_rb w p); simpl; lia.
Qed.

(** X2: whatever the source and the world, when [image_to_html] returns,
    it returns one of three fragments: "No image available", "Image not
    found", or the [img] tag with the base-64 text of a non-empty
    content; and it performs at most one request or [open]. *)
Theorem image_to_html_fragments (w : world) (x : pyobj) (width : Z) (frag : text) :
  result (image_to_html x width) w = Ok frag ->
  (frag = no_image \/ frag = not_found
   \/ exists b, b <> [] /\ frag = img_tag (b64encode b) width)
  /\ length (trace (image_to_html x width) w) <= 1.
Proof.
  intros H. split; [by apply (image_to_html_forms w x)|].
  destruct (no_image_source x) eqn:Hs.
  - unfold trace, image_to_html. rewrite Hs. simpl. lia.
  - unfold trace. rewrite image_to_html_bytes by exact Hs.
    pose proof (image_bytes_trace w x) as Hl. unfold trace in Hl. unfold bind.
    destruct (image_bytes x w) as [[b|e] log]; simpl in *; [|exact Hl].
    by rewrite app_nil_r.
Qed.

Lemma image_to_html_fragments_witness :
  (not_found = no_image \/ not_found = not_found
   \/ exists b, b <> [] /\ not_found = img_tag (b64encode b) 320)
  /\ length (trace (image_to_html (Cell (VStr (str "a.png"))) 320) offline) <= 1.
Proof.
  apply (image_to_html_fragments offline (Cell (VStr (str "a.png"))) 320 not_found).
  reflexivity.
Defined.

(** ** Texts that the normaliser leaves alone *)

Lemma match_at_fence_other c s :
  c <> ch_backtick -> match_at fence_re (c :: s) = None.
Proof.
  intros Hc. apply ascii_eqb_neq in Hc.
  unfold match_at, fence_re.
  change (str "```") with (ch_backtick :: str "``").
  cbn [RLit rmatch cclass_matches]. by rewrite Hc.
Qed.

Lemma findall_fence_none s : ch_backtick ∉ s -> findall fence_re s = [].
Proof.
  unfold findall, scan. induction s as [|c s IH]; intros Hs; [reflexivity|].
  apply not_elem_of_cons in Hs as [Hc Hs]. cbn [scan_from].
  rewrite match_at_fence_other by congruence. simpl. auto.
Qed.

Lemma contains_absent c p s : c ∉ s -> contains (c :: p) s = false.
Proof.
  induction s as [|x s IH]; intros Hs; [reflexivity|].
  apply not_elem_of_cons in Hs as [Hx Hs]. cbn [contains startswith].
  assert (E : ascii_eqb x c = false) by (apply ascii_eqb_neq; congruence).
  rewrite E. simpl. auto.
Qed.

Lemma first_line_subset c s : c ∈ first_line s -> c ∈ s.
Proof.
  induction s as [|x s IH]; simpl; [done|].
  destruct (ascii_eqb x ch_newline).
  - intros H. by apply elem_of_nil in H.
  - intros H. apply elem_of_cons in H as [->|H]; [left | right; auto].
Qed.

Lemma extract_fenced_plain t :
  contains (str "```") (first_line t) = false -> extract_fenced false t = t.
Proof. intros H. unfold extract_fenced. rewrite H, andb_false_r. reflexivity. Qed.

Lemma extract_fenced_no_backtick md t : ch_backtick ∉ t -> extract_fenced md t = t.
Proof.
  intros H. unfold extract_fenced. rewrite findall_fence_none by exact H.
  by destruct (_ || _).
Qed.

(** X3: a text without a backtick is not touched by the extraction of a
    fenced block, with or without [is_markdown]; and without
    [is_markdown], a text is not touched unless its first line has three
    backticks in a row. *)
Theorem extract_fenced_needs_fence (t : text) (md : bool) :
  ch_backtick ∉ t \/ (md = false /\ contains (str "```") (first_line t) = false) ->
  extract_fenced md t = t.
Proof.
  intros [H | [-> H]].
  - by apply extract_fenced_no_backtick.
  - by apply extract_fenced_plain.
Qed.

Lemma extract_fenced_needs_fence_witness :
  extract_fenced true (str "no fence here") = str "no fence here"
  /\ extract_fenced false (str "first line" ++ [ch_newline] ++ str "```x```")
     = str "first line" ++ [ch_newline] ++ str "```x```".
Proof.
  split.
  - apply extract_fenced_needs_fence. left. apply has_char_false. reflexivity.
  - apply extract_fenced_needs_fence. right. split; reflexivity.
Defined.

Lemma occurs_single c s : occurs [c] s <-> c ∈ s.
Proof.
  split.
  - intros (a & b & ->). apply elem_of_app. right. left.
  - intros H. apply list_elem_of_split in H as (a & b & ->). by exists a, b.
Qed.

Lemma occurs_head c t s : occurs (c :: t) s -> c ∈ s.
Proof. intros (a & b & ->). apply elem_of_app. right. left. Qed.

(** A text in which [old] does not occur is left as it is. *)
Lemma replace_absent o old new s :
  ~ occurs (o :: old) s -> replace (o :: old) new s = s.
Proof.
  apply (replace_ind o old new (fun s r => ~ occurs (o :: old) s -> r = s)).
  - done.
  - intros c s' _ IH H. f_equal. apply IH. intros Ho. apply H.
    apply occurs_cons. by right.
  - intros rest _ H. exfalso. apply H. by exists [], rest.
Qed.

Lemma replace_all_absent rules s :
  Forall (fun r => fst r <> [] /\ ~ occurs (fst r) s) rules ->
  replace_all rules s = s.
Proof.
  induction 1 as [|[old new] rules [Hne Hr] _ IH]; [reflexivity|].
  rewrite replace_all_cons. cbn [fst snd] in *.
  destruct old as [|o old]; [done|]. by rewrite replace_absent.
Qed.

Lemma textual_output_no_newline_markup s : ch_newline ∉ markup s.
Proof.
  rewrite markup_eq. intros H. apply occurs_single in H.
  apply sub_math_reflects in H.
  - apply occurs_single in H. revert H. apply collapse_no_newline, stage_no_newline.
  - intros c Hc. apply list_elem_of_singleton in Hc as ->.
    apply has_char_false. reflexivity.
Qed.

(** X4: the processed text of any cell has no newline character: every
    line break of the input has become [<br>] or has been stripped. *)
Theorem textual_output_no_newline (v : value) (md : bool) :
  ch_newline ∉ process_textual_content v md.
Proof. apply textual_output_no_newline_markup. Qed.

Lemma markup_plain t :
  ch_newline ∉ t -> ~ occurs (str "\n") t -> ch_dollar ∉ t ->
  (forall tag, tag ∈ special_tags -> ~ occurs tag t) ->
  markup t = strip t.
Proof.
  intros Hnl Hbn Hd Htags. rewrite markup_eq.
  assert (Hsub : forall u, occurs u (strip t) -> occurs u t)
    by (intros u; apply strip_reflects).
  assert (Hc : forall c, c ∉ t -> c ∉ strip t).
  { intros c Hc H. apply Hc. apply occurs_single, Hsub, occurs_single, H. }
  rewrite replace_all_absent.
  - rewrite (replace_idle ch_dollar [ch_dollar]) by auto.
    apply sub_math_idle. auto.
  - unfold stage_rules. constructor; [|constructor].
    + split; [discriminate|]. intros H. apply occurs_single in H. by apply (Hc ch_newline).
    + split; [discriminate|]. intros H. by apply Hbn, Hsub.
    + unfold tag_rules. apply Forall_forall. intros r Hr.
      apply list_elem_of_In, in_map_iff in Hr as (tag & <- & Hin). cbn [fst].
      apply list_elem_of_In in Hin. split.
      * rewrite special_tags_brackets in Hin. apply list_elem_of_In, in_map_iff in Hin.
        by destruct Hin as (body & <- & _).
      * intros H. by apply (Htags tag Hin), Hsub.
Qed.

(** X5: when the text left after the extraction of a fenced block has no
    newline, no backslash followed by [n], no dollar and none of the
    special tags, the processed text is that text stripped of the
    whitespace at its ends, and nothing else is changed. *)
Theorem text_without_markup_stripped (t : text) (md : bool) :
  ch_newline ∉ extract_fenced md t ->
  ~ occurs (str "\n") (extract_fenced md t) ->
  ch_dollar ∉ extract_fenced md t ->
  (forall tag, tag ∈ special_tags -> ~ occurs tag (extract_fenced md t)) ->
  process_textual_content (VStr t) md = strip (extract_fenced md t).
Proof. intros. by apply markup_plain. Qed.

Lemma lstrip_blank t : forallb isspace t = true -> lstrip t = [].
Proof.
  induction t as [|c t IH]; [reflexivity|]. cbn [forallb lstrip].
  intros H. apply andb_true_iff in H as [-> H]. auto.
Qed.

(** X6: a text of whitespace only, the empty text too, is processed to
    the empty text, with or without [is_markdown]. *)
Theorem blank_text_gives_empty (t : text) (md : bool) :
  forallb isspace t = true -> process_textual_content (VStr t) md = [].
Proof.
  intros H. unfold process_textual_content.
  rewrite extract_fenced_no_backtick.
  - rewrite markup_eq. unfold strip. rewrite lstrip_blank by exact H. reflexivity.
  - intros Hin. apply list_elem_of_In in Hin.
    apply (proj1 (forallb_forall _ _) H) in Hin. discriminate Hin.
Qed.

Lemma blank_text_gives_empty_witness :
  process_textual_content (VStr (str "  " ++ [ch_newline] ++ str " ")) true = [].
Proof. apply blank_text_gives_empty. reflexivity. Defined.

(** ** Image fragments in a textual column *)

Lemma img_tag_shape e width : img_tag e width = img_prefix ++ e ++ img_suffix width.
Proof. unfold img_tag, img_prefix, img_suffix. rewrite <- !app_assoc. reflexivity. Qed.

Lemma has_char_true c s : has_char c s = true <-> c ∈ s.
Proof.
  destruct (has_char c s) eqn:E.
  - split; [intros _|done]. apply existsb_exists in E as (x & Hx & Ex).
    apply ascii_eqb_eq in Ex as ->. by apply list_elem_of_In.
  - apply has_char_false in E. split; [discriminate | done].
Qed.

Lemma b64_char_in n : b64_char n ∈ b64_chars.
Proof.
  unfold b64_char. apply list_elem_of_In.
  destruct (nth_in_or_default (N.to_nat n)
              (str "ABCDEFGHIJKLMNOPQRSTUVWXYZabcdefghijklmnopqrstuvwxyz0123456789+/")
              "="%char) as [H| ->].
  - unfold b64_chars.
    change (str "ABCDEFGHIJKLMNOPQRSTUVWXYZabcdefghijklmnopqrstuvwxyz0123456789+/=")
      with (str "ABCDEFGHIJKLMNOPQRSTUVWXYZabcdefghijklmnopqrstuvwxyz0123456789+/"
            ++ str "=").
    apply in_or_app. by left.
  - apply list_elem_of_In. apply has_char_true. reflexivity.
Qed.

Lemma b64encode_chars_le n b c :
  length b <= n -> c ∈ b64encode b -> c ∈ b64_chars.
Proof.
  revert b; induction n as [|n IH]; intros b Hn.
  - destruct b; [|simpl in Hn; lia]. intros H. by apply elem_of_nil in H.
  - destruct b as [|x [|y [|z rest]]].
    + intros H. by apply elem_of_nil in H.
    + cbn [b64encode]. intros H.
      repeat (apply elem_of_cons in H as [->|H];
              [first [apply b64_char_in | apply has_char_true; reflexivity]|]).
      by apply elem_of_nil in H.
    + cbn [b64encode]. intros H.
      repeat (apply elem_of_cons in H as [->|H];
              [first [apply b64_char_in | apply has_char_true; reflexivity]|]).
      by apply elem_of_nil in H.
    + cbn [b64encode]. intros H. apply elem_of_app in H as [H|H].
      * repeat (apply elem_of_cons in H as [->|H]; [apply b64_char_in|]).
        by apply elem_of_nil in H.
      * apply (IH rest); [simpl in Hn; lia | exact H].
Qed.

Lemma b64encode_lacks c b : has_char c b64_chars = false -> c ∉ b64encode b.
Proof.
  intros Hc H. apply (b64encode_chars_le (length b) b c (le_n _)) in H.
  by apply has_char_false in Hc.
Qed.

Lemma img_tag_lacks c b :
  has_char c (img_prefix ++ b64_chars ++ img_suffix default_width) = false ->
  c ∉ img_tag (b64encode b) default_width.
Proof.
  intros H. apply has_char_false in H. rewrite img_tag_shape.
  apply not_elem_of_app in H as [H1 H]. apply not_elem_of_app in H as [H2 H3].
  apply not_elem_of_app. split; [exact H1|].
  apply not_elem_of_app. split; [|exact H3].
  apply b64encode_lacks. by apply has_char_false.
Qed.

Lemma strip_solid c m e :
  isspace c = false -> isspace e = false -> strip (c :: m ++ [e]) = c :: m ++ [e].
Proof.
  intros Hc He. unfold strip. cbn [lstrip]. rewrite Hc.
  change (c :: m ++ [e]) with ((c :: m) ++ [e]). by rewrite rstrip_app.
Qed.

Lemma img_tag_no_tag b tag :
  tag ∈ special_tags -> ~ occurs tag (img_tag (b64encode b) default_width).
Proof.
  intros Hin H.
  assert (Hall : forallb (fun tag => match tag with
                                     | o :: _ => ascii_eqb o ch_lt && clashb tag img_prefix
                                     | [] => false
                                     end) special_tags = true)
    by (vm_compute; reflexivity).
  pose proof (proj1 (forallb_forall _ _) Hall tag (proj1 (list_elem_of_In _ _) Hin)) as Hc.
  cbv beta in Hc. destruct tag as [|o tag]; [discriminate|].
  apply andb_true_iff in Hc as [Ho Hclash]. apply ascii_eqb_eq in Ho as ->.
  assert (Hlt : ch_lt ∉ tail (img_tag (b64encode b) default_width)).
  { rewrite img_tag_shape. change (tail (img_prefix ++ ?x)) with (tail img_prefix ++ x).
    apply not_elem_of_app. split; [apply has_char_false; reflexivity|].
    apply not_elem_of_app. split; [|apply has_char_false; vm_compute; reflexivity].
    apply b64encode_lacks. reflexivity. }
  assert (Hsw : startswith (img_tag (b64encode b) default_width) (ch_lt :: tag) = false).
  { rewrite img_tag_shape. by apply clashb_startswith. }
  rewrite img_tag_shape in H, Hlt, Hsw.
  change (img_prefix ++ ?x) with (ch_lt :: tail img_prefix ++ x) in H, Hlt, Hsw.
  apply occurs_cons in H as [H|H].
  - apply startswith_prefix in H. congruence.
  - apply occurs_head in H. by apply Hlt.
Qed.

Lemma img_tag_ends e width : exists m, img_tag e width = ch_lt :: m ++ [ch_gt].
Proof.
  exists (tail img_prefix ++ e ++ dq ++ str " width=" ++ dq ++ int_str width ++ dq
          ++ str " alt=" ++ dq ++ str "Embedded Image" ++ dq).
  unfold img_tag. rewrite <- !app_assoc. reflexivity.
Qed.

Lemma img_tag_survives b :
  process_textual_content (VStr (img_tag (b64encode b) default_width)) false
  = img_tag (b64encode b) default_width.
Proof.
  unfold process_textual_content.
  rewrite extract_fenced_no_backtick
    by (apply img_tag_lacks; vm_compute; reflexivity).
  rewrite markup_plain.
  - destruct (img_tag_ends (b64encode b) default_width) as [m ->].
    by apply strip_solid.
  - apply img_tag_lacks. vm_compute. reflexivity.
  - intros H. apply occurs_head in H. revert H.
    apply img_tag_lacks. vm_compute. reflexivity.
  - apply img_tag_lacks. vm_compute. reflexivity.
  - intros tag. apply img_tag_no_tag.
Qed.

(** X7: the fragment that [image_to_html] returns for the default width,
    a placeholder or an [img] tag, is left as it is by the textual
    normaliser; so a column that is an image column and a textual column
    at once, as [image_caption], shows its images. *)
Theorem image_fragment_survives_textual (w : world) (x : pyobj) (frag : text) :
  result (image_to_html x default_width) w = Ok frag ->
  process_textual_content (VStr frag) false = frag.
Proof.
  intros H. apply image_to_html_forms in H as [-> | [-> | (b & _ & ->)]].
  - vm_compute. reflexivity.
  - vm_compute. reflexivity.
  - apply img_tag_survives.
Qed.

Lemma image_fragment_survives_textual_witness :
  process_textual_content (VStr (img_tag (str "UE5H") 320)) false
  = img_tag (str "UE5H") 320.
Proof.
  apply (image_fragment_survives_textual serving (Cell (VStr (str "a.png")))).
  reflexivity.
Defined.

(** ** Structured cells *)

Lemma replace_single c new s :
  replace [c] new s = flat_map (fun x => if ascii_eqb x c then new else [x]) s.
Proof.
  apply (replace_ind c [] new
           (fun s r => r = flat_map (fun x => if ascii_eqb x c then new else [x]) s)).
  - reflexivity.
  - intros x s' Hmiss ->. cbn [flat_map]. cbn [startswith] in Hmiss.
    rewrite andb_true_r in Hmiss. by rewrite Hmiss.
  - intros rest ->. cbn [app flat_map]. by rewrite ascii_eqb_refl.
Qed.

Lemma flat_map_twice {A B C} (f : A -> list B) (g : B -> list C) (l : list A) :
  flat_map g (flat_map f l) = flat_map (fun x => flat_map g (f x)) l.
Proof.
  induction l as [|x l IH]; [reflexivity|].
  cbn [flat_map]. by rewrite flat_map_app, IH.
Qed.

Lemma format_structured_layout x :
  is_container x = true ->
  format_structured x = VStr (flat_map layout_char (json_dumps x)).
Proof.
  intros H. unfold format_structured. rewrite H. f_equal.
  change (str " ") with [" "%char]. rewrite !replace_single, flat_map_twice.
  apply flat_map_ext. intros c. unfold layout_char.
  destruct (ascii_eqb c ch_newline) eqn:En; [reflexivity|].
  cbn [flat_map]. by rewrite app_nil_r.
Qed.

(** X8: a dict or list cell becomes its JSON text, as [json.dumps]
    writes it with an indent of 2, in which every newline is written
    [<br>] and every space [&nbsp;], and no other character is changed;
    so the text has no space and no newline. *)
Theorem structured_cell_layout (x : value) :
  is_container x = true ->
  exists s, format_structured x = VStr s
            /\ s = flat_map layout_char (json_dumps x)
            /\ (" "%char ∉ s) /\ (ch_newline ∉ s).
Proof.
  intros H. exists (flat_map layout_char (json_dumps x)).
  split; [by apply format_structured_layout|]. split; [reflexivity|].
  assert (Hs : format_structured x = VStr (flat_map layout_char (json_dumps x)))
    by by apply format_structured_layout.
  unfold format_structured in Hs. rewrite H in Hs. injection Hs as <-.
  split.
  - apply (replace_char_gone " "%char (str "&nbsp;")).
    apply has_char_false. reflexivity.
  - apply (replace_keeps_absent " "%char [] (str "&nbsp;")).
    + apply has_char_false. reflexivity.
    + apply replace_char_gone. apply has_char_false. reflexivity.
Qed.

Lemma structured_cell_layout_witness :
  exists s, format_structured (VDict [(str "a", VList [VInt 1; VInt 2])]) = VStr s
            /\ s = str "{<br>&nbsp;&nbsp;" ++ dq ++ str "a" ++ dq
                   ++ str ":&nbsp;[<br>&nbsp;&nbsp;&nbsp;&nbsp;1,<br>&nbsp;&nbsp;&nbsp;&nbsp;2<br>&nbsp;&nbsp;]<br>}"
            /\ (" "%char ∉ s) /\ (ch_newline ∉ s).
Proof. apply structured_cell_layout. reflexivity. Defined.

Lemma text_without_markup_stripped_witness :
  process_textual_content (VStr (str "  see <b>this</b> ")) false = str "see <b>this</b>".
Proof.
  apply (text_without_markup_stripped (str "  see <b>this</b> ") false).
  - apply has_char_false. vm_compute. reflexivity.
  - intros H. apply contains_occurs in H. vm_compute in H. discriminate H.
  - apply has_char_false. vm_compute. reflexivity.
  - intros tag Hin H. apply contains_occurs in H.
    apply list_elem_of_In in Hin. simpl in Hin.
    repeat (destruct Hin as [<-|Hin]; [vm_compute in H; discriminate H|]).
    destruct Hin.
Defined.

(** ** Columns of the transformer *)

Lemma default_hint_has_pattern x :
  mem x default_textual_cols = true ->
  lower x = x /\ existsb (fun pattern => contains pattern x) textual_patterns = true.
Proof.
  intros H. apply mem_elem_of, list_elem_of_In in H. simpl in H.
  repeat (destruct H as [<-|H]; [split; vm_compute; reflexivity|]). destruct H.
Qed.

Lemma is_textual_default col : is_textual col default_textual_cols = is_textual col [].
Proof.
  unfold is_textual. cbn [mem existsb orb].
  destruct (mem col default_textual_cols) eqn:A.
  - apply default_hint_has_pattern in A as [-> ->]. by rewrite orb_true_r.
  - destruct (mem (lower col) default_textual_cols) eqn:B; [|reflexivity].
    by apply default_hint_has_pattern in B as [_ ->].
Qed.

(** X9: the default hint list adds nothing to the built-in name
    patterns: a column is textual under the default hints exactly when it
    is under no hints, and the transformer called without [textual_cols]
    does what it does with the empty list. *)
Theorem default_hints_add_nothing (df : DataFrame)
  (merge_cols drop_cols : option (list text)) (w : world) :
  (forall col, is_textual col default_textual_cols = is_textual col [])
  /\ process_dataframe df None merge_cols drop_cols w
     = process_dataframe df (Some []) merge_cols drop_cols w.
Proof.
  split; [apply is_textual_default|].
  unfold process_dataframe. cbn [default].
  apply bind_ext; [reflexivity|]. intros df1.
  apply bind_ext; [reflexivity|]. intros df2.
  apply bind_ext; [|reflexivity].
  unfold textual_pass. apply apply_where_ext; [|reflexivity].
  intros col _. apply is_textual_default.
Qed.

Lemma filter_ext_in {A} (P Q : A -> Prop) `{!forall x, Decision (P x)}
  `{!forall x, Decision (Q x)} (l : list A) :
  (forall x, x ∈ l -> P x <-> Q x) -> filter P l = filter Q l.
Proof.
  induction l as [|x l IH]; intros Hpq; [reflexivity|].
  assert (Hx := Hpq x (list_elem_of_here _ _)).
  assert (Hl : filter P l = filter Q l).
  { apply IH. intros y Hy. apply Hpq. by right. }
  destruct (decide (P x)) as [p|p].
  - rewrite !filter_cons_True by tauto. by rewrite Hl.
  - rewrite !filter_cons_False by tauto. exact Hl.
Qed.

Lemma names_filter (P : text -> Prop) `{!forall n, Decision (P n)}
  (cols : list (text * list value)) :
  map fst (filter (fun c => P (fst c)) cols) = filter P (map fst cols).
Proof.
  induction cols as [|c cols IH]; [reflexivity|]. cbn [map].
  destruct (decide (P (fst c))) as [p|p].
  - rewrite !filter_cons_True by exact p. cbn [map]. by rewrite IH.
  - rewrite !filter_cons_False by exact p. exact IH.
Qed.

Lemma mem_filter_present x names l :
  mem x names = true ->
  mem x (filter (fun col => mem col names = true) l) = mem x l.
Proof.
  intros Hx. destruct (mem x l) eqn:E.
  - apply mem_elem_of. apply list_elem_of_filter. split; [exact Hx|].
    by apply mem_elem_of.
  - apply mem_false. apply mem_false in E. intros H. apply E.
    by apply list_elem_of_filter in H as [_ H].
Qed.

Lemma drop_present_names names drop_cols (cols : list (text * list value)) :
  (forall c, c ∈ cols -> mem (fst c) names = true) ->
  map fst (filter (fun c => mem (fst c)
                              (filter (fun col => mem col names = true) drop_cols)
                            = false) cols)
  = filter (fun n => mem n drop_cols = false) (map fst cols).
Proof.
  induction cols as [|c cols IH]; intros Hin; [reflexivity|]. cbn [map].
  assert (Hc := mem_filter_present (fst c) names drop_cols
                  (Hin c (list_elem_of_here _ _))).
  assert (Hrest : forall c', c' ∈ cols -> mem (fst c') names = true)
    by (intros c' Hc'; apply Hin; by right).
  destruct (mem (fst c) drop_cols) eqn:E.
  - rewrite !filter_cons_False by (rewrite ?Hc, ?E; discriminate). auto.
  - rewrite !filter_cons_True by (rewrite ?Hc, ?E; reflexivity).
    cbn [map]. f_equal. auto.
Qed.

Lemma drop_pass_names drop_cols df :
  column_names (drop_pass drop_cols df)
  = filter (fun n => mem n drop_cols = false) (column_names df).
Proof.
  unfold drop_pass. destruct drop_cols as [|a l].
  - symmetry. induction (column_names df) as [|n names IH]; [reflexivity|].
    rewrite filter_cons_True by reflexivity. by rewrite IH.
  - unfold drop_columns, column_names at 1. cbn [columns].
    apply drop_present_names. intros c Hc. apply mem_elem_of.
    unfold column_names. apply list_elem_of_In, in_map. by apply list_elem_of_In.
Qed.

Lemma valid_merge_cols_names df df' merge_cols :
  column_names df' = column_names df ->
  valid_merge_cols df' merge_cols = valid_merge_cols df merge_cols.
Proof. intros H. unfold valid_merge_cols. by rewrite H. Qed.

Lemma merge_pass_few merge_cols df :
  length (valid_merge_cols df (default [] merge_cols)) < 2 ->
  merge_pass merge_cols df = df.
Proof.
  unfold merge_pass. destruct merge_cols as [[|a [|b l]]|]; try reflexivity.
  intros H. change (default [] (Some (a :: b :: l))) with (a :: b :: l) in H.
  destruct (1 <? length (valid_merge_cols df (a :: b :: l))) eqn:E; [|reflexivity].
  apply Nat.ltb_lt in E. lia.
Qed.

(** X10: when fewer than two of the names to merge are columns of the
    frame, so that nothing is merged, the columns of the output are the
    columns of the input in their order, without those named in
    [drop_cols]; a name in [drop_cols] that is no column is ignored. *)
Theorem columns_without_merge (df df' : DataFrame)
  (textual_cols merge_cols drop_cols : option (list text)) (w : world) :
  length (valid_merge_cols df (default [] merge_cols)) < 2 ->
  result (process_dataframe df textual_cols merge_cols drop_cols) w = Ok df' ->
  column_names df'
  = filter (fun n => mem n (default [] drop_cols) = false) (column_names df).
Proof.
  intros Hfew H. apply process_dataframe_result in H as (df3 & Hr & ->).
  apply rendered_by_names in Hr.
  rewrite merge_pass_few by (by rewrite (valid_merge_cols_names df)).
  by rewrite drop_pass_names, Hr.
Qed.

Lemma columns_without_merge_witness :
  exists df',
    result (process_dataframe example_frame None (Some [str "nope"; str "score"])
              (Some [str "meta"; str "absent"])) serving = Ok df'
    /\ column_names df' = [str "question"; str "image_path"; str "score"].
Proof.
  eexists. split; [vm_compute; reflexivity|].
  apply (columns_without_merge example_frame _ None (Some [str "nope"; str "score"])
           (Some [str "meta"; str "absent"]) serving);
    [vm_compute; lia | vm_compute; reflexivity].
Defined.

Lemma Forall2_same {A} (f : A -> outcome A) (l l' : list A) :
  Forall2 (fun x y => f x = Ok y) l l' -> Forall (fun x => f x = Ok x) l -> l' = l.
Proof.
  induction 1 as [|x y l l' Hxy _ IH]; intros Hl; [reflexivity|].
  apply Forall_cons in Hl as [Hx Hl]. rewrite Hx in Hxy. injection Hxy as <-.
  f_equal. auto.
Qed.

Lemma format_structured_plain x : is_container x = false -> format_structured x = x.
Proof. intros H. unfold format_structured. by rewrite H. Qed.

Lemma drop_pass_keeps drop_cols df c :
  c ∈ columns df -> mem (fst c) drop_cols = false -> c ∈ columns (drop_pass drop_cols df).
Proof.
  intros Hc Hm. unfold drop_pass. destruct drop_cols as [|a l]; [exact Hc|].
  unfold drop_columns. cbn [columns]. apply list_elem_of_filter. split; [|exact Hc].
  apply mem_false. apply mem_false in Hm. intros H. apply Hm.
  by apply list_elem_of_filter in H as [_ H].
Qed.

(** X11: a column that is neither an image column nor a textual column,
    has no dict or list cell, and is not named in [drop_cols], is in the
    output with the cells it had, when nothing is merged. *)
Theorem plain_column_unchanged (df df' : DataFrame)
  (textual_cols merge_cols drop_cols : option (list text)) (w : world)
  (col : text) (cells : list value) :
  (col, cells) ∈ columns df ->
  is_image_column col = false ->
  is_textual col (default default_textual_cols textual_cols) = false ->
  is_structured_column cells = false ->
  length (valid_merge_cols df (default [] merge_cols)) < 2 ->
  mem col (default [] drop_cols) = false ->
  result (process_dataframe df textual_cols merge_cols drop_cols) w = Ok df' ->
  (col, cells) ∈ columns df'.
Proof.
  intros Hin Himg Htext Hplain Hfew Hdrop H.
  apply process_dataframe_result in H as (df3 & Hr & ->).
  assert (Hnames := rendered_by_names _ _ _ _ Hr).
  destruct Hr as [_ Hcols].
  rewrite merge_pass_few by (by rewrite (valid_merge_cols_names df)).
  apply drop_pass_keeps; [|exact Hdrop].
  apply list_elem_of_lookup in Hin as [i Hi].
  destruct (Forall2_lookup_l _ _ _ _ _ Hcols Hi) as ([col' cells'] & Hi' & Hn & Hcells).
  cbn [fst snd] in Hn, Hcells. subst col'.
  apply (Forall2_same (fun x => result (cell_rule _ col x) w)) in Hcells.
  - subst cells'. by apply list_elem_of_lookup_2 in Hi'.
  - apply Forall_forall. intros x Hx.
    unfold cell_rule. rewrite Himg, Htext. unfold result, bind, ret. cbn [fst].
    rewrite format_structured_plain; [reflexivity|].
    unfold is_structured_column in Hplain.
    destruct (is_container x) eqn:E; [|reflexivity].
    assert (existsb is_container cells = true); [|congruence].
    apply existsb_exists. exists x. split; [by apply list_elem_of_In | exact E].
Qed.

Lemma plain_column_unchanged_witness :
  exists df',
    result (process_dataframe example_frame None None None) serving = Ok df'
    /\ (str "score", [VInt 1; VInt 2; VInt 3]) ∈ columns df'.
Proof.
  eexists. split; [vm_compute; reflexivity|].
  apply (plain_column_unchanged example_frame _ None None None serving
           (str "score") [VInt 1; VInt 2; VInt 3]);
    [ do 3 right; left | reflexivity | reflexivity | reflexivity
    | vm_compute; lia | reflexivity | vm_compute; reflexivity ].
Defined.

Lemma mapM_pure_in {A B} (f : A -> io B) (g : A -> B) (l : list A) w :
  (forall x, x ∈ l -> f x w = (Ok (g x), [])) -> mapM f l w = (Ok (map g l), []).
Proof.
  induction l as [|x l IH]; intros H; [reflexivity|].
  cbn [mapM map]. rewrite (bind_pure _ (g x)) by (apply H; left).
  rewrite (bind_pure _ (map g l)) by (apply IH; intros y Hy; apply H; by right).
  reflexivity.
Qed.

Lemma apply_where_untested test f df w :
  (forall c, c ∈ columns df -> test (fst c) (snd c) = false) ->
  apply_where test f df w = (Ok df, []).
Proof.
  intros H. unfold apply_where.
  rewrite (bind_pure _ (map id (columns df))).
  - rewrite map_id. by destruct df.
  - apply mapM_pure_in. intros c Hc. by rewrite (H c Hc).
Qed.

(** X12: on a frame without a column whose lower-cased name has [image]
    or [graph] in it, the transformer makes no request, opens no file and
    raises nothing; its result is the same in every world. *)
Theorem no_io_without_image_columns (df : DataFrame)
  (textual_cols merge_cols drop_cols : option (list text)) :
  (forall col, col ∈ column_names df -> is_image_column col = false) ->
  exists df', forall w : world,
    process_dataframe df textual_cols merge_cols drop_cols w = (Ok df', []).
Proof.
  intros Himg.
  set (df1 := {| index := index df;
                 columns := map (fun c => if is_structured_column (snd c)
                                          then (fst c, map format_structured (snd c))
                                          else c) (columns df) |}).
  set (hints := default default_textual_cols textual_cols).
  set (df3 := {| index := index df1;
                 columns := map (fun c => if is_textual (fst c) hints
                                          then (fst c, map textual_cell (snd c))
                                          else c) (columns df1) |}).
  exists (drop_pass (default [] drop_cols) (merge_pass merge_cols df3)).
  intros w. rewrite process_dataframe_eq.
  apply (bind_pure _ df3). unfold cell_passes, structured_pass.
  rewrite (bind_pure _ df1)
    by apply (apply_where_pure (fun _ cells => is_structured_column cells)
                (fun _ x => format_structured x) df w).
  rewrite (bind_pure (image_pass df1) df1).
  - apply textual_pass_columns.
  - apply apply_where_untested.
    intros c Hc. cbn [columns] in Hc. apply list_elem_of_In, in_map_iff in Hc.
    destruct Hc as (c0 & <- & Hc0). apply Himg.
    unfold column_names. apply list_elem_of_In.
    replace (fst (if is_structured_column (snd c0)
                  then (fst c0, map format_structured (snd c0)) else c0))
      with (fst c0) by (by destruct (is_structured_column _)).
    by apply in_map.
Qed.

Lemma no_io_without_image_columns_witness :
  exists df', forall w : world,
    process_dataframe notes_frame None None None w = (Ok df', []).
Proof.
  apply no_io_without_image_columns. intros col Hcol.
  apply list_elem_of_In in Hcol. simpl in Hcol. destruct Hcol as [<-|[]]. reflexivity.
Defined.

(** ** The Resample button *)

(** X14: a resample whose size field is empty or not a number, or holds
    a size that is not positive or is above the number of rows, changes
    nothing on the page. *)
Theorem resample_out_of_range {Row : Type} (draw : nat -> nat)
  (data : list Row) (size : option Z) (p : page) :
  match size with
  | Some z => (z <= 0 \/ Z.of_nat (length data) < z)%Z
  | None => True
  end ->
  resampleData draw data size p = p.
Proof.
  intros H. unfold resampleData. destruct size as [z|]; [|reflexivity].
  destruct ((0 <? z) && (z <=? Z.of_nat (length data)))%Z eqn:E; [|reflexivity].
  apply andb_true_iff in E as [E1 E2]. lia.
Qed.

Lemma resample_out_of_range_witness :
  resampleData (fun i => i) [1; 2; 3] (Some 4%Z) {| table_rows := []; badge := str "0 rows" |}
  = {| table_rows := []; badge := str "0 rows" |}.
Proof. apply (resample_out_of_range (fun i => i) [1; 2; 3] (Some 4%Z)). right. simpl. lia. Defined.

Lemma shuffled_indices_sample draw n k :
  k <= n ->
  NoDup (take k (shuffled_indices draw n))
  /\ length (take k (shuffled_indices draw n)) = k
  /\ Forall (fun i => i < n) (take k (shuffled_indices draw n)).
Proof.
  intros Hk. pose proof (shuffled_indices_perm draw n) as Hperm.
  assert (Hnd : NoDup (shuffled_indices draw n)).
  { rewrite Hperm. apply NoDup_ListNoDup, seq_NoDup. }
  assert (Hlen : length (shuffled_indices draw n) = n).
  { rewrite Hperm. apply length_seq. }
  rewrite <- (take_drop k (shuffled_indices draw n)) in Hnd.
  apply NoDup_app in Hnd as (Hnd & _ & _).
  split; [exact Hnd|]. split.
  - rewrite length_take. lia.
  - apply Forall_forall. intros i Hi.
    assert (Hin : i ∈ shuffled_indices draw n).
    { rewrite <- (take_drop k). apply elem_of_app. by left. }
    rewrite Hperm in Hin. apply list_elem_of_In, in_seq in Hin. lia.
Qed.

(** X15: a resample of a size [k] between 1 and the number of rows fills
    the table with [k] rows of the data, taken at [k] different
    positions, so without a repeat, and sets the badge to [k rows]. *)
Theorem resample_distinct_rows {Row : Type} (draw : nat -> nat)
  (data : list Row) (size : Z) (p : page) :
  (forall i, draw i <= i) ->
  (0 < size <= Z.of_nat (length data))%Z ->
  exists idx,
    NoDup idx
    /\ length idx = Z.to_nat size
    /\ Forall (fun i => exists row, data !! i = Some row) idx
    /\ table_rows (resampleData draw data (Some size) p) = map (fun i => data !! i) idx
    /\ badge (resampleData draw data (Some size) p) = int_str size ++ str " rows".
Proof.
  intros _ Hsize. unfold resampleData.
  assert (E : ((0 <? size) && (size <=? Z.of_nat (length data)))%Z = true).
  { apply andb_true_iff. split; [apply Z.ltb_lt | apply Z.leb_le]; lia. }
  rewrite E. cbn [table_rows badge].
  destruct (shuffled_indices_sample draw (length data) (Z.to_nat size))
    as (Hnd & Hlen & Hlt); [lia|].
  exists (take (Z.to_nat size) (shuffled_indices draw (length data))).
  split; [exact Hnd|]. split; [exact Hlen|]. split; [|split; reflexivity].
  apply Forall_forall. intros i Hi.
  apply (proj1 (Forall_forall _ _) Hlt) in Hi.
  by apply lookup_lt_is_Some_2 in Hi.
Qed.

Lemma resample_distinct_rows_witness :
  exists idx,
    NoDup idx
    /\ length idx = 2
    /\ Forall (fun i => exists row, [10; 20; 30] !! i = Some row) idx
    /\ table_rows (resampleData (fun _ => 0) [10; 20; 30] (Some 2%Z)
                     {| table_rows := []; badge := [] |})
       = map (fun i => [10; 20; 30] !! i) idx
    /\ badge (resampleData (fun _ => 0) [10; 20; 30] (Some 2%Z)
                {| table_rows := []; badge := [] |})
       = str "2 rows".
Proof.
  apply (resample_distinct_rows (fun _ => 0) [10; 20; 30] 2%Z); [lia | simpl; lia].
Defined.

(** ** Requests and opened files *)

Lemma trace_bind_le {A B} (m : io A) (f : A -> io B) w k :
  (forall a, length (trace (f a) w) <= k) ->
  length (trace (bind m f) w) <= length (trace m w) + k.
Proof.
  intros Hf. unfold trace, bind. destruct (m w) as [[a|e] log]; [|simpl; lia].
  specialize (Hf a). unfold trace in Hf. destruct (f a w) as [r log'].
  cbn [snd] in *. rewrite length_app. lia.
Qed.

Lemma trace_ret {A} (a : A) w : trace (ret a) w = [].
Proof. reflexivity. Qed.

Lemma mapM_trace_le {A B} (f : A -> io B) (b : A -> nat) (l : list A) w :
  (forall x, length (trace (f x) w) <= b x) ->
  length (trace (mapM f l) w) <= list_sum (map b l).
Proof.
  intros Hf. induction l as [|x l IH]; [simpl; lia|].
  cbn [mapM map list_sum].
  etransitivity; [apply (trace_bind_le _ _ w (list_sum (map b l)))|].
  - intros y. etransitivity; [apply (trace_bind_le _ _ w 0)|].
    + intros ys. rewrite trace_ret. simpl. lia.
    + lia.
  - specialize (Hf x). simpl. lia.
Qed.

Lemma image_to_html_trace_le w x width :
  length (trace (image_to_html x width) w) <= 1.
Proof.
  destruct (no_image_source x) eqn:Hs.
  - unfold trace, image_to_html. rewrite Hs. simpl. lia.
  - unfold trace. rewrite image_to_html_bytes by exact Hs.
    pose proof (image_bytes_trace w x) as Hl. unfold trace in Hl. unfold bind.
    destruct (image_bytes x w) as [[b|e] log]; simpl in *; [|exact Hl].
    by rewrite app_nil_r.
Qed.

Lemma cell_rule_trace_le textual_cols col x w :
  length (trace (cell_rule textual_cols col x) w)
  <= if is_image_column col then 1 else 0.
Proof.
  unfold cell_rule.
  etransitivity; [apply (trace_bind_le _ _ w 0); intros y; by rewrite trace_ret|].
  rewrite Nat.add_0_r. destruct (is_image_column col).
  - etransitivity; [apply (trace_bind_le _ _ w 0); intros y; by rewrite trace_ret|].
    rewrite Nat.add_0_r. apply image_to_html_trace_le.
  - by rewrite trace_ret.
Qed.

Lemma list_sum_const (k : nat) {A} (l : list A) :
  list_sum (map (fun _ => k) l) = k * length l.
Proof. induction l as [|x l IH]; simpl; lia. Qed.

(** X16: the transformer makes at most one request or [open] for each
    cell of an image column, and none for the other columns, in every
    world and whether or not it raises. *)
Theorem io_bounded_by_image_cells (df : DataFrame)
  (textual_cols merge_cols drop_cols : option (list text)) (w : world) :
  length (trace (process_dataframe df textual_cols merge_cols drop_cols) w)
  <= image_cells df.
Proof.
  unfold trace. rewrite process_dataframe_eq. fold (trace
    (bind (cell_passes (default default_textual_cols textual_cols) df)
       (fun df3 => ret (drop_pass (default [] drop_cols) (merge_pass merge_cols df3)))) w).
  etransitivity; [apply (trace_bind_le _ _ w 0); intros y; by rewrite trace_ret|].
  rewrite Nat.add_0_r. unfold trace. rewrite cell_passes_by_rule.
  fold (trace (apply_all (cell_rule (default default_textual_cols textual_cols)) df) w).
  unfold apply_all, apply_where.
  etransitivity; [apply (trace_bind_le _ _ w 0); intros y; by rewrite trace_ret|].
  rewrite Nat.add_0_r. unfold image_cells.
  apply mapM_trace_le. intros c.
  etransitivity; [apply (trace_bind_le _ _ w 0); intros y; by rewrite trace_ret|].
  rewrite Nat.add_0_r.
  etransitivity; [apply (mapM_trace_le _ (fun _ => if is_image_column (fst c) then 1 else 0));
                  intros x; apply cell_rule_trace_le|].
  rewrite list_sum_const. destruct (is_image_column (fst c)); lia.
Qed.

(** ** The encoded image *)

Lemma b64encode_length_le n b :
  length b <= n -> length (b64encode b) = 4 * ((length b + 2) / 3).
Proof.
  revert b; induction n as [|n IH]; intros b Hn.
  - destruct b; [reflexivity | simpl in Hn; lia].
  - destruct b as [|x [|y [|z rest]]]; try reflexivity.
    cbn [b64encode]. rewrite length_app, (IH rest) by (simpl in Hn; lia).
    cbn [length].
    replace (S (S (S (length rest))) + 2) with ((length rest + 2) + 1 * 3) by lia.
    rewrite Nat.div_add by lia. lia.
Qed.

Lemma image_to_base64_eq x to_base64 w :
  image_to_base64 x to_base64 w
  = bind (image_bytes x)
      (fun byte_arr => match to_base64, byte_arr with
                       | true, _ :: _ => ret (EncStr (b64encode byte_arr))
                       | _, _ => ret (EncBytes byte_arr)
                       end) w.
Proof. reflexivity. Qed.

(** X17: what [image_to_base64] returns when asked for base 64 is either
    the empty bytes, or a non-empty text of characters of the base-64
    alphabet and [=], four for every three bytes of the content, the last
    group filled up; asked for bytes, it returns the content as it is. *)
Theorem image_to_base64_returns (w : world) (x : pyobj) (to_base64 : bool)
  (e : encoded) :
  result (image_to_base64 x to_base64) w = Ok e ->
  exists b, result (image_bytes x) w = Ok b
    /\ match e with
       | EncBytes b' => b' = b /\ (to_base64 = true -> b = [])
       | EncStr s =>
           to_base64 = true /\ b <> [] /\ s = b64encode b
           /\ length s = 4 * ((length b + 2) / 3)
           /\ forall c, c ∈ s -> c ∈ b64_chars
       end.
Proof.
  unfold result. rewrite image_to_base64_eq. unfold bind.
  destruct (image_bytes x w) as [[b|ex] log]; [|discriminate].
  intros H. exists b. split; [reflexivity|].
  destruct to_base64, b as [|c b].
  2: { assert (He : e = EncStr (b64encode (c :: b)))
         by (change (Ok (EncStr (b64encode (c :: b))) = Ok e) in H; congruence).
       subst e. clear H.
       split; [reflexivity|]. split; [discriminate|]. split; [reflexivity|]. split.
       - by apply (b64encode_length_le (length (c :: b))).
       - intros c0. by apply (b64encode_chars_le (length (c :: b))). }
  all: unfold ret in H; cbn [fst] in H; injection H as <-.
  - split; [reflexivity | done].
  - split; [reflexivity | discriminate].
  - split; [reflexivity | discriminate].
Qed.

Lemma image_to_base64_returns_witness :
  exists b, result (image_bytes (BytesIO (str "PNG!"))) offline = Ok b
    /\ true = true /\ b <> [] /\ str "UE5HIQ==" = b64encode b
    /\ length (str "UE5HIQ==") = 4 * ((length b + 2) / 3)
    /\ forall c, c ∈ str "UE5HIQ==" -> c ∈ b64_chars.
Proof.
  apply (image_to_base64_returns offline (BytesIO (str "PNG!")) true
           (EncStr (str "UE5HIQ=="))).
  reflexivity.
Defined.

(** ** The output file and the title *)

Lemma rfind_from_absent c s i : c ∉ s -> rfind_from c s i = (-1)%Z.
Proof.
  revert i; induction s as [|x s IH]; intros i Hs; [reflexivity|].
  apply not_elem_of_cons in Hs as [Hx Hs]. cbn [rfind_from].
  rewrite IH by exact Hs. cbn.
  assert (E : ascii_eqb x c = false) by (apply ascii_eqb_neq; congruence).
  by rewrite E.
Qed.

Lemma rfind_from_ge c s i : (0 <= i)%Z ->
  (rfind_from c s i = -1 \/ i <= rfind_from c s i)%Z.
Proof.
  revert i; induction s as [|x s IH]; intros i Hi; [by left|].
  cbn [rfind_from]. destruct (IH (i + 1)%Z ltac:(lia)) as [E|E].
  - rewrite E. cbn. destruct (ascii_eqb x c); [right; lia | by left].
  - destruct (rfind_from c s (i + 1) =? -1)%Z eqn:E1; [|right; lia].
    apply Z.eqb_eq in E1. lia.
Qed.

Lemma rfind_from_last c a b i : (0 <= i)%Z ->
  c ∉ b -> rfind_from c (a ++ c :: b) i = (i + Z.of_nat (length a))%Z.
Proof.
  intros Hi Hb. revert i Hi; induction a as [|x a IH]; intros i Hi.
  - cbn [app rfind_from length]. rewrite rfind_from_absent by exact Hb.
    cbn. rewrite ascii_eqb_refl. lia.
  - cbn [app rfind_from length]. rewrite IH by lia.
    destruct (_ =? -1)%Z eqn:E; [apply Z.eqb_eq in E; lia | lia].
Qed.

Lemma rfind_absent c s : c ∉ s -> rfind c s = (-1)%Z.
Proof. apply rfind_from_absent. Qed.

Lemma rfind_last c a b : c ∉ b -> rfind c (a ++ c :: b) = Z.of_nat (length a).
Proof. intros H. unfold rfind. by rewrite rfind_from_last. Qed.

(** The last slash of a path [dir ++ base], where [dir] is empty or ends
    with a slash and [base] has none. *)
Lemma rfind_slash_dir dir base :
  dir = [] \/ (exists d, dir = d ++ [ch_slash]) -> ch_slash ∉ base ->
  (rfind ch_slash (dir ++ base) + 1)%Z = Z.of_nat (length dir).
Proof.
  intros [-> | [d ->]] Hb.
  - cbn [app length]. by rewrite rfind_absent.
  - rewrite <- app_assoc. cbn [app]. rewrite rfind_last by exact Hb.
    rewrite length_app. cbn [length]. lia.
Qed.

Lemma rfind_from_app_absent c a b i :
  c ∉ b -> rfind_from c (a ++ b) i = rfind_from c a i.
Proof.
  intros Hb. revert i; induction a as [|x a IH]; intros i.
  - cbn [app]. by rewrite rfind_from_absent.
  - cbn [app rfind_from]. by rewrite IH.
Qed.

Lemma rfind_from_lt c s i :
  (0 <= i)%Z -> (rfind_from c s i < i + Z.of_nat (length s))%Z.
Proof.
  revert i; induction s as [|x s IH]; intros i Hi; [cbn; lia|].
  cbn [rfind_from length]. specialize (IH (i + 1)%Z ltac:(lia)).
  destruct (_ =? -1)%Z; [destruct (ascii_eqb x c); lia | lia].
Qed.

Lemma splitext_with_extension dir name ext :
  dir = [] \/ (exists d, dir = d ++ [ch_slash]) ->
  ch_slash ∉ name -> (exists x, x ∈ name /\ x <> ch_dot) ->
  ch_dot ∉ ext -> ch_slash ∉ ext ->
  splitext (dir ++ name ++ ch_dot :: ext) = (dir ++ name, ch_dot :: ext).
Proof.
  intros Hdir Hname (x & Hx & Hxd) Hext Hext'. unfold splitext.
  assert (Hsep : (rfind ch_slash (dir ++ name ++ ch_dot :: ext) + 1)%Z
                 = Z.of_nat (length dir)).
  { apply rfind_slash_dir; [exact Hdir|]. apply not_elem_of_app. split; [exact Hname|].
    apply not_elem_of_cons. split; [discriminate | exact Hext']. }
  assert (Hdot : rfind ch_dot (dir ++ name ++ ch_dot :: ext)
                 = Z.of_nat (length (dir ++ name))).
  { rewrite app_assoc. by apply rfind_last. }
  rewrite Hsep, Hdot. rewrite length_app in *.
  replace (rfind ch_slash (dir ++ name ++ ch_dot :: ext))
    with (Z.of_nat (length dir) - 1)%Z by lia.
  destruct (_ <? _)%Z eqn:E; [|apply Z.ltb_ge in E; lia].
  rewrite Nat2Z.id.
  replace (Z.to_nat (Z.of_nat (length dir + length name) - Z.of_nat (length dir)))
    with (length name) by lia.
  rewrite drop_app_length, take_app_length.
  replace (Z.to_nat (Z.of_nat (length dir + length name)))
    with (length (dir ++ name)) by (rewrite length_app; lia).
  rewrite app_assoc, take_app_length, drop_app_length.
  destruct (existsb _ name) eqn:Ex; [reflexivity|].
  assert (existsb (fun x => negb (ascii_eqb x ch_dot)) name = true); [|congruence].
  apply existsb_exists. exists x. split; [by apply list_elem_of_In|].
  apply negb_true_iff. by apply ascii_eqb_neq.
Qed.

Lemma basename_dir dir base :
  dir = [] \/ (exists d, dir = d ++ [ch_slash]) -> ch_slash ∉ base ->
  basename (dir ++ base) = base.
Proof.
  intros Hdir Hbase. unfold basename. rewrite rfind_slash_dir by assumption.
  by rewrite Nat2Z.id, drop_app_length.
Qed.

(** X18: for an input file [dir ++ name ++ "." ++ ext], with [dir] empty
    or ending in a slash, no slash in [name] and [ext], no dot in [ext],
    and a character other than a dot in [name], the default output file
    is [dir ++ name ++ ".html"], beside the input, and the default title
    is [name]; an output file or a title that is given is used as it is. *)
Theorem default_output_replaces_extension (dir name ext : text) :
  dir = [] \/ (exists d, dir = d ++ [ch_slash]) ->
  ch_slash ∉ name -> (exists x, x ∈ name /\ x <> ch_dot) ->
  ch_dot ∉ ext -> ch_slash ∉ ext ->
  output_path (dir ++ name ++ ch_dot :: ext) None = dir ++ name ++ str ".html"
  /\ page_title (dir ++ name ++ ch_dot :: ext) None = name
  /\ forall o t, output_path (dir ++ name ++ ch_dot :: ext) (Some o) = o
                 /\ page_title (dir ++ name ++ ch_dot :: ext) (Some t) = t.
Proof.
  intros Hdir Hname Hx Hext Hext'. unfold output_path, page_title.
  rewrite splitext_with_extension by assumption. cbn [fst].
  split; [by rewrite <- app_assoc|]. split; [by apply basename_dir | done].
Qed.

Lemma default_output_replaces_extension_witness :
  output_path (str "assets/data.jsonl") None = str "assets/data.html"
  /\ page_title (str "assets/data.jsonl") None = str "data".
Proof.
  destruct (default_output_replaces_extension (str "assets/") (str "data") (str "jsonl"))
    as (H1 & H2 & _).
  - right. by exists (str "assets").
  - apply has_char_false. reflexivity.
  - exists "d"%char. split; [apply has_char_true; reflexivity | discriminate].
  - apply has_char_false. reflexivity.
  - apply has_char_false. reflexivity.
  - split; [exact H1 | exact H2].
Defined.

Lemma splitext_without_extension dir n rest :
  dir = [] \/ (exists d, dir = d ++ [ch_slash]) ->
  ch_dot ∉ rest -> ch_slash ∉ rest ->
  splitext (dir ++ repeat ch_dot n ++ rest) = (dir ++ repeat ch_dot n ++ rest, []).
Proof.
  intros Hdir Hrest Hrest'. unfold splitext.
  assert (Hsep : (rfind ch_slash (dir ++ repeat ch_dot n ++ rest) + 1)%Z
                 = Z.of_nat (length dir)).
  { apply rfind_slash_dir; [exact Hdir|]. apply not_elem_of_app. split; [|exact Hrest'].
    intros H. apply list_elem_of_In, repeat_spec in H. discriminate H. }
  destruct n as [|n].
  - cbn [repeat app].
    assert (Hdot : (rfind ch_dot (dir ++ rest) < Z.of_nat (length dir))%Z).
    { unfold rfind. rewrite rfind_from_app_absent by exact Hrest.
      pose proof (rfind_from_lt ch_dot dir 0 ltac:(lia)). lia. }
    cbn [repeat app] in Hsep.
    destruct (_ <? _)%Z eqn:E; [apply Z.ltb_lt in E; lia | reflexivity].
  - assert (Hdot : rfind ch_dot (dir ++ repeat ch_dot (S n) ++ rest)
                   = Z.of_nat (length dir + n)).
    { cbn [repeat]. rewrite repeat_cons, <- !app_assoc. cbn [app].
      rewrite app_assoc, rfind_last by exact Hrest.
      by rewrite length_app, repeat_length. }
    rewrite Hdot.
    replace (rfind ch_slash (dir ++ repeat ch_dot (S n) ++ rest))
      with (Z.of_nat (length dir) - 1)%Z by lia.
    destruct (_ <? _)%Z; [|reflexivity].
    replace (Z.to_nat (Z.of_nat (length dir) - 1 + 1)) with (length dir) by lia.
    replace (Z.to_nat (Z.of_nat (length dir + n) - (Z.of_nat (length dir) - 1 + 1)))
      with n by lia.
    rewrite drop_app_length.
    replace (take n (repeat ch_dot (S n) ++ rest)) with (repeat ch_dot n).
    + destruct (existsb _ (repeat ch_dot n)) eqn:Ex; [|reflexivity].
      apply existsb_exists in Ex as (x & Hx & Hnd).
      apply repeat_spec in Hx as ->. discriminate Hnd.
    + cbn [repeat]. rewrite repeat_cons, <- app_assoc.
      pose proof (take_app_length (repeat ch_dot n) ([ch_dot] ++ rest)) as Ht.
      rewrite repeat_length in Ht. by rewrite Ht.
Qed.

(** X19: an input file whose last component has no dot, or only dots at
    its start, has no extension to replace: the default output file is
    the input file with [.html] after it, so [.hidden] gives
    [.hidden.html], and the default title is the last component. *)
Theorem default_output_appends (dir : text) (n : nat) (rest : text) :
  dir = [] \/ (exists d, dir = d ++ [ch_slash]) ->
  ch_dot ∉ rest -> ch_slash ∉ rest ->
  output_path (dir ++ repeat ch_dot n ++ rest) None
  = dir ++ repeat ch_dot n ++ rest ++ str ".html"
  /\ page_title (dir ++ repeat ch_dot n ++ rest) None = repeat ch_dot n ++ rest.
Proof.
  intros Hdir Hrest Hrest'. unfold output_path, page_title.
  rewrite splitext_without_extension by assumption. cbn [fst].
  split; [by rewrite <- !app_assoc|].
  apply basename_dir; [exact Hdir|]. apply not_elem_of_app. split; [|exact Hrest'].
  intros H. apply list_elem_of_In, repeat_spec in H. discriminate H.
Qed.

Lemma default_output_appends_witness :
  output_path (str "runs.v2/.hidden") None = str "runs.v2/.hidden.html"
  /\ page_title (str "runs.v2/.hidden") None = str ".hidden".
Proof.
  apply (default_output_appends (str "runs.v2/") 1 (str "hidden")).
  - right. by exists (str "runs.v2").
  - apply has_char_false. reflexivity.
  - apply has_char_false. reflexivity.
Defined.
